(** * chess-master: rules engine ([src/lib/chess.ts]) and search ([src/lib/chessAI.ts])

    A shallow embedding of the two library files.  Row and column numbers are
    integers ([Z]); a board is a JavaScript array of arrays, modelled as a
    list of lists of cells; code that can throw (indexing a missing row)
    lives in the [result] monad.  Scores are integers ([Z]) extended with the
    two infinities.  A Number that need not be an integer is held as the
    rational it denotes, and an operation on Numbers that is not exact rounds
    its exact result to binary64 ([fl64]); the values of [Math.random()] are
    such rationals, handed to [getBestMove] as an explicit source. *)

From Stdlib Require Import ZArith List Bool Lia QArith Qminmax Qabs Qround Qpower Lqa.
From Stdlib Require Ascii String Floats.SpecFloat.
Import ListNotations.
Local Open Scope Z_scope.

(** ** Outcome of a computation that may throw *)

Inductive result (A : Type) : Type :=
| Ok (a : A)
| TypeError.
Arguments Ok {A} a.
Arguments TypeError {A}.

Definition bind {A B} (m : result A) (k : A -> result B) : result B :=
  match m with
  | Ok a => k a
  | TypeError => TypeError
  end.

Notation "x <- m ;; k" := (bind m (fun x => k))
  (at level 61, m at next level, right associativity).

(** [forEach] with a body that pushes onto one accumulator: the pushed
    positions of every iteration, in order. *)
Fixpoint flatMapM {A B} (f : A -> result (list B)) (l : list A) : result (list B) :=
  match l with
  | [] => Ok []
  | x :: xs => ys <- f x ;; zs <- flatMapM f xs ;; Ok (ys ++ zs)
  end.

(** [Array.prototype.filter] with a predicate that may throw. *)
Fixpoint filterM {A} (f : A -> result bool) (l : list A) : result (list A) :=
  match l with
  | [] => Ok []
  | x :: xs => keep <- f x ;; rest <- filterM f xs ;; Ok (if keep then x :: rest else rest)
  end.

(** A scan that returns [true] at the first element satisfying [f] and does
    not look at the rest (a [for] loop with an early [return]). *)
Fixpoint anyM {A} (f : A -> result bool) (l : list A) : result bool :=
  match l with
  | [] => Ok false
  | x :: xs => hit <- f x ;; if hit then Ok true else anyM f xs
  end.

(** A scan that returns the first element satisfying [f]. *)
Fixpoint findM {A} (f : A -> result bool) (l : list A) : result (option A) :=
  match l with
  | [] => Ok None
  | x :: xs => hit <- f x ;; if hit then Ok (Some x) else findM f xs
  end.

(** A loop that updates one accumulator. *)
Fixpoint foldM {A S} (f : S -> A -> result S) (l : list A) (s : S) : result S :=
  match l with
  | [] => Ok s
  | x :: xs => s' <- f s x ;; foldM f xs s'
  end.

(** ** JavaScript arrays *)

(** [l[i]] for an integer [i]: [None] stands for [undefined]. *)
Definition index {A} (l : list A) (i : Z) : option A :=
  if i <? 0 then None else nth_error l (Z.to_nat i).

Fixpoint update {A} (l : list A) (n : nat) (v : A) : list A :=
  match l, n with
  | [], _ => []
  | _ :: xs, O => v :: xs
  | x :: xs, S n' => x :: update xs n' v
  end.

(** ** JavaScript Numbers

    A finite Number is a rational of the form [m * 2^e] with [|m| < 2^53]
    and [e >= -1074] (IEEE 754 binary64).  The result of a multiplication,
    and the value of a decimal literal, is the exact rational rounded to the
    nearest such value, ties to the one with an even [m]. *)

Definition pow2 (e : Z) : Q := Qpower 2 e.

(** [floor (log2 x)] for [x > 0]: the difference of the bit lengths of
    numerator and denominator, or one less. *)
Definition ilog2 (x : Q) : Z :=
  let d := Z.log2 (Qnum x) - Z.log2 (Zpos (Qden x)) in
  if Qle_bool (pow2 d) x then d else d - 1.

(** The integer nearest to [y], the even one of the two when [y] is half way. *)
Definition nearestEven (y : Q) : Z :=
  let f := Qfloor y in
  match Qcompare (y - inject_Z f) (1 # 2) with
  | Lt => f
  | Gt => f + 1
  | Eq => if Z.even f then f else f + 1
  end.

(** Rounding of [x > 0]: the spacing of the Numbers around [x] is
    [2^(e - 52)] where [2^e <= x < 2^(e + 1)], and [2^-1074] below [2^-1022]
    (the subnormal range). *)
Definition roundPos (x : Q) : Q :=
  let e := Z.max (ilog2 x) (-1022) in
  let ulp := pow2 (e - 52) in
  (inject_Z (nearestEven (x / ulp)) * ulp)%Q.

(** The Number nearest to the rational [x], for [|x|] below the overflow
    threshold [2^1024 - 2^970]: infinity is not represented.  The products
    rounded below are of a value of [Math.random()] and the length of an
    array. *)
Definition fl64 (x : Q) : Q :=
  match Qcompare x 0 with
  | Eq => 0%Q
  | Gt => roundPos x
  | Lt => (- roundPos (- x))%Q
  end.

(** [x] is a Number. *)
Definition isDouble (x : Q) : bool := Qeq_bool (fl64 x) x.

(** [a < b] on Numbers *)
Definition Qltb (a b : Q) : bool := negb (Qle_bool b a).

(** What a call of [Math.random()] may return: a Number [r] with
    [0 <= r < 1]. *)
Definition isRandomValue (r : Q) : bool :=
  Qle_bool 0 r && Qltb r 1 && isDouble r.

(** The largest Number below 1, [1 - 2^-53]. *)
Definition maxRandom : Q := 9007199254740991 # 9007199254740992.

(** The rational that a finite binary64 value of the Standard Library's
    specification of floating-point arithmetic denotes. *)
Definition ofSpecFloat (f : SpecFloat.spec_float) : Q :=
  match f with
  | SpecFloat.S754_finite s m e =>
      ((if s then -1 else 1) * inject_Z (Zpos m) * pow2 e)%Q
  | _ => 0%Q
  end.

Module Chess.

(** ** Data model *)

Inductive PieceType := pawn | knight | bishop | rook | queen | king.
Inductive PieceColor := white | black.

Record Piece := mkPiece { type : PieceType; color : PieceColor }.

Record Position := mkPos { row : Z; col : Z }.

Record Move := mkMove {
  from : Position;
  to : Position;
  piece : Piece;
  captured : option Piece;
  isEnPassant : option bool;
  isCastling : option bool;
  promotion : option PieceType
}.

(** What reading [board[r][c]] can give: a piece, [null], or [undefined]
    (a column past the end of the row, or a hole left by a write past the
    end). *)
Inductive Cell := Undefined | Null | Occ (p : Piece).

Definition Board := list (list Cell).

Definition PieceType_eqb (a b : PieceType) : bool :=
  match a, b with
  | pawn, pawn | knight, knight | bishop, bishop
  | rook, rook | queen, queen | king, king => true
  | _, _ => false
  end.

Definition PieceColor_eqb (a b : PieceColor) : bool :=
  match a, b with
  | white, white | black, black => true
  | _, _ => false
  end.

Definition Position_eqb (p q : Position) : bool :=
  (row p =? row q) && (col p =? col q).

(** [board[r][c]]: indexing the missing row [board[r]] throws; a missing
    column reads as [undefined]. *)
Definition cellAt (board : Board) (r c : Z) : result Cell :=
  match index board r with
  | None => TypeError
  | Some rw => Ok (match index rw c with Some x => x | None => Undefined end)
  end.

(** [rw[c] = v] on a row array.  Inside the row the element is replaced; past
    the end JavaScript extends the array, leaving holes; a negative [c] names
    a property, not an element, and no element changes.  The model does not
    keep such a property: in JavaScript the next [copyBoard] drops it, but a
    read of the same negative column of the same array before that gives it
    back.  The program writes at squares of the grid only. *)
Definition setRow (rw : list Cell) (c : Z) (v : Cell) : list Cell :=
  if c <? 0 then rw
  else if c <? Z.of_nat (length rw) then update rw (Z.to_nat c) v
  else rw ++ repeat Undefined (Z.to_nat c - length rw) ++ [v].

(** [board[r][c] = v]. *)
Definition setCell (board : Board) (r c : Z) (v : Cell) : result Board :=
  match index board r with
  | None => TypeError
  | Some rw => Ok (update board (Z.to_nat r) (setRow rw c v))
  end.

Definition wP := Occ (mkPiece pawn white).
Definition bP := Occ (mkPiece pawn black).

Definition INITIAL_BOARD : Board :=
  [ [ Occ (mkPiece rook black); Occ (mkPiece knight black); Occ (mkPiece bishop black);
      Occ (mkPiece queen black); Occ (mkPiece king black); Occ (mkPiece bishop black);
      Occ (mkPiece knight black); Occ (mkPiece rook black) ];
    repeat bP 8;
    repeat Null 8;
    repeat Null 8;
    repeat Null 8;
    repeat Null 8;
    repeat wP 8;
    [ Occ (mkPiece rook white); Occ (mkPiece knight white); Occ (mkPiece bishop white);
      Occ (mkPiece queen white); Occ (mkPiece king white); Occ (mkPiece bishop white);
      Occ (mkPiece knight white); Occ (mkPiece rook white) ] ].

Definition isValidPosition (pos : Position) : bool :=
  (row pos >=? 0) && (row pos <? 8) && (col pos >=? 0) && (col pos <? 8).

(** [piece ? { ...piece } : null]; [map] skips holes, which stay holes.  An
    [undefined] stored as an element (by a move from a column past the end of
    its row) would become [null]: the model does not tell it from a hole. *)
Definition copyCell (c : Cell) : Cell :=
  match c with
  | Occ p => Occ (mkPiece (type p) (color p))
  | Null => Null
  | Undefined => Undefined
  end.

Definition copyBoard (board : Board) : Board :=
  map (fun rw => map copyCell rw) board.

(** The squares in the order of the nested loops
    [for row in 0..7, for col in 0..7]. *)
Definition range8 : list Z := [0; 1; 2; 3; 4; 5; 6; 7].

Definition allSquares : list Position :=
  flat_map (fun r => map (fun c => mkPos r c) range8) range8.

(** ** Pseudo-legal move generation *)

(** [color === 'white' ? 'black' : 'white'] *)
Definition opposite (c : PieceColor) : PieceColor :=
  match c with white => black | black => white end.

(** [target && target.color !== color] *)
Definition isEnemy (target : Cell) (c : PieceColor) : bool :=
  match target with
  | Occ t => negb (PieceColor_eqb (color t) c)
  | _ => false
  end.

(** [!target] *)
Definition isFalsy (target : Cell) : bool :=
  match target with
  | Occ _ => false
  | _ => true
  end.

(** The en passant test of [getPawnMoves] for one capture square. *)
Definition enPassantOk (from_ capture : Position) (lastMove : option Move) : bool :=
  match lastMove with
  | None => false
  | Some lm =>
      PieceType_eqb (type (piece lm)) pawn
      && (Z.abs (row (from lm) - row (to lm)) =? 2)
      && (row (to lm) =? row from_)
      && (col (to lm) =? col capture)
  end.

Definition getPawnMoves (board : Board) (from_ : Position) (c : PieceColor)
    (lastMove : option Move) : result (list Position) :=
  let direction := match c with white => -1 | black => 1 end in
  let startRow := match c with white => 6 | black => 1 end in
  let forward := mkPos (row from_ + direction) (col from_) in
  fwd <- (if isValidPosition forward then
            ahead <- cellAt board (row forward) (col forward) ;;
            if isFalsy ahead then
              if row from_ =? startRow then
                let doubleForward := mkPos (row from_ + 2 * direction) (col from_) in
                ahead2 <- cellAt board (row doubleForward) (col doubleForward) ;;
                Ok (if isFalsy ahead2 then [forward; doubleForward] else [forward])
              else Ok [forward]
            else Ok []
          else Ok []) ;;
  caps <- flatMapM (fun colOffset =>
            let capture := mkPos (row from_ + direction) (col from_ + colOffset) in
            if isValidPosition capture then
              target <- cellAt board (row capture) (col capture) ;;
              Ok ((if isEnemy target c then [capture] else [])
                  ++ (if enPassantOk from_ capture lastMove then [capture] else []))
            else Ok []) [-1; 1] ;;
  Ok (fwd ++ caps).

(** The body shared, word for word, by the [forEach] of [getKnightMoves] and
    of [getKingMoves]. *)
Definition stepTo (board : Board) (from_ : Position) (c : PieceColor)
    (offset : Z * Z) : result (list Position) :=
  let to_ := mkPos (row from_ + fst offset) (col from_ + snd offset) in
  if isValidPosition to_ then
    target <- cellAt board (row to_) (col to_) ;;
    Ok (if isFalsy target || isEnemy target c then [to_] else [])
  else Ok [].

Definition getKnightMoves (board : Board) (from_ : Position) (c : PieceColor)
    : result (list Position) :=
  flatMapM (stepTo board from_ c)
    [(-2, -1); (-2, 1); (-1, -2); (-1, 2); (1, -2); (1, 2); (2, -1); (2, 1)].

Definition getKingMoves (board : Board) (from_ : Position) (c : PieceColor)
    : result (list Position) :=
  flatMapM (stepTo board from_ c)
    [(-1, -1); (-1, 0); (-1, 1); (0, -1); (0, 1); (1, -1); (1, 0); (1, 1)].

(** The [while] loop of [getDirectionalMoves] along one direction, entered at
    square [(r, c)]; [fuel] bounds the number of iterations. *)
Fixpoint ray (fuel : nat) (board : Board) (c : PieceColor) (rowDir colDir : Z)
    (r cl : Z) : result (list Position) :=
  match fuel with
  | O => Ok []
  | S fuel' =>
      if isValidPosition (mkPos r cl) then
        target <- cellAt board r cl ;;
        if isFalsy target then
          rest <- ray fuel' board c rowDir colDir (r + rowDir) (cl + colDir) ;;
          Ok (mkPos r cl :: rest)
        else
          Ok (if isEnemy target c then [mkPos r cl] else [])
      else Ok []
  end.

(** Eight iterations are enough for every direction other than [(0, 0)]: see
    [ray_fuel_enough]. *)
Definition getDirectionalMoves (board : Board) (from_ : Position) (c : PieceColor)
    (directions : list (Z * Z)) : result (list Position) :=
  flatMapM (fun d =>
    ray 8 board c (fst d) (snd d) (row from_ + fst d) (col from_ + snd d)) directions.

Definition getBishopMoves (board : Board) (from_ : Position) (c : PieceColor) :=
  getDirectionalMoves board from_ c [(-1, -1); (-1, 1); (1, -1); (1, 1)].

Definition getRookMoves (board : Board) (from_ : Position) (c : PieceColor) :=
  getDirectionalMoves board from_ c [(-1, 0); (1, 0); (0, -1); (0, 1)].

Definition getQueenMoves (board : Board) (from_ : Position) (c : PieceColor) :=
  getDirectionalMoves board from_ c
    [(-1, -1); (-1, 0); (-1, 1); (0, -1); (0, 1); (1, -1); (1, 0); (1, 1)].

(** The [switch] on the piece type, common to [getValidMoves] and
    [getValidMovesWithoutCheckTest]. *)
Definition pieceMoves (board : Board) (from_ : Position) (p : Piece)
    (lastMove : option Move) : result (list Position) :=
  match type p with
  | pawn => getPawnMoves board from_ (color p) lastMove
  | knight => getKnightMoves board from_ (color p)
  | bishop => getBishopMoves board from_ (color p)
  | rook => getRookMoves board from_ (color p)
  | queen => getQueenMoves board from_ (color p)
  | king => getKingMoves board from_ (color p)
  end.

Definition getValidMovesWithoutCheckTest (board : Board) (from_ : Position)
    : result (list Position) :=
  p <- cellAt board (row from_) (col from_) ;;
  match p with
  | Occ pc => pieceMoves board from_ pc None
  | _ => Ok []
  end.

(** ** Check detection *)

Definition findKing (board : Board) (c : PieceColor) : result (option Position) :=
  findM (fun sq =>
    p <- cellAt board (row sq) (col sq) ;;
    Ok (match p with
        | Occ pc => PieceType_eqb (type pc) king && PieceColor_eqb (color pc) c
        | _ => false
        end)) allSquares.

Definition isInCheck (board : Board) (c : PieceColor) : result bool :=
  kp <- findKing board c ;;
  match kp with
  | None => Ok false
  | Some kingPos =>
      let opponentColor := opposite c in
      anyM (fun sq =>
        p <- cellAt board (row sq) (col sq) ;;
        match p with
        | Occ pc =>
            if PieceColor_eqb (color pc) opponentColor then
              moves <- getValidMovesWithoutCheckTest board sq ;;
              Ok (existsb (fun move => Position_eqb move kingPos) moves)
            else Ok false
        | _ => Ok false
        end) allSquares
  end.

Definition wouldBeInCheck (board : Board) (from_ to_ : Position) (c : PieceColor)
    : result bool :=
  let testBoard := copyBoard board in
  moved <- cellAt testBoard (row from_) (col from_) ;;
  testBoard1 <- setCell testBoard (row to_) (col to_) moved ;;
  testBoard2 <- setCell testBoard1 (row from_) (col from_) Null ;;
  isInCheck testBoard2 c.

(** ** Legal moves *)

Definition getValidMoves (board : Board) (from_ : Position) (lastMove : option Move)
    : result (list Position) :=
  p <- cellAt board (row from_) (col from_) ;;
  match p with
  | Occ pc =>
      moves <- pieceMoves board from_ pc lastMove ;;
      filterM (fun to_ =>
        chk <- wouldBeInCheck board from_ to_ (color pc) ;; Ok (negb chk)) moves
  | _ => Ok []
  end.

(** The loop shared by [isCheckmate] and [isStalemate]: [true] as soon as a
    piece of the colour has a legal move. *)
Definition hasLegalMove (board : Board) (c : PieceColor) : result bool :=
  anyM (fun sq =>
    p <- cellAt board (row sq) (col sq) ;;
    match p with
    | Occ pc =>
        if PieceColor_eqb (color pc) c then
          moves <- getValidMoves board sq None ;;
          Ok (negb (Nat.eqb (length moves) 0))
        else Ok false
    | _ => Ok false
    end) allSquares.

Definition isCheckmate (board : Board) (c : PieceColor) : result bool :=
  chk <- isInCheck board c ;;
  if negb chk then Ok false
  else (any <- hasLegalMove board c ;; Ok (negb any)).

Definition isStalemate (board : Board) (c : PieceColor) : result bool :=
  chk <- isInCheck board c ;;
  if chk then Ok false
  else (any <- hasLegalMove board c ;; Ok (negb any)).

End Chess.

Module ChessAI.
Import Chess.

Inductive Difficulty := easy | medium | hard.

(** ** Numbers

    Every score the search computes is an integer, far below the size at
    which a JavaScript number stops being exact; [-Infinity] and [Infinity]
    appear as initial values and as the first search window. *)

Inductive Num := NegInf | Fin (z : Z) | PosInf.

(** [a <= b] *)
Definition nleb (a b : Num) : bool :=
  match a, b with
  | NegInf, _ => true
  | _, PosInf => true
  | Fin x, Fin y => x <=? y
  | _, _ => false
  end.

(** [a < b] *)
Definition nltb (a b : Num) : bool := negb (nleb b a).

(** [Math.max(a, b)] and [Math.min(a, b)] *)
Definition nmax (a b : Num) : Num := if nleb a b then b else a.
Definition nmin (a b : Num) : Num := if nleb a b then a else b.

(** ** Static evaluation *)

Definition PIECE_VALUES (t : PieceType) : Z :=
  match t with
  | pawn => 100
  | knight => 320
  | bishop => 330
  | rook => 500
  | queen => 900
  | king => 20000
  end.

(** [getPositionBonus] as the source writes it, over the rationals:
    [Math.max(0, 3 - Math.abs(3.5 - row) - Math.abs(3.5 - col)) * 10]. *)
Definition centerBonusQ (r c : Z) : Q :=
  (Qmax 0 (3 - Qabs (3.5 - inject_Z r) - Qabs (3.5 - inject_Z c)) * 10)%Q.

Definition getPositionBonusQ (p : Piece) (r c : Z) : Q :=
  let centerBonus := centerBonusQ r c in
  match type p with
  | pawn =>
      let advancementBonus :=
        match color p with
        | white => ((6 - inject_Z r) * 10)%Q
        | black => (inject_Z r * 10)%Q
        end in
      advancementBonus
  | knight | bishop => centerBonus
  | _ => 0%Q
  end.

(** The same value as an integer: rows and columns are integers, so
    [|3.5 - row|] and [|3.5 - col|] are halves of the odd numbers
    [|7 - 2 row|] and [|7 - 2 col|], and the bonus is
    [5 * max(0, 6 - |7 - 2 row| - |7 - 2 col|)].  [getPositionBonus_exact]
    proves the two definitions equal. *)
Definition centerBonus (r c : Z) : Z :=
  Z.max 0 (6 - Z.abs (7 - 2 * r) - Z.abs (7 - 2 * c)) * 5.

Definition getPositionBonus (p : Piece) (r c : Z) : Z :=
  match type p with
  | pawn =>
      match color p with
      | white => (6 - r) * 10
      | black => r * 10
      end
  | knight | bishop => centerBonus r c
  | _ => 0
  end.

Definition evaluateBoard (board : Board) (c : PieceColor) : result Z :=
  foldM (fun score sq =>
    p <- cellAt board (row sq) (col sq) ;;
    match p with
    | Occ pc =>
        let value := PIECE_VALUES (type pc) in
        let positionBonus := getPositionBonus pc (row sq) (col sq) in
        let total := value + positionBonus in
        Ok (if PieceColor_eqb (color pc) c then score + total else score - total)
    | _ => Ok score
    end) allSquares 0.

(** ** Move enumeration and application *)

Record FromTo := mkFromTo { from : Position; to : Position }.

Definition getAllPossibleMoves (board : Board) (c : PieceColor) : result (list FromTo) :=
  flatMapM (fun sq =>
    p <- cellAt board (row sq) (col sq) ;;
    match p with
    | Occ pc =>
        if PieceColor_eqb (color pc) c then
          validMoves <- getValidMoves board sq None ;;
          Ok (map (fun to_ => mkFromTo sq to_) validMoves)
        else Ok []
    | _ => Ok []
    end) allSquares.

Definition makeMove (board : Board) (from_ to_ : Position) : result Board :=
  let newBoard := copyBoard board in
  moved <- cellAt newBoard (row from_) (col from_) ;;
  newBoard1 <- setCell newBoard (row to_) (col to_) moved ;;
  setCell newBoard1 (row from_) (col from_) Null.

(** ** Alpha-beta search *)

(** The [for] loop of a maximizing node; [child] scores a child board in the
    current window. *)
Fixpoint maxLoop (child : Board -> Num -> Num -> result Num) (board : Board)
    (moves : list FromTo) (maxEval alpha beta : Num) : result Num :=
  match moves with
  | [] => Ok maxEval
  | move :: rest =>
      newBoard <- makeMove board (from move) (to move) ;;
      evaluation <- child newBoard alpha beta ;;
      let maxEval := nmax maxEval evaluation in
      let alpha := nmax alpha evaluation in
      if nleb beta alpha then Ok maxEval
      else maxLoop child board rest maxEval alpha beta
  end.

(** The [for] loop of a minimizing node. *)
Fixpoint minLoop (child : Board -> Num -> Num -> result Num) (board : Board)
    (moves : list FromTo) (minEval alpha beta : Num) : result Num :=
  match moves with
  | [] => Ok minEval
  | move :: rest =>
      newBoard <- makeMove board (from move) (to move) ;;
      evaluation <- child newBoard alpha beta ;;
      let minEval := nmin minEval evaluation in
      let beta := nmin beta evaluation in
      if nleb beta alpha then Ok minEval
      else minLoop child board rest minEval alpha beta
  end.

Fixpoint minimax (board : Board) (depth : nat) (alpha beta : Num) (maximizing : bool)
    (c : PieceColor) : result Num :=
  match depth with
  | O => score <- evaluateBoard board c ;; Ok (Fin score)
  | S depth' =>
      let currentColor := if maximizing then c else opposite c in
      mate <- isCheckmate board currentColor ;;
      if mate then Ok (if maximizing then Fin (-999999) else Fin 999999)
      else
        moves <- getAllPossibleMoves board currentColor ;;
        match moves with
        | [] => Ok (Fin 0)
        | _ :: _ =>
            if maximizing then
              maxLoop (fun nb a b => minimax nb depth' a b false c)
                board moves NegInf alpha beta
            else
              minLoop (fun nb a b => minimax nb depth' a b true c)
                board moves PosInf alpha beta
        end
  end.

(** ** Choosing a move *)

(** What [getBestMove] evaluates to: [null], a move, or [undefined] (an array
    read outside its bounds). *)
Inductive Choice := NullMove | UndefinedMove | Chosen (m : FromTo).

(** [l[Math.floor(r * l.length)]]: the product is a Number, the exact
    product rounded. *)
Definition pick (l : list FromTo) (r : Q) : Choice :=
  match index l (Qfloor (fl64 (r * inject_Z (Z.of_nat (length l))))) with
  | Some m => Chosen m
  | None => UndefinedMove
  end.

(** The final [for] loop of [getBestMove]; [score] is the search below a
    root move. *)
Fixpoint bestLoop (score : Board -> result Num) (board : Board) (moves : list FromTo)
    (bestMove : FromTo) (bestValue : Num) : result FromTo :=
  match moves with
  | [] => Ok bestMove
  | move :: rest =>
      newBoard <- makeMove board (from move) (to move) ;;
      value <- score newBoard ;;
      if nltb bestValue value then bestLoop score board rest move value
      else bestLoop score board rest bestMove bestValue
  end.

(** [random n] is the value of the [n]-th call of [Math.random()] made by
    this invocation, counting from 0.  The literal [0.5] is a Number; [0.7]
    is not, and stands for the Number nearest to it, [fl64 0.7]. *)
Definition getBestMove (board : Board) (c : PieceColor) (difficulty : Difficulty)
    (random : nat -> Q) : result Choice :=
  let depth := match difficulty with easy => 1 | medium => 2 | hard => 3 end%nat in
  moves <- getAllPossibleMoves board c ;;
  match moves with
  | [] => Ok NullMove
  | first :: _ =>
      if match difficulty with easy => Qltb (random 0%nat) 0.5 | _ => false end then
        captures <- filterM (fun move =>
                      target <- cellAt board (row (to move)) (col (to move)) ;;
                      Ok (match target with Null => false | _ => true end)) moves ;;
        match captures with
        | _ :: _ =>
            if Qltb (random 1%nat) (fl64 0.7) then Ok (pick captures (random 2%nat))
            else Ok (pick moves (random 2%nat))
        | [] => Ok (pick moves (random 1%nat))
        end
      else
        best <- bestLoop (fun nb => minimax nb (depth - 1) NegInf PosInf false c)
                  board moves first NegInf ;;
        Ok (Chosen best)
  end.

(** ** Full minimax, the reference the pruned search is compared with

    The search of [minimax] and [getBestMove] with the two [break]s removed
    (and with them the window, which nothing else reads): every child of
    every node is scored. *)

Fixpoint maxLoopFull (child : Board -> result Num) (board : Board)
    (moves : list FromTo) (maxEval : Num) : result Num :=
  match moves with
  | [] => Ok maxEval
  | move :: rest =>
      newBoard <- makeMove board (from move) (to move) ;;
      evaluation <- child newBoard ;;
      maxLoopFull child board rest (nmax maxEval evaluation)
  end.

Fixpoint minLoopFull (child : Board -> result Num) (board : Board)
    (moves : list FromTo) (minEval : Num) : result Num :=
  match moves with
  | [] => Ok minEval
  | move :: rest =>
      newBoard <- makeMove board (from move) (to move) ;;
      evaluation <- child newBoard ;;
      minLoopFull child board rest (nmin minEval evaluation)
  end.

Fixpoint minimaxFull (board : Board) (depth : nat) (maximizing : bool)
    (c : PieceColor) : result Num :=
  match depth with
  | O => score <- evaluateBoard board c ;; Ok (Fin score)
  | S depth' =>
      let currentColor := if maximizing then c else opposite c in
      mate <- isCheckmate board currentColor ;;
      if mate then Ok (if maximizing then Fin (-999999) else Fin 999999)
      else
        moves <- getAllPossibleMoves board currentColor ;;
        match moves with
        | [] => Ok (Fin 0)
        | _ :: _ =>
            if maximizing then
              maxLoopFull (fun nb => minimaxFull nb depth' false c) board moves NegInf
            else
              minLoopFull (fun nb => minimaxFull nb depth' true c) board moves PosInf
        end
  end.

(** The move a full minimax search of [depth] plies chooses: the first move,
    in generation order, with the strictly greatest score. *)
Definition getBestMoveFull (board : Board) (c : PieceColor) (depth : nat)
    : result Choice :=
  moves <- getAllPossibleMoves board c ;;
  match moves with
  | [] => Ok NullMove
  | first :: _ =>
      best <- bestLoop (fun nb => minimaxFull nb (depth - 1) false c)
                board moves first NegInf ;;
      Ok (Chosen best)
  end.

End ChessAI.

Import Chess ChessAI.

(** ** Fixture positions *)

Definition pieceOf (t : PieceType) (c : PieceColor) : Cell := Occ (mkPiece t c).

(** The position after 1. f3 e5 2. g4 Qh4: white is checkmated. *)
Definition foolsMate : Board :=
  [ [ pieceOf rook black; pieceOf knight black; pieceOf bishop black; Null;
      pieceOf king black; pieceOf bishop black; pieceOf knight black; pieceOf rook black ];
    [ bP; bP; bP; bP; Null; bP; bP; bP ];
    repeat Null 8;
    [ Null; Null; Null; Null; bP; Null; Null; Null ];
    [ Null; Null; Null; Null; Null; Null; wP; pieceOf queen black ];
    [ Null; Null; Null; Null; Null; wP; Null; Null ];
    [ wP; wP; wP; wP; wP; Null; Null; wP ];
    [ pieceOf rook white; pieceOf knight white; pieceOf bishop white; pieceOf queen white;
      pieceOf king white; pieceOf bishop white; pieceOf knight white; pieceOf rook white ] ].

(** A lone black king in the corner, not attacked and with no square to go
    to: black is stalemated. *)
Definition cornered : Board :=
  [ [ pieceOf king black; Null; Null; Null; Null; Null; Null; Null ];
    [ Null; Null; pieceOf queen white; Null; Null; Null; Null; Null ];
    [ Null; pieceOf king white; Null; Null; Null; Null; Null; Null ];
    repeat Null 8; repeat Null 8; repeat Null 8; repeat Null 8; repeat Null 8 ].

(** The position after 1. e4 d5: white can capture on d5. *)
Definition afterE4D5 : Board :=
  [ [ pieceOf rook black; pieceOf knight black; pieceOf bishop black; pieceOf queen black;
      pieceOf king black; pieceOf bishop black; pieceOf knight black; pieceOf rook black ];
    [ bP; bP; bP; Null; bP; bP; bP; bP ];
    repeat Null 8;
    [ Null; Null; Null; bP; Null; Null; Null; Null ];
    [ Null; Null; Null; Null; wP; Null; Null; Null ];
    repeat Null 8;
    [ wP; wP; wP; wP; Null; wP; wP; wP ];
    [ pieceOf rook white; pieceOf knight white; pieceOf bishop white; pieceOf queen white;
      pieceOf king white; pieceOf bishop white; pieceOf knight white; pieceOf rook white ] ].

(** The position after 1. e4 a6 2. e5 d5, and black's last move: white may
    capture en passant on d6. *)
Definition afterE5D5 : Board :=
  [ [ pieceOf rook black; pieceOf knight black; pieceOf bishop black; pieceOf queen black;
      pieceOf king black; pieceOf bishop black; pieceOf knight black; pieceOf rook black ];
    [ Null; bP; bP; Null; bP; bP; bP; bP ];
    [ bP; Null; Null; Null; Null; Null; Null; Null ];
    [ Null; Null; Null; bP; wP; Null; Null; Null ];
    repeat Null 8;
    repeat Null 8;
    [ wP; wP; wP; wP; Null; wP; wP; wP ];
    [ pieceOf rook white; pieceOf knight white; pieceOf bishop white; pieceOf queen white;
      pieceOf king white; pieceOf bishop white; pieceOf knight white; pieceOf rook white ] ].

Definition d7d5 : Move :=
  mkMove (mkPos 1 3) (mkPos 3 3) (mkPiece pawn black) None None None None.

(** A board with one white pawn, on a2, and nothing else. *)
Definition lonePawn : Board :=
  [ repeat Null 8; repeat Null 8; repeat Null 8; repeat Null 8; repeat Null 8;
    repeat Null 8; [ wP; Null; Null; Null; Null; Null; Null; Null ]; repeat Null 8 ].

(** ** The order on numbers, and what a pruned score says about the full one *)

(** [x <= y] as a proposition. *)
Definition nle (x y : Num) : Prop :=
  match x, y with
  | NegInf, _ => True
  | _, PosInf => True
  | Fin a, Fin b => a <= b
  | _, _ => False
  end.

(** The score [w] that a search in the window [(a, b)] returns, against the
    score [v] of the full search: on the same side of the window when [v] is
    outside it, equal to [v] when [v] is inside. *)
Definition within (v w a b : Num) : Prop :=
  (nleb v a = true -> nleb w a = true) /\
  (nleb b v = true -> nleb b w = true) /\
  (nltb a v = true -> nltb v b = true -> w = v).

(** The full search [childF] scores the child reached by [m], and the pruned
    search [childP] scores it within every open window. *)
Definition agrees (childF : Board -> result Num)
    (childP : Board -> Num -> Num -> result Num) (board : Board) (m : FromTo) : Prop :=
  exists nb v,
    makeMove board (from m) (to m) = Ok nb /\
    childF nb = Ok v /\
    forall a b, nltb a b = true -> exists w, childP nb a b = Ok w /\ within v w a b.

(** ** Predicates used in the statements *)

(** [0 <= row < 8] and [0 <= col < 8]. *)
Definition inRange (p : Position) : Prop :=
  0 <= row p < 8 /\ 0 <= col p < 8.

(** The board array has the eight rows the loops index. *)
Definition eightRows (board : Board) : Prop := length board = 8%nat.

(** An 8 x 8 grid of pieces and [null]s, the boards of the specification. *)
Definition isDefined (x : Cell) : bool :=
  match x with Undefined => false | _ => true end.

Definition wf_row (rw : list Cell) : bool :=
  Nat.eqb (length rw) 8 && forallb isDefined rw.

Definition wf_board (board : Board) : Prop :=
  Nat.eqb (length board) 8 && forallb wf_row board = true.

(** A position that names an element of the board's arrays. *)
Definition onBoard (board : Board) (p : Position) : Prop :=
  exists rw, index board (row p) = Some rw /\ 0 <= col p < Z.of_nat (length rw).

Definition isAt (r c : Z) (p : Position) : bool := (r =? row p) && (c =? col p).

(** A bound on the iterations left when the loop is at square [(r, cl)]. *)
Definition stepsLeft (rowDir colDir r cl : Z) : Z :=
  if isValidPosition (mkPos r cl) then
    if 0 <? rowDir then 8 - r
    else if rowDir <? 0 then r + 1
    else if 0 <? colDir then 8 - cl
    else cl + 1
  else 0.

(** ** JavaScript strings

    A string is its sequence of UTF-16 code units. *)

Module JSString.
Import Ascii String.

Definition t := list Z.

(** A literal made of ASCII characters. *)
Definition ofAscii (s : string) : t :=
  map (fun a => Z.of_N (N_of_ascii a)) (list_ascii_of_string s).

(** [String.fromCharCode(n)] for an integer [n]: the code unit [n] modulo
    2^16. *)
Definition fromCharCode (n : Z) : t := [n mod 65536].

Fixpoint digits (d : Decimal.uint) : t :=
  match d with
  | Decimal.Nil => []
  | Decimal.D0 d => 48 :: digits d
  | Decimal.D1 d => 49 :: digits d
  | Decimal.D2 d => 50 :: digits d
  | Decimal.D3 d => 51 :: digits d
  | Decimal.D4 d => 52 :: digits d
  | Decimal.D5 d => 53 :: digits d
  | Decimal.D6 d => 54 :: digits d
  | Decimal.D7 d => 55 :: digits d
  | Decimal.D8 d => 56 :: digits d
  | Decimal.D9 d => 57 :: digits d
  end.

(** An integer interpolated in a template literal: its decimal digits, with
    a minus sign when negative (what JavaScript prints for an integer below
    10^21 in absolute value). *)
Definition ofInteger (n : Z) : t :=
  match Z.to_int n with
  | Decimal.Pos d => digits d
  | Decimal.Neg d => 45 :: digits d
  end.

(** The name of a piece type, the string that [piece.type] is. *)
Definition ofPieceType (ty : Chess.PieceType) : t :=
  match ty with
  | Chess.pawn => ofAscii "pawn"
  | Chess.knight => ofAscii "knight"
  | Chess.bishop => ofAscii "bishop"
  | Chess.rook => ofAscii "rook"
  | Chess.queen => ofAscii "queen"
  | Chess.king => ofAscii "king"
  end.

Definition space : t := ofAscii " ".
Definition dash : t := ofAscii "-".
Definition checkmatePrefix : t := ofAscii "Checkmate! ".
Definition winsSuffix : t := ofAscii " wins!".
Definition Black : t := ofAscii "Black".
Definition White : t := ofAscii "White".
Definition stalemateMessage : t := ofAscii "Stalemate! Game is a draw.".

End JSString.

(** ** The board component ([ChessBoard]): its handlers as state transitions

    The component's state variables form a record; a handler is a function
    from the state it was rendered with to the state after the updates it
    queues.  A handler that throws gives [TypeError]: what the component
    shows after that is not modelled.  Effects, timers and rendering are
    outside the model. *)

Module ChessBoard.

Inductive Mode := bot | player.

Record GameState := mkState {
  board : Board;
  selectedSquare : option Position;
  validMoves : list Position;
  currentPlayer : PieceColor;
  moveHistory : list JSString.t;
  isThinking : bool
}.

(** The state of the first render. *)
Definition initialState : GameState :=
  mkState (copyBoard INITIAL_BOARD) None [] white [] false.

(** [`${String.fromCharCode(97 + p.col)}${8 - p.row}`] *)
Definition squareName (p : Position) : JSString.t :=
  JSString.fromCharCode (97 + col p) ++ JSString.ofInteger (8 - row p).

(** The entry that [addToHistory] appends:
    [`${pieceType} ${fromSquare}-${toSquare}`]. *)
Definition historyEntry (from_ to_ : Position) (pieceType : JSString.t) : JSString.t :=
  let fromSquare := squareName from_ in
  let toSquare := squareName to_ in
  pieceType ++ JSString.space ++ fromSquare ++ JSString.dash ++ toSquare.

(** [piece?.type || ''] *)
Definition typeOrEmpty (piece_ : Cell) : JSString.t :=
  match piece_ with
  | Occ pc => JSString.ofPieceType (type pc)
  | _ => []
  end.

(** [piece && piece.color === currentPlayer] *)
Definition isOwn (piece_ : Cell) (c : PieceColor) : bool :=
  match piece_ with
  | Occ pc => PieceColor_eqb (color pc) c
  | _ => false
  end.

(** [validMoves.some(move => move.row === row && move.col === col)] *)
Definition isHighlighted (st : GameState) (r c : Z) : bool :=
  existsb (fun move => (row move =? r) && (col move =? c)) (validMoves st).

(** The selection branch shared by the two places where a piece of the
    player to move is clicked. *)
Definition select (st : GameState) (r c : Z) : result GameState :=
  moves <- getValidMoves (board st) (mkPos r c) None ;;
  Ok (mkState (board st) (Some (mkPos r c)) moves (currentPlayer st)
        (moveHistory st) (isThinking st)).

Definition handleSquareClick (mode : Mode) (st : GameState) (r c : Z)
    : result GameState :=
  if isThinking st then Ok st
  else if match mode, currentPlayer st with bot, black => true | _, _ => false end
  then Ok st
  else
    piece_ <- cellAt (board st) r c ;;
    match selectedSquare st with
    | Some sel =>
        let isValidMove := isHighlighted st r c in
        if isValidMove then
          let newBoard := copyBoard (board st) in
          movingPiece <- cellAt newBoard (row sel) (col sel) ;;
          newBoard1 <- setCell newBoard r c movingPiece ;;
          newBoard2 <- setCell newBoard1 (row sel) (col sel) Null ;;
          Ok (mkState newBoard2 None [] (opposite (currentPlayer st))
                (moveHistory st
                 ++ [historyEntry sel (mkPos r c) (typeOrEmpty movingPiece)])
                (isThinking st))
        else if isOwn piece_ (currentPlayer st) then select st r c
        else Ok (mkState (board st) None [] (currentPlayer st)
                   (moveHistory st) (isThinking st))
    | None =>
        if isOwn piece_ (currentPlayer st) then select st r c else Ok st
    end.

(** The callback that [makeBotMove] schedules, on the state it was scheduled
    with (clicks are ignored until it has run). *)
Definition botMove (difficulty : Difficulty) (random : nat -> Q) (st : GameState)
    : result GameState :=
  move <- getBestMove (board st) black difficulty random ;;
  match move with
  | Chosen m =>
      let newBoard := copyBoard (board st) in
      piece_ <- cellAt newBoard (row (from m)) (col (from m)) ;;
      newBoard1 <- setCell newBoard (row (to m)) (col (to m)) piece_ ;;
      newBoard2 <- setCell newBoard1 (row (from m)) (col (from m)) Null ;;
      Ok (mkState newBoard2 (selectedSquare st) (validMoves st) white
            (moveHistory st ++ [historyEntry (from m) (to m) (typeOrEmpty piece_)])
            false)
  | _ =>
      Ok (mkState (board st) (selectedSquare st) (validMoves st) (currentPlayer st)
            (moveHistory st) false)
  end.

(** [checkGameEnd]: the message passed to [onGameEnd], if any. *)
Definition checkGameEnd (st : GameState) : result (option JSString.t) :=
  mate <- isCheckmate (board st) (currentPlayer st) ;;
  if mate then
    let winner := match currentPlayer st with
                  | white => JSString.Black
                  | black => JSString.White
                  end in
    Ok (Some (JSString.checkmatePrefix ++ winner ++ JSString.winsSuffix))
  else
    stale <- isStalemate (board st) (currentPlayer st) ;;
    if stale then Ok (Some JSString.stalemateMessage) else Ok None.

(** The selection agrees with the board: with no square selected no move is
    highlighted; with a square selected, it holds a piece of the player to
    move and the highlighted squares are its legal destinations. *)
Definition coherent (st : GameState) : Prop :=
  match selectedSquare st with
  | None => validMoves st = []
  | Some sel =>
      exists pc,
        cellAt (board st) (row sel) (col sel) = Ok (Occ pc) /\
        color pc = currentPlayer st /\
        getValidMoves (board st) sel None = Ok (validMoves st)
  end.

(** A state of the component: the initial position with the pawn on e2
    selected. *)
Definition e2Selected : GameState :=
  mkState INITIAL_BOARD (Some (mkPos 6 4)) [mkPos 5 4; mkPos 4 4] white [] false.

(** What [makeBotMove] does before it schedules the callback:
    [setIsThinking(true)]. *)
Definition botStart (st : GameState) : GameState :=
  mkState (board st) (selectedSquare st) (validMoves st) (currentPlayer st)
    (moveHistory st) true.

(** One transition of the component: a click on a square of the grid; the
    effect that starts the bot, under the condition the effect tests; the
    callback of the bot, once started. *)
Inductive step (mode : Mode) (difficulty : Difficulty) : GameState -> GameState -> Prop :=
| step_click (st st' : GameState) (r c : Z) :
    0 <= r < 8 -> 0 <= c < 8 ->
    handleSquareClick mode st r c = Ok st' ->
    step mode difficulty st st'
| step_botStart (st : GameState) :
    mode = bot -> currentPlayer st = black -> isThinking st = false ->
    step mode difficulty st (botStart st)
| step_botMove (st st' : GameState) (random : nat -> Q) :
    isThinking st = true ->
    botMove difficulty random st = Ok st' ->
    step mode difficulty st st'.

(** The states the component can be in after finitely many transitions. *)
Inductive reachable (mode : Mode) (difficulty : Difficulty) : GameState -> Prop :=
| reachable_initial : reachable mode difficulty initialState
| reachable_step (st st' : GameState) :
    reachable mode difficulty st -> step mode difficulty st st' ->
    reachable mode difficulty st'.

(** White moves when the history has an even number of entries. *)
Definition turnOf (history : list JSString.t) : PieceColor :=
  if Nat.even (length history) then white else black.

(** What holds of every state the component reaches. *)
Definition invariant (mode : Mode) (st : GameState) : Prop :=
  wf_board (board st) /\
  coherent st /\
  (isThinking st = true ->
   mode = bot /\ currentPlayer st = black /\ selectedSquare st = None) /\
  (mode = bot -> currentPlayer st = black -> selectedSquare st = None) /\
  currentPlayer st = turnOf (moveHistory st).

(** A state of the component in which the bot has been asked to move. *)
Definition botToMove : GameState :=
  mkState INITIAL_BOARD None [] black [] true.

(** [currentPlayer === 'white' ? 'Black' : 'White'], the winner named by
    [checkGameEnd]. *)
Definition winnerName (c : PieceColor) : JSString.t :=
  match c with
  | white => JSString.Black
  | black => JSString.White
  end.

End ChessBoard.

(** ** Predicates used in the further properties *)

(** The cell holds the king of colour [c]. *)
Definition isKingOf (c : PieceColor) (x : Cell) : bool :=
  match x with
  | Occ pc => PieceType_eqb (type pc) king && PieceColor_eqb (color pc) c
  | _ => false
  end.

(** The 8 x 8 board with no piece. *)
Definition emptyBoard : Board := repeat (repeat Null 8) 8.

(** The square [k] steps from [p] in direction [d]. *)
Definition along (p : Position) (d : Z * Z) (k : Z) : Position :=
  mkPos (row p + k * fst d) (col p + k * snd d).

(** What a square that a piece of colour [c] may land on holds: nothing, or
    a piece of the other colour. *)
Definition landable (board : Board) (c : PieceColor) (p : Position) : Prop :=
  exists x, cellAt board (row p) (col p) = Ok x /\ isFalsy x || isEnemy x c = true.

(** The square is read without error and holds no piece. *)
Definition vacant (board : Board) (p : Position) : Prop :=
  exists x, cellAt board (row p) (col p) = Ok x /\ isFalsy x = true.

(** The row step and the start row of a pawn, the constants [direction] and
    [startRow] of [getPawnMoves]. *)
Definition direction (c : PieceColor) : Z :=
  match c with white => -1 | black => 1 end.

Definition startRow (c : PieceColor) : Z :=
  match c with white => 6 | black => 1 end.

(** The square holds a piece of the colour other than [c]. *)
Definition enemyAt (board : Board) (c : PieceColor) (p : Position) : Prop :=
  exists x, cellAt board (row p) (col p) = Ok x /\ isEnemy x c = true.

(** The number is neither infinity. *)
Definition isFinite (v : Num) : Prop := exists z, v = Fin z.

(** The score the final loop of [getBestMove] computes for the move [m]. *)
Definition loopScore (score : Board -> result Num) (board : Board) (m : FromTo)
    : result Num :=
  nb <- makeMove board (from m) (to m) ;; score nb.

(** The score [getBestMove] gives the move [m] in its final loop: the
    search below the board that [m] leads to. *)
Definition rootScore (board : Board) (c : PieceColor) (depth : nat) (m : FromTo)
    : result Num :=
  nb <- makeMove board (from m) (to m) ;;
  minimax nb depth NegInf PosInf false c.

(** [board[move.to.row][move.to.col] !== null] *)
Definition isCapture (board : Board) (m : FromTo) : Prop :=
  exists x, cellAt board (row (to m)) (col (to m)) = Ok x /\ x <> Null.

(** [l.length === 0] *)
Definition isEmptyList {A} (l : list A) : bool :=
  match l with [] => true | _ :: _ => false end.

(** * Properties *)

(** ** The loop combinators *)

Section Combinators.
Context {A B : Type}.

Lemma flatMapM_In (f : A -> result (list B)) (l : list A) (r : list B) (y : B) :
  flatMapM f l = Ok r ->
  (In y r <-> exists x ys, In x l /\ f x = Ok ys /\ In y ys).
Proof.
  revert r. induction l as [|a l IH]; simpl; intros r H.
  - inversion H; subst. split; [intros [] | intros (x & ys & [] & _)].
  - destruct (f a) as [ys|] eqn:Ef; simpl in H; [|discriminate].
    destruct (flatMapM f l) as [zs|] eqn:El; simpl in H; [|discriminate].
    inversion H; subst. rewrite in_app_iff, (IH zs eq_refl). split.
    + intros [Hy | (x & ys' & Hx & Hf & Hy)].
      * exists a, ys. auto.
      * exists x, ys'. auto.
    + intros (x & ys' & [<- | Hx] & Hf & Hy).
      * left. congruence.
      * right. eauto.
Qed.

Lemma flatMapM_Forall (P : B -> Prop) (f : A -> result (list B)) (l : list A) (r : list B) :
  (forall x ys, In x l -> f x = Ok ys -> Forall P ys) ->
  flatMapM f l = Ok r -> Forall P r.
Proof.
  intros Hf H. apply Forall_forall. intros y Hy.
  apply (flatMapM_In _ _ _ y H) in Hy. destruct Hy as (x & ys & Hx & Hfx & Hy).
  specialize (Hf x ys Hx Hfx). rewrite Forall_forall in Hf. auto.
Qed.

Lemma flatMapM_total (f : A -> result (list B)) (l : list A) :
  (forall x, In x l -> exists ys, f x = Ok ys) ->
  exists r, flatMapM f l = Ok r.
Proof.
  induction l as [|a l IH]; simpl; intros Hf; [eauto|].
  destruct (Hf a (or_introl eq_refl)) as [ys ->].
  destruct IH as [zs ->]; [auto|]. simpl. eauto.
Qed.

Lemma filterM_In (f : A -> result bool) (l r : list A) (x : A) :
  filterM f l = Ok r -> (In x r <-> In x l /\ f x = Ok true).
Proof.
  revert r. induction l as [|a l IH]; simpl; intros r H.
  - inversion H; subst. simpl. tauto.
  - destruct (f a) as [k|] eqn:Ef; simpl in H; [|discriminate].
    destruct (filterM f l) as [rest|] eqn:El; simpl in H; [|discriminate].
    specialize (IH rest eq_refl). inversion H; subst. destruct k; simpl; split.
    + intros [<- | Hx]; [auto | tauto].
    + intros [[<- | Hx] Hfx]; [auto | tauto].
    + tauto.
    + intros [[<- | Hx] Hfx]; [congruence | tauto].
Qed.

Lemma filterM_total (f : A -> result bool) (l : list A) :
  (forall x, In x l -> exists k, f x = Ok k) ->
  exists r, filterM f l = Ok r.
Proof.
  induction l as [|a l IH]; simpl; intros Hf; [eauto|].
  destruct (Hf a (or_introl eq_refl)) as [k ->].
  destruct IH as [rest ->]; [auto|]. simpl. eauto.
Qed.

Lemma anyM_total (f : A -> result bool) (l : list A) :
  (forall x, In x l -> exists k, f x = Ok k) ->
  exists r, anyM f l = Ok r.
Proof.
  induction l as [|a l IH]; simpl; intros Hf; [eauto|].
  destruct (Hf a (or_introl eq_refl)) as [k ->]. simpl.
  destruct k; [eauto | auto].
Qed.

Lemma findM_total (f : A -> result bool) (l : list A) :
  (forall x, In x l -> exists k, f x = Ok k) ->
  exists r, findM f l = Ok r.
Proof.
  induction l as [|a l IH]; simpl; intros Hf; [eauto|].
  destruct (Hf a (or_introl eq_refl)) as [k ->]. simpl.
  destruct k; [eauto | auto].
Qed.

Lemma foldM_total {S : Type} (f : S -> A -> result S) (l : list A) (s : S) :
  (forall s' x, In x l -> exists s'', f s' x = Ok s'') ->
  exists r, foldM f l s = Ok r.
Proof.
  revert s. induction l as [|a l IH]; simpl; intros s Hf; [eauto|].
  destruct (Hf s a (or_introl eq_refl)) as [s' ->]. simpl. auto.
Qed.

End Combinators.

(** ** Arrays *)

Lemma index_Some {A} (l : list A) (i : Z) (x : A) :
  index l i = Some x -> 0 <= i < Z.of_nat (length l).
Proof.
  unfold index. destruct (Z.ltb_spec i 0) as [Hi|Hi]; [discriminate|].
  intros H. assert (Hn : nth_error l (Z.to_nat i) <> None) by congruence.
  apply nth_error_Some in Hn. lia.
Qed.

Lemma index_in_range {A} (l : list A) (i : Z) :
  0 <= i < Z.of_nat (length l) -> exists x, index l i = Some x.
Proof.
  intros H. unfold index. destruct (Z.ltb_spec i 0) as [Hi|Hi]; [lia|].
  destruct (nth_error l (Z.to_nat i)) eqn:E; [eauto|].
  apply nth_error_None in E. lia.
Qed.

Lemma update_length {A} (l : list A) (n : nat) (v : A) :
  length (update l n v) = length l.
Proof.
  revert n. induction l as [|a l IH]; intros [|n]; simpl; auto.
Qed.

Lemma nth_error_update_eq {A} (l : list A) (n : nat) (v : A) :
  (n < length l)%nat -> nth_error (update l n v) n = Some v.
Proof.
  revert n. induction l as [|a l IH]; intros [|n]; simpl; intros H; try lia; auto.
  apply IH. lia.
Qed.

Lemma nth_error_update_neq {A} (l : list A) (n m : nat) (v : A) :
  n <> m -> nth_error (update l n v) m = nth_error l m.
Proof.
  revert n m. induction l as [|a l IH]; intros [|n] [|m]; simpl; intros H; auto.
  congruence.
Qed.

(** ** Positions produced by move generation *)

Lemma isValidPosition_spec (p : Position) :
  isValidPosition p = true <-> inRange p.
Proof.
  unfold isValidPosition, inRange.
  rewrite !andb_true_iff, !Z.geb_le, !Z.ltb_lt. tauto.
Qed.

Lemma bind_Ok_inv {A B} (m : result A) (k : A -> result B) (b : B) :
  bind m k = Ok b -> exists a, m = Ok a /\ k a = Ok b.
Proof.
  destruct m as [a|]; simpl; [eauto | discriminate].
Qed.

Ltac bind_inv H :=
  let a := fresh "a" in
  let E := fresh "E" in
  apply bind_Ok_inv in H; destruct H as (a & E & H).

Lemma stepTo_inRange board from_ c offset ms :
  stepTo board from_ c offset = Ok ms -> Forall inRange ms.
Proof.
  unfold stepTo. destruct (isValidPosition _) eqn:V; intros H.
  - bind_inv H. inversion H; subst.
    destruct (_ || _); auto. constructor; auto. now apply isValidPosition_spec.
  - inversion H; auto.
Qed.

Lemma getKnightMoves_inRange board from_ c ms :
  getKnightMoves board from_ c = Ok ms -> Forall inRange ms.
Proof.
  apply flatMapM_Forall. intros x ys _. apply stepTo_inRange.
Qed.

Lemma getKingMoves_inRange board from_ c ms :
  getKingMoves board from_ c = Ok ms -> Forall inRange ms.
Proof.
  apply flatMapM_Forall. intros x ys _. apply stepTo_inRange.
Qed.

Lemma ray_inRange fuel board c rowDir colDir r cl ms :
  ray fuel board c rowDir colDir r cl = Ok ms -> Forall inRange ms.
Proof.
  revert r cl ms. induction fuel as [|fuel IH]; simpl; intros r cl ms H.
  - inversion H; auto.
  - destruct (isValidPosition _) eqn:V; [|inversion H; auto].
    apply isValidPosition_spec in V.
    bind_inv H. destruct (isFalsy a).
    + bind_inv H. inversion H; subst. constructor; eauto.
    + inversion H; subst. destruct (isEnemy a c); auto.
  Qed.

Lemma getDirectionalMoves_inRange board from_ c directions ms :
  getDirectionalMoves board from_ c directions = Ok ms -> Forall inRange ms.
Proof.
  apply flatMapM_Forall. intros x ys _. apply ray_inRange.
Qed.

(** The double advance is pushed only after the single advance was found in
    range (so the column is) and from the start row (so the row is 4 or 3). *)
Lemma getPawnMoves_inRange board from_ c lastMove ms :
  getPawnMoves board from_ c lastMove = Ok ms -> Forall inRange ms.
Proof.
  unfold getPawnMoves. intros H. bind_inv H. bind_inv H. inversion H; subst.
  apply Forall_app. split.
  - destruct (isValidPosition _) eqn:V; [|inversion E; auto].
    apply isValidPosition_spec in V.
    bind_inv E. destruct (isFalsy a1); [|inversion E; auto].
    destruct (Z.eqb_spec (row from_) (match c with white => 6 | black => 1 end)) as [Hs|Hs].
    + bind_inv E. inversion E; subst.
      assert (D : inRange (mkPos (row from_ + 2 * match c with white => -1 | black => 1 end)
                                 (col from_))).
      { unfold inRange in *; simpl in *. destruct c; lia. }
      destruct (isFalsy a2); auto.
    + inversion E; auto.
  - clear E. revert E0. apply flatMapM_Forall. intros x ys _ Hx.
    destruct (isValidPosition _) eqn:V; [|inversion Hx; auto].
    apply isValidPosition_spec in V. bind_inv Hx. inversion Hx; subst.
    apply Forall_app. split; [destruct (isEnemy _ _) | destruct (enPassantOk _ _ _)]; auto.
Qed.

Lemma pieceMoves_inRange board from_ p lastMove ms :
  pieceMoves board from_ p lastMove = Ok ms -> Forall inRange ms.
Proof.
  unfold pieceMoves, getBishopMoves, getRookMoves, getQueenMoves.
  destruct (type p);
    eauto using getPawnMoves_inRange, getKnightMoves_inRange,
                getKingMoves_inRange, getDirectionalMoves_inRange.
Qed.

Lemma getValidMoves_inRange board from_ lastMove ms :
  getValidMoves board from_ lastMove = Ok ms -> Forall inRange ms.
Proof.
  unfold getValidMoves. intros H. bind_inv H.
  destruct a as [| |pc]; try (inversion H; auto; fail).
  bind_inv H. apply pieceMoves_inRange in E0. rewrite Forall_forall in *.
  intros x Hx. apply E0. now apply (filterM_In _ _ _ x H) in Hx.
Qed.

(** ** No operation throws on a board of eight rows *)

Lemma cellAt_total board r c :
  eightRows board -> 0 <= r < 8 -> exists x, cellAt board r c = Ok x.
Proof.
  unfold eightRows, cellAt. intros L Hr.
  destruct (index_in_range board r) as [rw ->]; [lia | eauto].
Qed.

Lemma cellAt_inRange board p :
  eightRows board -> inRange p -> exists x, cellAt board (row p) (col p) = Ok x.
Proof.
  intros L [Hr _]. now apply cellAt_total.
Qed.

Lemma allSquares_inRange sq : In sq allSquares -> inRange sq.
Proof.
  revert sq. apply Forall_forall. unfold allSquares, range8, inRange. simpl.
  repeat constructor; simpl; lia.
Qed.

Lemma stepTo_total board from_ c offset :
  eightRows board -> exists ms, stepTo board from_ c offset = Ok ms.
Proof.
  intros L. unfold stepTo. destruct (isValidPosition _) eqn:V; [|eauto].
  apply isValidPosition_spec in V.
  destruct (cellAt_inRange board _ L V) as [x ->]. cbn [bind]. eauto.
Qed.

Lemma ray_total fuel board c rowDir colDir r cl :
  eightRows board -> exists ms, ray fuel board c rowDir colDir r cl = Ok ms.
Proof.
  intros L. revert r cl. induction fuel as [|fuel IH]; simpl; intros r cl; [eauto|].
  destruct (isValidPosition _) eqn:V; [|eauto].
  apply isValidPosition_spec in V.
  destruct (cellAt_total board r cl L (proj1 V)) as [x ->]. cbn [bind].
  destruct (isFalsy x); [|eauto].
  destruct (IH (r + rowDir) (cl + colDir)) as [rest ->]. cbn [bind]. eauto.
Qed.

Lemma getDirectionalMoves_total board from_ c directions :
  eightRows board -> exists ms, getDirectionalMoves board from_ c directions = Ok ms.
Proof.
  intros L. apply flatMapM_total. intros d _. now apply ray_total.
Qed.

Lemma getPawnMoves_total board from_ c lastMove :
  eightRows board -> exists ms, getPawnMoves board from_ c lastMove = Ok ms.
Proof.
  intros L. unfold getPawnMoves.
  match goal with
  | |- exists ms, bind ?m _ = _ => assert (F : exists fwd, m = Ok fwd)
  end.
  { destruct (isValidPosition _) eqn:V; [|eauto].
    apply isValidPosition_spec in V.
    destruct (cellAt_inRange board _ L V) as [x ->]. cbn [bind].
    destruct (isFalsy x); [|eauto].
    destruct (Z.eqb_spec (row from_) (match c with white => 6 | black => 1 end)) as [Hs|Hs];
      [|eauto].
    cbn [row col].
    match goal with
    | |- context [cellAt board ?r ?cl] =>
        destruct (cellAt_total board r cl L) as [y ->]; [destruct c; simpl; lia|]
    end.
    cbn [bind]. eauto. }
  destruct F as [fwd ->]. cbn [bind].
  match goal with
  | |- exists ms, bind ?m _ = _ => assert (F : exists caps, m = Ok caps)
  end.
  { apply flatMapM_total. intros x _.
    destruct (isValidPosition _) eqn:V; [|eauto].
    apply isValidPosition_spec in V.
    destruct (cellAt_inRange board _ L V) as [y ->]. cbn [bind]. eauto. }
  destruct F as [caps ->]. cbn [bind]. eauto.
Qed.

Lemma pieceMoves_total board from_ p lastMove :
  eightRows board -> exists ms, pieceMoves board from_ p lastMove = Ok ms.
Proof.
  intros L. unfold pieceMoves, getBishopMoves, getRookMoves, getQueenMoves,
    getKnightMoves, getKingMoves.
  destruct (type p);
    auto using getPawnMoves_total, getDirectionalMoves_total;
    apply flatMapM_total; intros; now apply stepTo_total.
Qed.

Lemma getValidMovesWithoutCheckTest_total board from_ :
  eightRows board -> 0 <= row from_ < 8 ->
  exists ms, getValidMovesWithoutCheckTest board from_ = Ok ms.
Proof.
  intros L Hr. unfold getValidMovesWithoutCheckTest.
  destruct (cellAt_total board (row from_) (col from_) L Hr) as [x ->]. cbn [bind].
  destruct x; eauto using pieceMoves_total.
Qed.

Lemma findKing_total board c :
  eightRows board -> exists kp, findKing board c = Ok kp.
Proof.
  intros L. apply findM_total. intros sq Hsq.
  destruct (cellAt_inRange board sq L (allSquares_inRange sq Hsq)) as [x ->].
  cbn [bind]. eauto.
Qed.

Lemma isInCheck_total board c :
  eightRows board -> exists k, isInCheck board c = Ok k.
Proof.
  intros L. unfold isInCheck.
  destruct (findKing_total board c L) as [[kingPos|] ->]; cbn [bind]; [|eauto].
  apply anyM_total. intros sq Hsq. apply allSquares_inRange in Hsq.
  destruct (cellAt_inRange board sq L Hsq) as [x ->]. cbn [bind].
  destruct x as [| |pc]; eauto.
  destruct (PieceColor_eqb _ _); [|eauto].
  destruct (getValidMovesWithoutCheckTest_total board sq L (proj1 Hsq)) as [ms ->].
  cbn [bind]. eauto.
Qed.

Lemma copyBoard_eightRows board : eightRows board -> eightRows (copyBoard board).
Proof.
  unfold eightRows, copyBoard. now rewrite length_map.
Qed.

Lemma setCell_total board r c v :
  eightRows board -> 0 <= r < 8 ->
  exists nb, setCell board r c v = Ok nb /\ eightRows nb.
Proof.
  unfold eightRows, setCell. intros L Hr.
  destruct (index_in_range board r) as [rw ->]; [lia|].
  eexists. split; [reflexivity|]. now rewrite update_length.
Qed.

Lemma makeMove_total board from_ to_ :
  eightRows board -> 0 <= row from_ < 8 -> 0 <= row to_ < 8 ->
  exists nb, makeMove board from_ to_ = Ok nb /\ eightRows nb.
Proof.
  intros L Hf Ht. unfold makeMove.
  pose proof (copyBoard_eightRows board L) as L'.
  destruct (cellAt_total _ (row from_) (col from_) L' Hf) as [x ->]. cbn [bind].
  destruct (setCell_total _ (row to_) (col to_) x L' Ht) as (b1 & -> & L1). cbn [bind].
  now apply setCell_total.
Qed.

(** [wouldBeInCheck] is [makeMove] followed by [isInCheck]: the two functions
    repeat the same three statements. *)
Lemma wouldBeInCheck_makeMove board from_ to_ c :
  wouldBeInCheck board from_ to_ c =
  (nb <- makeMove board from_ to_ ;; isInCheck nb c).
Proof.
  unfold wouldBeInCheck, makeMove.
  destruct (cellAt _ _ _); cbn [bind]; [|reflexivity].
  destruct (setCell _ _ _ _); cbn [bind]; reflexivity.
Qed.

Lemma wouldBeInCheck_total board from_ to_ c :
  eightRows board -> 0 <= row from_ < 8 -> 0 <= row to_ < 8 ->
  exists k, wouldBeInCheck board from_ to_ c = Ok k.
Proof.
  intros L Hf Ht. rewrite wouldBeInCheck_makeMove.
  destruct (makeMove_total board from_ to_ L Hf Ht) as (nb & -> & L'). cbn [bind].
  now apply isInCheck_total.
Qed.

Lemma getValidMoves_total board from_ lastMove :
  eightRows board -> 0 <= row from_ < 8 ->
  exists ms, getValidMoves board from_ lastMove = Ok ms.
Proof.
  intros L Hr. unfold getValidMoves.
  destruct (cellAt_total board (row from_) (col from_) L Hr) as [x ->]. cbn [bind].
  destruct x as [| |pc]; eauto.
  destruct (pieceMoves_total board from_ pc lastMove L) as [ms Hms]. rewrite Hms. cbn [bind].
  apply pieceMoves_inRange in Hms. rewrite Forall_forall in Hms.
  apply filterM_total. intros to_ Hto.
  destruct (wouldBeInCheck_total board from_ to_ (color pc) L Hr (proj1 (Hms _ Hto)))
    as [k ->].
  cbn [bind]. eauto.
Qed.

Lemma hasLegalMove_total board c :
  eightRows board -> exists k, hasLegalMove board c = Ok k.
Proof.
  intros L. apply anyM_total. intros sq Hsq. apply allSquares_inRange in Hsq.
  destruct (cellAt_inRange board sq L Hsq) as [x ->]. cbn [bind].
  destruct x as [| |pc]; eauto.
  destruct (PieceColor_eqb _ _); [|eauto].
  destruct (getValidMoves_total board sq None L (proj1 Hsq)) as [ms ->]. cbn [bind]. eauto.
Qed.

Lemma isCheckmate_total board c :
  eightRows board -> exists k, isCheckmate board c = Ok k.
Proof.
  intros L. unfold isCheckmate.
  destruct (isInCheck_total board c L) as [chk ->]. cbn [bind].
  destruct chk; cbn [bind negb]; [|eauto].
  destruct (hasLegalMove_total board c L) as [k ->]. cbn [bind]. eauto.
Qed.

Lemma evaluateBoard_total board c :
  eightRows board -> exists score, evaluateBoard board c = Ok score.
Proof.
  intros L. apply foldM_total. intros s sq Hsq.
  destruct (cellAt_inRange board sq L (allSquares_inRange sq Hsq)) as [x ->]. cbn [bind].
  destruct x; eauto.
Qed.

Lemma getAllPossibleMoves_total board c :
  eightRows board -> exists ms, getAllPossibleMoves board c = Ok ms.
Proof.
  intros L. apply flatMapM_total. intros sq Hsq. apply allSquares_inRange in Hsq.
  destruct (cellAt_inRange board sq L Hsq) as [x ->]. cbn [bind].
  destruct x as [| |pc]; eauto.
  destruct (PieceColor_eqb _ _); [|eauto].
  destruct (getValidMoves_total board sq None L (proj1 Hsq)) as [ms ->]. cbn [bind]. eauto.
Qed.

(** What it means for a move to be enumerated: its source is one of the 64
    squares, holds a piece of the colour, and its destination is a legal
    destination for that piece. *)
Lemma getAllPossibleMoves_In board c ms m :
  getAllPossibleMoves board c = Ok ms ->
  (In m ms <->
   exists pc tos,
     In (from m) allSquares /\
     cellAt board (row (from m)) (col (from m)) = Ok (Occ pc) /\ color pc = c /\
     getValidMoves board (from m) None = Ok tos /\ In (to m) tos).
Proof.
  intros H. rewrite (flatMapM_In _ _ _ m H). split.
  - intros (sq & ys & Hsq & Hf & Hm). bind_inv Hf.
    destruct a as [| |pc]; try (inversion Hf; subst; contradiction).
    destruct (PieceColor_eqb (color pc) c) eqn:Ec;
      [|inversion Hf; subst; contradiction].
    bind_inv Hf. inversion Hf; subst. apply in_map_iff in Hm.
    destruct Hm as (to_ & <- & Hto). cbn [bind]. exists pc, a. repeat split; auto.
    destruct (color pc), c; auto; discriminate.
  - intros (pc & tos & Hsq & Hc & Hcol & Hv & Hto).
    exists (from m), (map (fun to_ => mkFromTo (from m) to_) tos). split; [auto|]. split.
    + rewrite Hc. cbn [bind]. subst c.
      replace (PieceColor_eqb (color pc) (color pc)) with true
        by (destruct (color pc); reflexivity).
      rewrite Hv. reflexivity.
    + apply in_map_iff. exists (to m). split; [destruct m; reflexivity | auto].
Qed.

Lemma getAllPossibleMoves_inRange board c ms m :
  getAllPossibleMoves board c = Ok ms -> In m ms ->
  inRange (from m) /\ inRange (to m).
Proof.
  intros H Hm. apply (getAllPossibleMoves_In _ _ _ m H) in Hm.
  destruct Hm as (pc & tos & Hsq & _ & _ & Hv & Hto). split.
  - now apply allSquares_inRange.
  - apply getValidMoves_inRange in Hv. rewrite Forall_forall in Hv. auto.
Qed.

(** ** The ray loop ends within eight iterations *)

Lemma stepsLeft_le_8 rowDir colDir r cl : stepsLeft rowDir colDir r cl <= 8.
Proof.
  unfold stepsLeft. destruct (isValidPosition _) eqn:V; [|lia].
  apply isValidPosition_spec in V. destruct V as [Hr Hc]. cbn [row col] in *.
  destruct (0 <? rowDir), (rowDir <? 0), (0 <? colDir); lia.
Qed.

Lemma stepsLeft_nonneg rowDir colDir r cl : 0 <= stepsLeft rowDir colDir r cl.
Proof.
  unfold stepsLeft. destruct (isValidPosition _) eqn:V; [|lia].
  apply isValidPosition_spec in V. destruct V as [Hr Hc]. cbn [row col] in *.
  destruct (0 <? rowDir), (rowDir <? 0), (0 <? colDir); lia.
Qed.

Lemma stepsLeft_next rowDir colDir r cl :
  rowDir <> 0 \/ colDir <> 0 ->
  isValidPosition (mkPos r cl) = true ->
  stepsLeft rowDir colDir (r + rowDir) (cl + colDir) <= stepsLeft rowDir colDir r cl - 1.
Proof.
  intros Hd V. unfold stepsLeft at 2. rewrite V.
  apply isValidPosition_spec in V. destruct V as [Hr Hc]. cbn [row col] in *.
  unfold stepsLeft. destruct (isValidPosition _) eqn:V'.
  - apply isValidPosition_spec in V'. destruct V' as [Hr' Hc']. cbn [row col] in *.
    destruct (Z.ltb_spec 0 rowDir), (Z.ltb_spec rowDir 0), (Z.ltb_spec 0 colDir); lia.
  - destruct (Z.ltb_spec 0 rowDir), (Z.ltb_spec rowDir 0), (Z.ltb_spec 0 colDir); lia.
Qed.

Lemma ray_fuel_stable board c rowDir colDir :
  rowDir <> 0 \/ colDir <> 0 ->
  forall (n k : nat) (r cl : Z),
    stepsLeft rowDir colDir r cl <= Z.of_nat n ->
    ray (n + k) board c rowDir colDir r cl = ray n board c rowDir colDir r cl.
Proof.
  intros Hd. induction n as [|n IH]; intros k r cl Hs.
  - assert (V : isValidPosition (mkPos r cl) = false).
    { destruct (isValidPosition (mkPos r cl)) eqn:V; [|reflexivity].
      pose proof (stepsLeft_next rowDir colDir r cl Hd V) as Hn.
      pose proof (stepsLeft_nonneg rowDir colDir (r + rowDir) (cl + colDir)).
      lia. }
    destruct k; simpl; [reflexivity | now rewrite V].
  - simpl. destruct (isValidPosition (mkPos r cl)) eqn:V; [|reflexivity].
    destruct (cellAt board r cl) as [x|]; cbn [bind]; [|reflexivity].
    destruct (isFalsy x); [|reflexivity].
    rewrite IH; [reflexivity|].
    pose proof (stepsLeft_next rowDir colDir r cl Hd V). lia.
Qed.

(** More fuel than eight changes nothing: the model of the [while] loop in
    [getDirectionalMoves] never stops for lack of fuel. *)
Lemma ray_fuel_enough board c rowDir colDir r cl (k : nat) :
  rowDir <> 0 \/ colDir <> 0 ->
  ray (8 + k) board c rowDir colDir r cl = ray 8 board c rowDir colDir r cl.
Proof.
  intros Hd. apply ray_fuel_stable; [assumption|].
  pose proof (stepsLeft_le_8 rowDir colDir r cl). lia.
Qed.

(** ** Writing a cell *)

Lemma index_update_eq {A} (l : list A) (i : Z) (v : A) :
  0 <= i < Z.of_nat (length l) -> index (update l (Z.to_nat i) v) i = Some v.
Proof.
  intros H. unfold index. destruct (Z.ltb_spec i 0) as [Hi|Hi]; [lia|].
  apply nth_error_update_eq. lia.
Qed.

Lemma index_update_neq {A} (l : list A) (i j : Z) (v : A) :
  0 <= i -> i <> j -> index (update l (Z.to_nat i) v) j = index l j.
Proof.
  intros Hi Hij. unfold index. destruct (Z.ltb_spec j 0) as [Hj|Hj]; [reflexivity|].
  apply nth_error_update_neq. lia.
Qed.

Lemma map_length_update {A} (l : list (list A)) (n : nat) (x x' : list A) :
  nth_error l n = Some x -> length x' = length x ->
  map (@length A) (update l n x') = map (@length A) l.
Proof.
  revert n. induction l as [|a l IH]; intros [|n]; simpl; intros H L; try discriminate.
  - inversion H; subst. now rewrite L.
  - f_equal. eauto.
Qed.

Lemma copyBoard_id board : copyBoard board = board.
Proof.
  unfold copyBoard. rewrite <- (map_id board) at 2. apply map_ext. intros rw.
  rewrite <- (map_id rw) at 2. apply map_ext. intros [| |[t c]]; reflexivity.
Qed.

Lemma setCell_spec board p v :
  onBoard board p ->
  exists nb,
    setCell board (row p) (col p) v = Ok nb /\
    map (@length Cell) nb = map (@length Cell) board /\
    forall r c, cellAt nb r c = if isAt r c p then Ok v else cellAt board r c.
Proof.
  intros (rw & Hrw & Hc). unfold setCell, setRow. rewrite Hrw.
  destruct (Z.ltb_spec (col p) 0) as [H0|H0]; [lia|].
  destruct (Z.ltb_spec (col p) (Z.of_nat (length rw))) as [H1|H1]; [|lia].
  pose proof (index_Some _ _ _ Hrw) as Hr.
  eexists. split; [reflexivity|]. split.
  - apply map_length_update with (x := rw); [|apply update_length].
    unfold index in Hrw. destruct (row p <? 0); [discriminate | assumption].
  - intros r c. unfold cellAt, isAt.
    destruct (Z.eqb_spec r (row p)) as [->|Hne]; simpl.
    + rewrite index_update_eq, Hrw by assumption.
      destruct (Z.eqb_spec c (col p)) as [->|Hne].
      * now rewrite index_update_eq.
      * rewrite index_update_neq by lia. reflexivity.
    + rewrite index_update_neq by lia. reflexivity.
Qed.

Lemma onBoard_dims board board' p :
  map (@length Cell) board' = map (@length Cell) board ->
  onBoard board p -> onBoard board' p.
Proof.
  intros D (rw & Hrw & Hc). unfold onBoard, index in *.
  destruct (row p <? 0); [discriminate|].
  assert (Hl : nth_error (map (@length Cell) board') (Z.to_nat (row p)) = Some (length rw)).
  { rewrite D. now apply map_nth_error. }
  rewrite nth_error_map in Hl.
  destruct (nth_error board' (Z.to_nat (row p))) as [rw'|]; [|discriminate].
  inversion Hl as [Hl']. exists rw'. rewrite Hl'. auto.
Qed.

(** [makeMove] on squares of the board: the source ends empty, the
    destination holds what the source held, every other cell is kept. *)
Lemma makeMove_spec board from_ to_ :
  onBoard board from_ -> onBoard board to_ ->
  exists nb,
    makeMove board from_ to_ = Ok nb /\
    map (@length Cell) nb = map (@length Cell) board /\
    forall r c,
      cellAt nb r c =
      if isAt r c from_ then Ok Null
      else if isAt r c to_ then cellAt board (row from_) (col from_)
      else cellAt board r c.
Proof.
  intros Hf Ht. unfold makeMove. rewrite copyBoard_id.
  destruct Hf as (rwf & Hrwf & Hcf).
  assert (Hm : exists x, cellAt board (row from_) (col from_) = Ok x).
  { unfold cellAt. rewrite Hrwf. eauto. }
  destruct Hm as [moved Hm]. rewrite Hm. cbn [bind].
  destruct (setCell_spec board to_ moved Ht) as (b1 & -> & D1 & S1). cbn [bind].
  assert (Hf1 : onBoard b1 from_).
  { apply (onBoard_dims board); [assumption | exists rwf; auto]. }
  destruct (setCell_spec b1 from_ Null Hf1) as (b2 & -> & D2 & S2).
  exists b2. split; [reflexivity|]. split; [congruence|].
  intros r c. rewrite S2, S1. reflexivity.
Qed.

(** Boards with the same array lengths and the same cells are equal. *)
Lemma board_ext (b b' : Board) :
  map (@length Cell) b = map (@length Cell) b' ->
  (forall r c, cellAt b r c = cellAt b' r c) ->
  b = b'.
Proof.
  intros D H. apply nth_error_ext. intros n.
  assert (Dn : nth_error (map (@length Cell) b) n = nth_error (map (@length Cell) b') n)
    by now rewrite D.
  rewrite !nth_error_map in Dn.
  assert (Hn : forall c, cellAt b (Z.of_nat n) c = cellAt b' (Z.of_nat n) c) by auto.
  unfold cellAt, index in Hn.
  destruct (Z.ltb_spec (Z.of_nat n) 0) as [Hlt|_]; [lia|].
  rewrite Nat2Z.id in Hn.
  destruct (nth_error b n) as [rw|], (nth_error b' n) as [rw'|]; try discriminate;
    [|reflexivity].
  f_equal. apply nth_error_ext. intros m. specialize (Hn (Z.of_nat m)).
  destruct (Z.ltb_spec (Z.of_nat m) 0) as [Hlt|_]; [lia|].
  rewrite Nat2Z.id in Hn. simpl in Dn. inversion Dn as [Dl].
  destruct (nth_error rw m) as [x|] eqn:Ex, (nth_error rw' m) as [x'|] eqn:Ex'.
  - congruence.
  - apply nth_error_None in Ex'.
    assert (nth_error rw m <> None) by congruence.
    apply nth_error_Some in H0. lia.
  - apply nth_error_None in Ex.
    assert (nth_error rw' m <> None) by congruence.
    apply nth_error_Some in H0. lia.
  - reflexivity.
Qed.

(** ** Well-formed boards *)

Lemma wf_board_eightRows board : wf_board board -> eightRows board.
Proof.
  unfold wf_board, eightRows. intros H. apply andb_true_iff in H.
  now apply Nat.eqb_eq.
Qed.

Lemma wf_board_row board r rw :
  wf_board board -> index board r = Some rw ->
  length rw = 8%nat /\ forallb isDefined rw = true.
Proof.
  unfold wf_board, index. intros H Hr. apply andb_true_iff in H. destruct H as [_ H].
  destruct (r <? 0); [discriminate|]. apply nth_error_In in Hr.
  rewrite forallb_forall in H. specialize (H rw Hr). unfold wf_row in H.
  apply andb_true_iff in H. destruct H as [H1 H2]. now apply Nat.eqb_eq in H1.
Qed.

Lemma wf_board_onBoard board p : wf_board board -> inRange p -> onBoard board p.
Proof.
  intros W [Hr Hc]. pose proof (wf_board_eightRows _ W) as L. unfold eightRows in L.
  destruct (index_in_range board (row p)) as [rw Hrw]; [lia|].
  exists rw. split; [assumption|].
  destruct (wf_board_row _ _ _ W Hrw) as [-> _]. lia.
Qed.

Lemma wf_board_defined board r c x :
  wf_board board -> inRange (mkPos r c) -> cellAt board r c = Ok x -> isDefined x = true.
Proof.
  intros W R H. destruct (wf_board_onBoard _ _ W R) as (rw & Hrw & Hc).
  cbn [row col] in *. unfold cellAt in H. rewrite Hrw in H.
  destruct (wf_board_row _ _ _ W Hrw) as [_ Hd].
  destruct (index_in_range rw c Hc) as [y Hy]. rewrite Hy in H. inversion H; subst.
  rewrite forallb_forall in Hd. apply Hd. unfold index in Hy.
  destruct (c <? 0); [discriminate|]. now apply nth_error_In in Hy.
Qed.

Lemma cellAt_onBoard board p pc :
  cellAt board (row p) (col p) = Ok (Occ pc) -> onBoard board p.
Proof.
  unfold cellAt, onBoard. destruct (index board (row p)) as [rw|]; [|discriminate].
  intros H. exists rw. split; [reflexivity|].
  destruct (index rw (col p)) as [x|] eqn:E; [|discriminate].
  now apply index_Some in E.
Qed.

(** ** Rules engine *)

(** C1. On every board, for the piece [pc] standing on [from_], every
    destination [to_] that [getValidMoves] returns is such that relocating
    the piece with [makeMove] succeeds and gives a board on which [isInCheck]
    is false for the mover's colour. *)
Theorem legal_move_leaves_mover_out_of_check :
  forall board from_ lastMove pc ms to_,
    cellAt board (row from_) (col from_) = Ok (Occ pc) ->
    getValidMoves board from_ lastMove = Ok ms ->
    In to_ ms ->
    exists nb, makeMove board from_ to_ = Ok nb /\ isInCheck nb (color pc) = Ok false.
Proof.
  intros board from_ lastMove pc ms to_ Hc Hv Hin.
  unfold getValidMoves in Hv. rewrite Hc in Hv. cbn [bind] in Hv. bind_inv Hv.
  apply (filterM_In _ _ _ to_ Hv) in Hin. destruct Hin as [_ Hk].
  bind_inv Hk. rewrite wouldBeInCheck_makeMove in E0. bind_inv E0.
  exists a1. split; [assumption|].
  inversion Hk as [Hn]. destruct a0; [discriminate | assumption].
Qed.

Lemma legal_move_leaves_mover_out_of_check_witness :
  exists nb,
    makeMove INITIAL_BOARD (mkPos 6 4) (mkPos 4 4) = Ok nb /\
    isInCheck nb white = Ok false.
Proof.
  apply (legal_move_leaves_mover_out_of_check INITIAL_BOARD (mkPos 6 4) None
           (mkPiece pawn white) [mkPos 5 4; mkPos 4 4] (mkPos 4 4)).
  - reflexivity.
  - vm_compute. reflexivity.
  - simpl. auto.
Defined.

(** C4, as the code has it.  On an 8 x 8 board and for a position whose row
    is in [0,8), [getValidMoves] never throws, and it returns the empty
    sequence when the column is outside [0,8) or the square holds no piece. *)
Theorem getValidMoves_total_on_existing_rows :
  forall board from_ lastMove,
    wf_board board ->
    0 <= row from_ < 8 ->
    (exists ms, getValidMoves board from_ lastMove = Ok ms) /\
    (col from_ < 0 \/ 8 <= col from_ -> getValidMoves board from_ lastMove = Ok []) /\
    (forall x, cellAt board (row from_) (col from_) = Ok x -> isFalsy x = true ->
               getValidMoves board from_ lastMove = Ok []).
Proof.
  intros board from_ lastMove W Hr. pose proof (wf_board_eightRows _ W) as L.
  split; [now apply getValidMoves_total|]. split.
  - intros Hc. unfold getValidMoves, cellAt.
    destruct (index_in_range board (row from_)) as [rw Hrw]; [unfold eightRows in L; lia|].
    rewrite Hrw. destruct (wf_board_row _ _ _ W Hrw) as [Hl _].
    destruct (index rw (col from_)) as [x|] eqn:E; [|reflexivity].
    apply index_Some in E. lia.
  - intros x Hx Hf. unfold getValidMoves. rewrite Hx. cbn [bind].
    destruct x; [reflexivity | reflexivity | discriminate].
Qed.

Lemma getValidMoves_total_on_existing_rows_witness :
  (exists ms, getValidMoves INITIAL_BOARD (mkPos 4 9) None = Ok ms) /\
  getValidMoves INITIAL_BOARD (mkPos 4 9) None = Ok [] /\
  getValidMoves INITIAL_BOARD (mkPos 4 4) None = Ok [].
Proof.
  destruct (getValidMoves_total_on_existing_rows INITIAL_BOARD (mkPos 4 9) None)
    as (H1 & H2 & _); [reflexivity | simpl; lia |].
  destruct (getValidMoves_total_on_existing_rows INITIAL_BOARD (mkPos 4 4) None)
    as (_ & _ & H3); [reflexivity | simpl; lia |].
  split; [exact H1|]. split.
  - apply H2. simpl. lia.
  - apply (H3 Null); reflexivity.
Defined.

(** C4 as stated fails: on the initial board, a query whose row is 8 throws
    (the row [board[8]] does not exist) instead of returning the empty
    sequence. *)
Lemma getValidMoves_missing_row_throws :
  wf_board INITIAL_BOARD /\
  ~ inRange (mkPos 8 0) /\
  getValidMoves INITIAL_BOARD (mkPos 8 0) None = TypeError /\
  getValidMoves INITIAL_BOARD (mkPos 8 0) None <> Ok [].
Proof.
  split; [reflexivity|]. split; [unfold inRange; simpl; lia|].
  split; [reflexivity | discriminate].
Qed.

(** The same on every 8 x 8 board and for every row outside [0,8). *)
Lemma getValidMoves_outside_rows_throws board from_ lastMove :
  wf_board board -> row from_ < 0 \/ 8 <= row from_ ->
  getValidMoves board from_ lastMove = TypeError.
Proof.
  intros W Hr. apply wf_board_eightRows in W. unfold eightRows in W.
  unfold getValidMoves, cellAt.
  destruct (index board (row from_)) as [rw|] eqn:E; [|reflexivity].
  apply index_Some in E. lia.
Qed.

(** C8. Every position produced by move generation -- by [getValidMoves] and
    by each per-piece generator, the pawn's double advance included -- has
    row and column in [0,8). *)
Theorem generated_positions_in_range :
  forall board from_ c lastMove directions ms,
    (getValidMoves board from_ lastMove = Ok ms -> Forall inRange ms) /\
    (getPawnMoves board from_ c lastMove = Ok ms -> Forall inRange ms) /\
    (getKnightMoves board from_ c = Ok ms -> Forall inRange ms) /\
    (getBishopMoves board from_ c = Ok ms -> Forall inRange ms) /\
    (getRookMoves board from_ c = Ok ms -> Forall inRange ms) /\
    (getQueenMoves board from_ c = Ok ms -> Forall inRange ms) /\
    (getKingMoves board from_ c = Ok ms -> Forall inRange ms) /\
    (getDirectionalMoves board from_ c directions = Ok ms -> Forall inRange ms).
Proof.
  intros. unfold getBishopMoves, getRookMoves, getQueenMoves.
  repeat split;
    eauto using getValidMoves_inRange, getPawnMoves_inRange, getKnightMoves_inRange,
                getKingMoves_inRange, getDirectionalMoves_inRange.
Qed.

Lemma generated_positions_in_range_witness :
  Forall inRange [mkPos 5 0; mkPos 4 0] /\
  Forall inRange [mkPos 2 0; mkPos 3 0] /\
  Forall inRange [mkPos 5 7] /\
  Forall inRange [mkPos 6 6; mkPos 5 7] /\
  Forall inRange ([] : list Position) /\
  Forall inRange [mkPos 3 6; mkPos 2 5; mkPos 1 4; mkPos 0 3; mkPos 3 7; mkPos 2 7;
                  mkPos 4 6; mkPos 5 6; mkPos 6 5; mkPos 7 4; mkPos 5 7; mkPos 6 7] /\
  Forall inRange [mkPos 6 5] /\
  Forall inRange [mkPos 4 6].
Proof.
  pose proof generated_positions_in_range as G.
  split; [|split; [|split; [|split; [|split; [|split; [|split]]]]]].
  - apply (proj1 (G INITIAL_BOARD (mkPos 6 0) white None [] _)).
    vm_compute. reflexivity.
  - apply (proj1 (proj2 (G foolsMate (mkPos 1 0) black None [] _))).
    vm_compute. reflexivity.
  - apply (proj1 (proj2 (proj2 (G foolsMate (mkPos 7 6) white None [] _)))).
    vm_compute. reflexivity.
  - apply (proj1 (proj2 (proj2 (proj2 (G foolsMate (mkPos 7 5) white None [] _))))).
    vm_compute. reflexivity.
  - apply (proj1 (proj2 (proj2 (proj2 (proj2
             (G foolsMate (mkPos 7 7) white None [] _)))))).
    vm_compute. reflexivity.
  - apply (proj1 (proj2 (proj2 (proj2 (proj2 (proj2
             (G foolsMate (mkPos 4 7) black None [] _))))))).
    vm_compute. reflexivity.
  - apply (proj1 (proj2 (proj2 (proj2 (proj2 (proj2 (proj2
             (G foolsMate (mkPos 7 4) white None [] _)))))))).
    vm_compute. reflexivity.
  - apply (proj2 (proj2 (proj2 (proj2 (proj2 (proj2 (proj2
             (G foolsMate (mkPos 4 7) black None [(0, -1)] _)))))))).
    vm_compute. reflexivity.
Defined.

(** C9. On an 8 x 8 board, for distinct in-range squares [from_] and [to_]
    with a piece on [from_], the move followed by the return move gives a
    board equal to the first at every square except [to_], which is empty;
    if [to_] was empty the first board is restored exactly. *)
Theorem move_then_return_move :
  forall board from_ to_ pc,
    wf_board board -> inRange from_ -> inRange to_ -> from_ <> to_ ->
    cellAt board (row from_) (col from_) = Ok (Occ pc) ->
    exists b1 b2,
      makeMove board from_ to_ = Ok b1 /\
      makeMove b1 to_ from_ = Ok b2 /\
      (forall r c, isAt r c to_ = false -> cellAt b2 r c = cellAt board r c) /\
      cellAt b2 (row to_) (col to_) = Ok Null /\
      (forall x, cellAt board (row to_) (col to_) = Ok x -> isFalsy x = true ->
                 b2 = board).
Proof.
  intros board from_ to_ pc W Rf Rt Hne Hpc.
  pose proof (wf_board_onBoard _ _ W Rf) as Of.
  pose proof (wf_board_onBoard _ _ W Rt) as Ot.
  destruct (makeMove_spec board from_ to_ Of Ot) as (b1 & M1 & D1 & S1).
  destruct (makeMove_spec b1 to_ from_ (onBoard_dims _ _ _ D1 Ot) (onBoard_dims _ _ _ D1 Of))
    as (b2 & M2 & D2 & S2).
  assert (Hft : isAt (row to_) (col to_) from_ = false).
  { unfold isAt. destruct (Z.eqb_spec (row to_) (row from_)) as [Hr|Hr]; [|reflexivity].
    destruct (Z.eqb_spec (col to_) (col from_)) as [Hc|Hc]; [|reflexivity].
    exfalso. apply Hne. destruct from_, to_; simpl in *; congruence. }
  assert (Htt : isAt (row to_) (col to_) to_ = true).
  { unfold isAt. now rewrite !Z.eqb_refl. }
  assert (Hcells : forall r c, cellAt b2 r c =
                               if isAt r c to_ then Ok Null else cellAt board r c).
  { intros r c. rewrite S2. destruct (isAt r c to_) eqn:At; [reflexivity|].
    rewrite !S1, Hft, Htt. destruct (isAt r c from_) eqn:Af; [|now rewrite At].
    unfold isAt in Af. apply andb_true_iff in Af. destruct Af as [Hr Hc].
    apply Z.eqb_eq in Hr, Hc. now subst. }
  exists b1, b2. split; [assumption|]. split; [assumption|]. split; [|split].
  - intros r c At. now rewrite Hcells, At.
  - now rewrite Hcells, Htt.
  - intros x Hx Hf. apply board_ext; [congruence|]. intros r c. rewrite Hcells.
    destruct (isAt r c to_) eqn:At; [|reflexivity].
    unfold isAt in At. apply andb_true_iff in At. destruct At as [Hr Hc].
    apply Z.eqb_eq in Hr, Hc. subst r c. rewrite Hx.
    pose proof (wf_board_defined board (row to_) (col to_) x W Rt Hx) as Hd.
    destruct x; [discriminate | reflexivity | discriminate].
Qed.

Lemma move_then_return_move_witness :
  exists b1 b2,
    makeMove INITIAL_BOARD (mkPos 6 4) (mkPos 4 4) = Ok b1 /\
    makeMove b1 (mkPos 4 4) (mkPos 6 4) = Ok b2 /\
    (forall r c, isAt r c (mkPos 4 4) = false -> cellAt b2 r c = cellAt INITIAL_BOARD r c) /\
    cellAt b2 4 4 = Ok Null /\
    (forall x, cellAt INITIAL_BOARD 4 4 = Ok x -> isFalsy x = true -> b2 = INITIAL_BOARD).
Proof.
  apply (move_then_return_move INITIAL_BOARD (mkPos 6 4) (mkPos 4 4) (mkPiece pawn white)).
  - reflexivity.
  - unfold inRange. simpl. lia.
  - unfold inRange. simpl. lia.
  - discriminate.
  - reflexivity.
Defined.

(** C10. For a square [p] that holds a piece, [makeMove] from [p] to [p]
    succeeds and deletes the piece: [p] is empty on the new board, every
    other square is kept, and the new board is not the old one. *)
Theorem move_onto_itself_deletes_piece :
  forall board p pc,
    cellAt board (row p) (col p) = Ok (Occ pc) ->
    exists nb,
      makeMove board p p = Ok nb /\
      cellAt nb (row p) (col p) = Ok Null /\
      (forall r c, isAt r c p = false -> cellAt nb r c = cellAt board r c) /\
      nb <> board.
Proof.
  intros board p pc Hpc. pose proof (cellAt_onBoard _ _ _ Hpc) as Op.
  destruct (makeMove_spec board p p Op Op) as (nb & M & D & S).
  assert (Hpp : isAt (row p) (col p) p = true).
  { unfold isAt. now rewrite !Z.eqb_refl. }
  exists nb. split; [assumption|]. split; [now rewrite S, Hpp|]. split.
  - intros r c Hat. now rewrite S, Hat.
  - intros ->. specialize (S (row p) (col p)). rewrite Hpp, Hpc in S. discriminate.
Qed.

Lemma move_onto_itself_deletes_piece_witness :
  exists nb,
    makeMove INITIAL_BOARD (mkPos 6 4) (mkPos 6 4) = Ok nb /\
    cellAt nb 6 4 = Ok Null /\
    (forall r c, isAt r c (mkPos 6 4) = false -> cellAt nb r c = cellAt INITIAL_BOARD r c) /\
    nb <> INITIAL_BOARD.
Proof.
  apply (move_onto_itself_deletes_piece INITIAL_BOARD (mkPos 6 4) (mkPiece pawn white)).
  reflexivity.
Defined.

(** ** Static evaluation *)

Ltac qarith :=
  unfold Qeq, Qle, Qdiv, Qminus, Qplus, Qmult, Qopp, Qinv, inject_Z;
  cbn [Qnum Qden]; lia.

Lemma Qabs_half n : Qabs (3.5 - inject_Z n) == inject_Z (Z.abs (7 - 2 * n)) / 2.
Proof.
  assert (E : 3.5 - inject_Z n == inject_Z (7 - 2 * n) / 2) by qarith.
  rewrite E. unfold Qdiv. rewrite Qabs_Qmult.
  rewrite (Qabs_pos (/ 2)) by qarith.
  unfold Qabs, inject_Z. reflexivity.
Qed.

Lemma centerBonus_exact r c : inject_Z (centerBonus r c) == centerBonusQ r c.
Proof.
  unfold centerBonus, centerBonusQ. rewrite !Qabs_half.
  set (k := 6 - Z.abs (7 - 2 * r) - Z.abs (7 - 2 * c)).
  assert (Hx : 3 - inject_Z (Z.abs (7 - 2 * r)) / 2 - inject_Z (Z.abs (7 - 2 * c)) / 2
               == inject_Z k / 2) by (unfold k; qarith).
  rewrite Hx.
  destruct (Z.max_spec 0 k) as [[Hlt ->]|[Hle ->]].
  - rewrite Q.max_r by qarith. qarith.
  - rewrite Q.max_l by qarith. qarith.
Qed.

(** The integer bonus is the bonus of the source, computed over the
    rationals. *)
Lemma getPositionBonus_exact p r c :
  inject_Z (getPositionBonus p r c) == getPositionBonusQ p r c.
Proof.
  unfold getPositionBonus, getPositionBonusQ.
  destruct (type p); try apply centerBonus_exact; try reflexivity.
  destruct (color p); qarith.
Qed.

(** The parts of the positional bonus that are as the specification says. *)
Lemma getPositionBonus_white_pawn r c :
  getPositionBonus (mkPiece pawn white) r c = 10 * (6 - r).
Proof. unfold getPositionBonus. cbn [type color]. lia. Qed.

Lemma getPositionBonus_minor p r c :
  type p = knight \/ type p = bishop ->
  getPositionBonusQ p r c
  = (Qmax 0 (3 - Qabs (3.5 - inject_Z r) - Qabs (3.5 - inject_Z c)) * 10)%Q.
Proof. unfold getPositionBonusQ. intros [-> | ->]; reflexivity. Qed.

Lemma getPositionBonus_major p r c :
  type p = rook \/ type p = queen \/ type p = king ->
  getPositionBonus p r c = 0.
Proof. unfold getPositionBonus. intros [-> | [-> | ->]]; reflexivity. Qed.

(** C3, where the code departs from it.  A black pawn starts on row 1 and
    advances toward row 7, so it has advanced [r - 1] rows when it stands on
    row [r]; the bonus the code gives it is [10 * r], ten more than
    [10 * (r - 1)].  A black pawn on its starting square gets 10 where a
    white pawn on its starting square gets 0, and the initial position,
    symmetric in material and placement, is scored 80 in favour of black. *)
Theorem black_pawn_bonus_off_by_one_row :
  (forall r c, getPositionBonus (mkPiece pawn black) r c = 10 * (r - 1) + 10) /\
  getPositionBonus (mkPiece pawn black) 1 0 = 10 /\
  getPositionBonus (mkPiece pawn white) 6 0 = 0 /\
  evaluateBoard INITIAL_BOARD white = Ok (-80) /\
  evaluateBoard INITIAL_BOARD black = Ok 80.
Proof.
  split; [intros r c; unfold getPositionBonus; cbn [type color]; lia|].
  repeat split; reflexivity.
Qed.

(** ** Search *)

(** C6. At every depth greater than 0 and for every window, [minimax]
    returns -999999 when the side to move is checkmated and [maximizing] is
    true, +999999 when it is checkmated and [maximizing] is false, and 0 when
    it is not checkmated and has no legal move. *)
Theorem minimax_terminal_values :
  forall (board : Board) (depth : nat) (alpha beta : Num) (maximizing : bool)
         (c : PieceColor),
    let currentColor := if maximizing then c else opposite c in
    (isCheckmate board currentColor = Ok true ->
     minimax board (S depth) alpha beta maximizing c
     = Ok (if maximizing then Fin (-999999) else Fin 999999)) /\
    (isCheckmate board currentColor = Ok false ->
     getAllPossibleMoves board currentColor = Ok [] ->
     minimax board (S depth) alpha beta maximizing c = Ok (Fin 0)).
Proof.
  intros board depth alpha beta maximizing c currentColor. subst currentColor.
  split.
  - intros Hm. cbn [minimax]. rewrite Hm. reflexivity.
  - intros Hm Hs. cbn [minimax]. rewrite Hm. cbn [bind]. rewrite Hs. reflexivity.
Qed.

Lemma minimax_terminal_values_witness :
  minimax foolsMate 2 NegInf PosInf true white = Ok (Fin (-999999)) /\
  minimax foolsMate 2 (Fin (-5)) (Fin 7) false black = Ok (Fin 999999) /\
  minimax cornered 1 NegInf PosInf true black = Ok (Fin 0).
Proof.
  split; [|split].
  - apply (proj1 (minimax_terminal_values foolsMate 1 NegInf PosInf true white)).
    vm_compute. reflexivity.
  - apply (proj1 (minimax_terminal_values foolsMate 1 (Fin (-5)) (Fin 7) false black)).
    vm_compute. reflexivity.
  - apply (proj2 (minimax_terminal_values cornered 0 NegInf PosInf true black)).
    + vm_compute. reflexivity.
    + vm_compute. reflexivity.
Defined.

(** C7. At medium and at hard difficulty the result of [getBestMove] is the
    same whatever [Math.random] would return: no random value is read. *)
Theorem getBestMove_deterministic_above_easy :
  forall board c (random random' : nat -> Q),
    getBestMove board c medium random = getBestMove board c medium random' /\
    getBestMove board c hard random = getBestMove board c hard random'.
Proof.
  intros. split; reflexivity.
Qed.

Section SearchTotal.

Variable board : Board.
Hypothesis rows : eightRows board.

Lemma maxLoop_total child moves maxEval alpha beta :
  (forall m, In m moves -> inRange (from m) /\ inRange (to m)) ->
  (forall nb a b, eightRows nb -> exists v, child nb a b = Ok v) ->
  exists v, maxLoop child board moves maxEval alpha beta = Ok v.
Proof.
  intros Hm Hc. revert maxEval alpha.
  induction moves as [|m rest IH]; intros maxEval alpha; cbn [maxLoop]; [eauto|].
  destruct (Hm m (or_introl eq_refl)) as [[Rf _] [Rt _]].
  destruct (makeMove_total board (from m) (to m) rows Rf Rt) as (nb & -> & L).
  cbn [bind]. destruct (Hc nb alpha beta L) as [v ->]. cbn [bind].
  destruct (nleb _ _); [eauto|]. apply IH. intros m' Hm'. apply Hm. now right.
Qed.

Lemma minLoop_total child moves minEval alpha beta :
  (forall m, In m moves -> inRange (from m) /\ inRange (to m)) ->
  (forall nb a b, eightRows nb -> exists v, child nb a b = Ok v) ->
  exists v, minLoop child board moves minEval alpha beta = Ok v.
Proof.
  intros Hm Hc. revert minEval beta.
  induction moves as [|m rest IH]; intros minEval beta; cbn [minLoop]; [eauto|].
  destruct (Hm m (or_introl eq_refl)) as [[Rf _] [Rt _]].
  destruct (makeMove_total board (from m) (to m) rows Rf Rt) as (nb & -> & L).
  cbn [bind]. destruct (Hc nb alpha beta L) as [v ->]. cbn [bind].
  destruct (nleb _ _); [eauto|]. apply IH. intros m' Hm'. apply Hm. now right.
Qed.

Lemma bestLoop_total score moves bestMove bestValue :
  (forall m, In m moves -> inRange (from m) /\ inRange (to m)) ->
  (forall nb, eightRows nb -> exists v, score nb = Ok v) ->
  exists best, bestLoop score board moves bestMove bestValue = Ok best.
Proof.
  intros Hm Hc. revert bestMove bestValue.
  induction moves as [|m rest IH]; intros bestMove bestValue; cbn [bestLoop]; [eauto|].
  destruct (Hm m (or_introl eq_refl)) as [[Rf _] [Rt _]].
  destruct (makeMove_total board (from m) (to m) rows Rf Rt) as (nb & -> & L).
  cbn [bind]. destruct (Hc nb L) as [v ->]. cbn [bind].
  destruct (nltb _ _); apply IH; intros m' Hm'; apply Hm; now right.
Qed.

End SearchTotal.

Lemma bestLoop_In score board moves bestMove bestValue best :
  bestLoop score board moves bestMove bestValue = Ok best ->
  best = bestMove \/ In best moves.
Proof.
  revert bestMove bestValue.
  induction moves as [|m rest IH]; intros bestMove bestValue H; cbn [bestLoop] in H.
  - inversion H. auto.
  - bind_inv H. bind_inv H.
    destruct (nltb _ _); apply IH in H; simpl; intuition.
Qed.

Lemma minimax_total depth :
  forall board alpha beta maximizing c,
    eightRows board ->
    exists v, minimax board depth alpha beta maximizing c = Ok v.
Proof.
  induction depth as [|depth IH]; intros board alpha beta maximizing c L; cbn [minimax].
  - destruct (evaluateBoard_total board c L) as [s ->]. cbn [bind]. eauto.
  - set (cur := if maximizing then c else opposite c).
    destruct (isCheckmate_total board cur L) as [mate ->]. cbn [bind].
    destruct mate; [eauto|].
    destruct (getAllPossibleMoves_total board cur L) as [ms Hms]. rewrite Hms. cbn [bind].
    destruct ms as [|m ms]; [eauto|].
    pose proof (fun m' => getAllPossibleMoves_inRange board cur _ m' Hms) as Hr.
    destruct maximizing.
    + apply maxLoop_total; auto.
    + apply minLoop_total; auto.
Qed.

(** ** Rounding to a Number *)

Lemma pow2_pos e : (0 < pow2 e)%Q.
Proof. apply Qpower_0_lt. reflexivity. Qed.

Lemma pow2_plus a b : (pow2 (a + b) == pow2 a * pow2 b)%Q.
Proof. apply Qpower_plus. discriminate. Qed.

Lemma pow2_le a b : a <= b -> (pow2 a <= pow2 b)%Q.
Proof. intros H. apply Qpower_le_compat_l; [assumption | discriminate]. Qed.

Lemma pow2_Z n : 0 <= n -> (pow2 n == inject_Z (2 ^ n))%Q.
Proof. intros H. unfold pow2. now rewrite Zpower_Qpower. Qed.

Lemma Q_as_div x : (x == inject_Z (Qnum x) / inject_Z (Zpos (Qden x)))%Q.
Proof. destruct x as [p q]. apply Qmake_Qdiv. Qed.

Lemma ilog2_bounds x :
  (0 < x)%Q -> (pow2 (ilog2 x) <= x)%Q /\ (x < pow2 (ilog2 x + 1))%Q.
Proof.
  intros Hx.
  assert (Hp : 0 < Qnum x) by (destruct x; unfold Qlt in Hx; simpl in *; lia).
  set (a := Z.log2 (Qnum x)). set (b := Z.log2 (Zpos (Qden x))).
  destruct (Z.log2_spec (Qnum x) Hp) as [Ha1 Ha2]. fold a in Ha1, Ha2.
  destruct (Z.log2_spec (Zpos (Qden x)) eq_refl) as [Hb1 Hb2]. fold b in Hb1, Hb2.
  assert (A0 : 0 <= a) by apply Z.log2_nonneg.
  assert (B0 : 0 <= b) by apply Z.log2_nonneg.
  assert (Hq : (0 < inject_Z (Zpos (Qden x)))%Q) by reflexivity.
  assert (QA1 : (pow2 a <= inject_Z (Qnum x))%Q)
    by (rewrite pow2_Z by assumption; now rewrite <- Zle_Qle).
  assert (QA2 : (inject_Z (Qnum x) < pow2 (a + 1))%Q).
  { rewrite pow2_Z by lia. rewrite <- Zlt_Qlt. now rewrite <- Z.add_1_r in Ha2. }
  assert (QB1 : (pow2 b <= inject_Z (Zpos (Qden x)))%Q)
    by (rewrite pow2_Z by assumption; now rewrite <- Zle_Qle).
  assert (QB2 : (inject_Z (Zpos (Qden x)) < pow2 (b + 1))%Q).
  { rewrite pow2_Z by lia. rewrite <- Zlt_Qlt. now rewrite <- Z.add_1_r in Hb2. }
  assert (Hlo : (pow2 (a - b - 1) <= x)%Q).
  { apply Qle_trans with (inject_Z (Qnum x) / inject_Z (Zpos (Qden x)))%Q;
      [|rewrite <- Q_as_div; apply Qle_refl].
    apply Qle_shift_div_l; [assumption|].
    apply Qle_trans with (pow2 (a - b - 1) * pow2 (b + 1))%Q.
    - apply Qmult_le_l; [apply pow2_pos | now apply Qlt_le_weak].
    - rewrite <- pow2_plus. now replace (a - b - 1 + (b + 1)) with a by lia. }
  assert (Hhi : (x < pow2 (a - b + 1))%Q).
  { apply Qle_lt_trans with (inject_Z (Qnum x) / inject_Z (Zpos (Qden x)))%Q;
      [rewrite <- Q_as_div; apply Qle_refl|].
    apply Qlt_shift_div_r; [assumption|].
    apply Qlt_le_trans with (pow2 (a + 1)); [assumption|].
    replace (a + 1) with (a - b + 1 + b) by lia. rewrite pow2_plus.
    apply Qmult_le_l; [apply pow2_pos | assumption]. }
  unfold ilog2. fold a b.
  destruct (Qle_bool (pow2 (a - b)) x) eqn:E.
  - apply Qle_bool_iff in E. split; assumption.
  - split; [assumption|]. replace (a - b - 1 + 1) with (a - b) by lia.
    apply Qnot_le_lt. intros H. apply Qle_bool_iff in H. congruence.
Qed.

Lemma nearestEven_bounds y :
  (y - (1 # 2) <= inject_Z (nearestEven y) <= y + (1 # 2))%Q.
Proof.
  unfold nearestEven.
  pose proof (Qfloor_le y) as Hlo. pose proof (Qlt_floor y) as Hhi.
  rewrite inject_Z_plus in Hhi. change (inject_Z 1) with 1%Q in Hhi.
  destruct (Qcompare_spec (y - inject_Z (Qfloor y)) (1 # 2)) as [E|E|E].
  - destruct (Z.even (Qfloor y));
      [|rewrite inject_Z_plus; change (inject_Z 1) with 1%Q]; split; lra.
  - split; lra.
  - rewrite inject_Z_plus. change (inject_Z 1) with 1%Q. split; lra.
Qed.

Lemma nearestEven_nonneg y : (0 <= y)%Q -> 0 <= nearestEven y.
Proof.
  intros H. assert (F : 0 <= Qfloor y).
  { rewrite <- (Qfloor_Z 0). now apply Qfloor_resp_le. }
  unfold nearestEven.
  destruct (Qcompare _ _); [destruct (Z.even _)| |]; lia.
Qed.

Lemma roundPos_nonneg x : (0 < x)%Q -> (0 <= roundPos x)%Q.
Proof.
  intros H. unfold roundPos.
  apply Qmult_le_0_compat; [|apply Qlt_le_weak, pow2_pos].
  rewrite <- (Zle_Qle 0). apply nearestEven_nonneg.
  apply Qle_shift_div_l; [apply pow2_pos|]. lra.
Qed.

(** rounding moves a value by at most half a unit in the last place *)
Lemma roundPos_error x :
  (0 < x)%Q ->
  exists e, (pow2 e <= Qmax x (pow2 (-1022)))%Q /\
            (x - pow2 (e - 53) <= roundPos x <= x + pow2 (e - 53))%Q.
Proof.
  intros Hx. exists (Z.max (ilog2 x) (-1022)). split.
  - destruct (Z.max_spec (ilog2 x) (-1022)) as [[_ ->]|[_ ->]].
    + apply Q.le_max_r.
    + eapply Qle_trans; [apply (ilog2_bounds x Hx)|apply Q.le_max_l].
  - unfold roundPos. set (e := Z.max _ _).
    pose proof (pow2_pos (e - 52)) as Hu.
    pose proof (nearestEven_bounds (x / pow2 (e - 52))) as [Hlo Hhi].
    assert (Hhalf : (pow2 (e - 53) == (1 # 2) * pow2 (e - 52))%Q).
    { replace (e - 53) with (-1 + (e - 52)) by lia. now rewrite pow2_plus. }
    assert (Hxu : (x / pow2 (e - 52) * pow2 (e - 52) == x)%Q).
    { field. intros H. rewrite H in Hu. discriminate. }
    apply (Qmult_le_compat_r _ _ (pow2 (e - 52))) in Hlo; [|lra].
    apply (Qmult_le_compat_r _ _ (pow2 (e - 52))) in Hhi; [|lra].
    rewrite Hhalf. split; nra.
Qed.

Lemma fl64_nonneg x : (0 <= x)%Q -> (0 <= fl64 x)%Q.
Proof.
  intros H. unfold fl64. destruct (Qcompare_spec x 0) as [E|E|E].
  - apply Qle_refl.
  - lra.
  - now apply roundPos_nonneg.
Qed.

Lemma fl64_below_length r n :
  (0 <= r <= maxRandom)%Q -> 1 <= n ->
  0 <= Qfloor (fl64 (r * inject_Z n)) < n.
Proof.
  intros [H0 H1] Hn.
  assert (Qn : (1 <= inject_Z n)%Q) by (now rewrite <- (Zle_Qle 1)).
  assert (Hx : (0 <= r * inject_Z n)%Q) by (apply Qmult_le_0_compat; lra).
  split.
  - rewrite <- (Qfloor_Z 0). apply Qfloor_resp_le. now apply fl64_nonneg.
  - rewrite Zlt_Qlt. eapply Qle_lt_trans; [apply Qfloor_le|].
    unfold fl64. destruct (Qcompare_spec (r * inject_Z n) 0) as [E|E|E]; [lra|lra|].
    destruct (roundPos_error _ E) as (e & He & _ & Hr).
    assert (H53 : (pow2 (e - 53) == pow2 e * (1 # 9007199254740992))%Q).
    { replace (e - 53) with (e + -53) by lia. now rewrite pow2_plus. }
    assert (Hmax : (maxRandom == 1 - (1 # 9007199254740992))%Q) by reflexivity.
    assert (Hmin : (pow2 (-1022) < 1)%Q) by reflexivity.
    assert (Hxn : (r * inject_Z n <=
                   inject_Z n - inject_Z n * (1 # 9007199254740992))%Q).
    { apply Qle_trans with (maxRandom * inject_Z n)%Q;
        [apply Qmult_le_compat_r; lra|].
      rewrite Hmax. ring_simplify. apply Qle_refl. }
    assert (He' : (pow2 e < inject_Z n)%Q).
    { eapply Qle_lt_trans; [apply He|]. apply Q.max_lub_lt; lra. }
    nra.
Qed.

Lemma Qltb_true a b : Qltb a b = true <-> (a < b)%Q.
Proof.
  unfold Qltb. rewrite negb_true_iff. split.
  - intros H. apply Qnot_le_lt. intros L. apply Qle_bool_iff in L. congruence.
  - intros H. destruct (Qle_bool b a) eqn:E; [|reflexivity].
    apply Qle_bool_iff in E. lra.
Qed.

Lemma pow2_lt_inv a b : (pow2 a < pow2 b)%Q -> a < b.
Proof. intros H. apply (Qpower_lt_compat_l_inv 2); [assumption | reflexivity]. Qed.

(** The largest Number below 1 is [1 - 2^-53]. *)
Lemma isRandomValue_bounds r :
  isRandomValue r = true -> (0 <= r <= maxRandom)%Q.
Proof.
  unfold isRandomValue, isDouble. rewrite !andb_true_iff.
  intros [[H0 H1] Hd]. apply Qle_bool_iff in H0. apply Qltb_true in H1.
  apply Qeq_bool_eq in Hd. split; [assumption|].
  assert (Hmax : (maxRandom == 1 - (1 # 9007199254740992))%Q) by reflexivity.
  unfold fl64 in Hd. destruct (Qcompare_spec r 0) as [E|E|E]; [lra|lra|].
  destruct (ilog2_bounds r E) as [Hlo Hhi].
  assert (Hneg : ilog2 r < 0).
  { apply pow2_lt_inv. eapply Qle_lt_trans; [apply Hlo|]. exact H1. }
  destruct (Z.eq_dec (ilog2 r) (-1)) as [E1|E1].
  - unfold roundPos in Hd. rewrite E1 in Hd.
    change (Z.max (-1) (-1022) - 52) with (-53) in Hd.
    set (k := nearestEven (r / pow2 (-53))) in Hd.
    assert (Hu : (pow2 (-53) == 1 # 9007199254740992)%Q) by reflexivity.
    rewrite Hu in Hd.
    assert (Hk : k < 9007199254740992).
    { rewrite Zlt_Qlt. rewrite <- Hd in H1.
      apply (Qmult_lt_r _ _ (1 # 9007199254740992)); [reflexivity|].
      eapply Qlt_le_trans; [apply H1|]. apply Qle_lteq. right. reflexivity. }
    assert (Hk' : (inject_Z k <= inject_Z 9007199254740991)%Q)
      by (rewrite <- Zle_Qle; lia).
    rewrite <- Hd, Hmax.
    apply (Qmult_le_compat_r _ _ (1 # 9007199254740992)) in Hk'; [|discriminate].
    eapply Qle_trans; [apply Hk'|]. apply Qle_lteq. right. reflexivity.
  - assert (Hh : (pow2 (ilog2 r + 1) <= pow2 (-1))%Q) by (apply pow2_le; lia).
    assert (Hhalf : (pow2 (-1) == 1 # 2)%Q) by reflexivity.
    lra.
Qed.

(** The rounding agrees with the multiplication of the Standard Library's
    specification of binary64 arithmetic, on the products [0.85 * 20]
    (rounded up to the integer 17), [0.7 * 3], a product in the subnormal
    range that is half way between two Numbers, and [0.5 * (1 - 2^-53)]. *)
Lemma fl64_agrees_with_SFmul :
  let mul := SpecFloat.SFmul 53 1024 in
  let agree a b :=
    Qeq_bool (fl64 (ofSpecFloat a * ofSpecFloat b)) (ofSpecFloat (mul a b)) in
  agree (SpecFloat.S754_finite false 7656119366529843 (-53))
        (SpecFloat.S754_finite false 20 0) = true /\
  agree (SpecFloat.S754_finite false 6305039478318694 (-53))
        (SpecFloat.S754_finite false 3 0) = true /\
  agree (SpecFloat.S754_finite false 5 (-1074))
        (SpecFloat.S754_finite false 4503599627370496 (-53)) = true /\
  agree (SpecFloat.S754_finite false 4503599627370496 (-53))
        (SpecFloat.S754_finite false 9007199254740991 (-53)) = true /\
  (fl64 (fl64 0.85 * 20) == 17)%Q /\
  (fl64 0.7 == 3152519739159347 # 4503599627370496)%Q.
Proof.
  repeat split; vm_compute; reflexivity.
Qed.

Lemma pick_In l r m : pick l r = Chosen m -> In m l.
Proof.
  unfold pick, index. destruct (_ <? 0); [discriminate|].
  destruct (nth_error l _) as [x|] eqn:E; [|discriminate].
  intros H. inversion H; subst. eapply nth_error_In; eauto.
Qed.

Lemma pick_not_null l r : pick l r <> NullMove.
Proof.
  unfold pick. destruct (index l _); discriminate.
Qed.

(** With a value that [Math.random()] may return and a non-empty array,
    [pick] reads inside the array: the rounded product stays below the
    length. *)
Lemma pick_in_unit_interval l r :
  l <> [] -> isRandomValue r = true -> exists m, pick l r = Chosen m /\ In m l.
Proof.
  intros Hl Hr. apply isRandomValue_bounds in Hr.
  assert (Hn : 1 <= Z.of_nat (length l)) by (destruct l; [congruence | simpl; lia]).
  pose proof (fl64_below_length r _ Hr Hn) as Hi.
  destruct (index_in_range l _ Hi) as [m Hm].
  exists m. assert (Hp : pick l r = Chosen m) by (unfold pick; now rewrite Hm).
  split; [assumption | now apply pick_In in Hp].
Qed.

(** With values that [Math.random] may return, [getBestMove] returns
    [null] or one of the enumerated moves, [null] when there is none. *)
Lemma getBestMove_null_or_move board c difficulty random :
  eightRows board ->
  (forall n, isRandomValue (random n) = true) ->
  exists ms res,
    getAllPossibleMoves board c = Ok ms /\
    getBestMove board c difficulty random = Ok res /\
    (res = NullMove <-> ms = []) /\
    (res = NullMove \/ exists m, res = Chosen m /\ In m ms).
Proof.
  intros L Hrand.
  destruct (getAllPossibleMoves_total board c L) as [ms Hms].
  pose proof (fun m' => getAllPossibleMoves_inRange board c _ m' Hms) as Hr.
  cut (exists res,
         getBestMove board c difficulty random = Ok res /\
         (res = NullMove <-> ms = []) /\
         (res = NullMove \/ exists m, res = Chosen m /\ In m ms)).
  { intros (res & H1 & H2 & H3). exists ms, res. auto. }
  unfold getBestMove. rewrite Hms. cbn [bind]. clear Hms.
  destruct ms as [|first rest].
  { exists NullMove. repeat split; auto. }
  set (ms := first :: rest) in *.
  assert (Move : forall m, In m ms ->
    exists res, Ok (Chosen m) = Ok res /\
      (res = NullMove <-> ms = []) /\
      (res = NullMove \/ exists m', res = Chosen m' /\ In m' ms)).
  { intros m Hm. exists (Chosen m). split; [reflexivity|]. split.
    - split; discriminate.
    - right. eauto. }
  assert (Search : forall depth,
    exists res,
      (best <- bestLoop (fun nb => minimax nb depth NegInf PosInf false c)
                 board ms first NegInf ;;
       Ok (Chosen best)) = Ok res /\
      (res = NullMove <-> ms = []) /\
      (res = NullMove \/ exists m, res = Chosen m /\ In m ms)).
  { intros depth.
    destruct (bestLoop_total board L (fun nb => minimax nb depth NegInf PosInf false c)
                ms first NegInf Hr) as [best Hb].
    { intros nb Lnb. now apply minimax_total. }
    rewrite Hb. cbn [bind]. apply Move. apply bestLoop_In in Hb.
    destruct Hb as [-> | Hb]; [now left | assumption]. }
  assert (Pick : forall l n, l <> [] -> (forall m, In m l -> In m ms) ->
    exists res, Ok (pick l (random n)) = Ok res /\
      (res = NullMove <-> ms = []) /\
      (res = NullMove \/ exists m, res = Chosen m /\ In m ms)).
  { intros l n Hne Hl.
    destruct (pick_in_unit_interval l (random n) Hne (Hrand n)) as (m & -> & Hm).
    apply Move. now apply Hl. }
  destruct difficulty; try apply Search.
  destruct (Qltb (random 0%nat) 0.5); [|apply Search].
  match goal with
  | |- context [filterM ?f ms] =>
      destruct (filterM_total f ms) as [captures Hcap]
  end.
  { intros m Hm. destruct (Hr m Hm) as [_ Rt].
    destruct (cellAt_inRange board (to m) L Rt) as [x ->]. cbn [bind]. eauto. }
  rewrite Hcap. cbn [bind].
  assert (Hsub : forall m, In m captures -> In m ms).
  { intros m Hm. now apply (filterM_In _ _ _ m Hcap) in Hm. }
  destruct captures as [|cp captures]; [apply Pick; [discriminate | auto]|].
  destruct (Qltb (random 1%nat) (fl64 0.7));
    (apply Pick; [discriminate | auto]).
Qed.




(** ** Alpha-beta pruning against full minimax *)

Lemma nleb_true x y : nleb x y = true <-> nle x y.
Proof.
  destruct x, y; simpl; try tauto; try (split; [discriminate | tauto]).
  apply Z.leb_le.
Qed.

Lemma nleb_false x y : nleb x y = false <-> ~ nle x y.
Proof.
  rewrite <- nleb_true. destruct (nleb x y); split; congruence.
Qed.

Lemma nltb_true x y : nltb x y = true <-> ~ nle y x.
Proof.
  unfold nltb. rewrite negb_true_iff. apply nleb_false.
Qed.

Lemma nle_antisym x y : nle x y -> nle y x -> x = y.
Proof.
  destruct x, y; simpl; try tauto. intros. f_equal. lia.
Qed.

Lemma nle_refl x : nle x x.
Proof. destruct x; simpl; auto. lia. Qed.

Lemma within_iff v w a b :
  within v w a b <->
  (nle v a -> nle w a) /\ (nle b v -> nle b w) /\
  (~ nle v a -> ~ nle b v -> nle w v /\ nle v w).
Proof.
  unfold within. rewrite !nleb_true, !nltb_true. split.
  - intros (H1 & H2 & H3). repeat split; auto.
    + intros. rewrite H3; auto using nle_refl.
    + intros. rewrite H3; auto using nle_refl.
  - intros (H1 & H2 & H3). repeat split; auto.
    intros. apply nle_antisym; apply H3; auto.
Qed.

(** Order facts on numbers: turn every comparison into [nle], split on the
    shape of each number, and leave integer arithmetic to [lia]. *)
Ltac num_props :=
  repeat match goal with
         | H : within _ _ _ _ |- _ => apply within_iff in H
         | H : nleb _ _ = true |- _ => apply nleb_true in H
         | H : nleb _ _ = false |- _ => apply nleb_false in H
         | H : nltb _ _ = true |- _ => apply nltb_true in H
         | |- within _ _ _ _ => apply within_iff
         | |- nleb _ _ = true => apply nleb_true
         | |- nleb _ _ = false => apply nleb_false
         | |- nltb _ _ = true => apply nltb_true
         | |- _ /\ _ => split
         end.

Ltac num_solve :=
  intros; num_props; unfold nmax, nmin in *;
  repeat match goal with x : Num |- _ => destruct x end;
  cbn [nle nleb] in *;
  repeat match goal with
         | H : context [?x <=? ?y] |- _ => destruct (Z.leb_spec x y)
         | |- context [?x <=? ?y] => destruct (Z.leb_spec x y)
         end;
  cbn [nle] in *; lia.

Lemma within_refl v a b : within v v a b.
Proof. unfold within. auto. Qed.

Lemma within_full_window v w : within v w NegInf PosInf -> w = v.
Proof.
  intros H. apply nle_antisym; revert H; num_solve.
Qed.

Lemma nleb_nmax_inv x y z : nleb (nmax x y) z = true -> nleb x z = true /\ nleb y z = true.
Proof. num_solve. Qed.

Lemma nleb_nmin_inv x y z : nleb z (nmin x y) = true -> nleb z x = true /\ nleb z y = true.
Proof. num_solve. Qed.

Lemma nleb_nmax_l x y : nleb x (nmax x y) = true.
Proof. num_solve. Qed.

Lemma nleb_nmin_l x y : nleb (nmin x y) x = true.
Proof. num_solve. Qed.

Lemma within_start_max E e a b :
  nltb a b = true -> nleb e a = true -> nleb E a = true -> within E e a b.
Proof. num_solve. Qed.

Lemma within_start_min E e a b :
  nltb a b = true -> nleb b e = true -> nleb b E = true -> within E e a b.
Proof. num_solve. Qed.

(** A maximizing node, cut-off taken: the child whose score reaches [b]
    already decides on which side of the window the node's value lies. *)
Lemma max_cut a b e v w1 V :
  nltb a b = true -> nleb e a = true -> within v w1 a b ->
  nleb b (nmax a w1) = true -> nleb v V = true ->
  within V (nmax e w1) a b.
Proof. num_solve. Qed.

(** A maximizing node, no cut-off: the loop goes on in a window that is
    still open, with accumulators that are still below it. *)
Lemma max_go a b e E v w1 :
  nltb a b = true -> nleb e a = true -> nleb E a = true -> within v w1 a b ->
  nleb b (nmax a w1) = false ->
  nltb (nmax a w1) b = true /\
  nleb (nmax e w1) (nmax a w1) = true /\
  nleb (nmax E v) (nmax a w1) = true.
Proof. num_solve. Qed.

Lemma max_back a b v w1 V w :
  nltb a b = true -> within v w1 a b -> nleb b (nmax a w1) = false ->
  within V w (nmax a w1) b -> nleb w1 w = true -> nleb v V = true ->
  within V w a b.
Proof. num_solve. Qed.

Lemma min_cut a b e v w1 V :
  nltb a b = true -> nleb b e = true -> within v w1 a b ->
  nleb (nmin b w1) a = true -> nleb V v = true ->
  within V (nmin e w1) a b.
Proof. num_solve. Qed.

Lemma min_go a b e E v w1 :
  nltb a b = true -> nleb b e = true -> nleb b E = true -> within v w1 a b ->
  nleb (nmin b w1) a = false ->
  nltb a (nmin b w1) = true /\
  nleb (nmin b w1) (nmin e w1) = true /\
  nleb (nmin b w1) (nmin E v) = true.
Proof. num_solve. Qed.

Lemma min_back a b v w1 V w :
  nltb a b = true -> within v w1 a b -> nleb (nmin b w1) a = false ->
  within V w a (nmin b w1) -> nleb w w1 = true -> nleb V v = true ->
  within V w a b.
Proof. num_solve. Qed.

Section Pruning.

Variable childF : Board -> result Num.
Variable childP : Board -> Num -> Num -> result Num.
Variable board : Board.

Lemma maxLoopFull_grows moves E :
  (forall m, In m moves -> agrees childF childP board m) ->
  exists V, maxLoopFull childF board moves E = Ok V /\ nleb E V = true.
Proof.
  revert E. induction moves as [|m rest IH]; intros E H; cbn [maxLoopFull].
  - exists E. split; [reflexivity | num_solve].
  - destruct (H m (or_introl eq_refl)) as (nb & v & Hmk & Hf & _).
    rewrite Hmk. cbn [bind]. rewrite Hf. cbn [bind].
    destruct (IH (nmax E v)) as (V & -> & HV); [intros; apply H; now right|].
    exists V. split; [reflexivity|]. now apply nleb_nmax_inv in HV.
Qed.

Lemma minLoopFull_shrinks moves E :
  (forall m, In m moves -> agrees childF childP board m) ->
  exists V, minLoopFull childF board moves E = Ok V /\ nleb V E = true.
Proof.
  revert E. induction moves as [|m rest IH]; intros E H; cbn [minLoopFull].
  - exists E. split; [reflexivity | num_solve].
  - destruct (H m (or_introl eq_refl)) as (nb & v & Hmk & Hf & _).
    rewrite Hmk. cbn [bind]. rewrite Hf. cbn [bind].
    destruct (IH (nmin E v)) as (V & -> & HV); [intros; apply H; now right|].
    exists V. split; [reflexivity|]. now apply nleb_nmin_inv in HV.
Qed.

Lemma maxLoop_refines moves :
  (forall m, In m moves -> agrees childF childP board m) ->
  forall E e a b,
    nltb a b = true -> nleb e a = true -> nleb E a = true ->
    exists V w,
      maxLoopFull childF board moves E = Ok V /\
      maxLoop childP board moves e a b = Ok w /\
      within V w a b /\ nleb e w = true /\ nleb E V = true.
Proof.
  induction moves as [|m rest IH]; intros H E e a b Hab He HE.
  - exists E, e. split; [reflexivity|]. split; [reflexivity|].
    split; [now apply within_start_max|]. split; num_solve.
  - assert (Hrest : forall m', In m' rest -> agrees childF childP board m')
      by (intros; apply H; now right).
    destruct (H m (or_introl eq_refl)) as (nb & v & Hmk & Hf & Hp).
    destruct (Hp a b Hab) as (w1 & Hw1 & Hin).
    cbn [maxLoopFull maxLoop]. rewrite Hmk. cbn [bind]. rewrite Hf, Hw1. cbn [bind].
    destruct (nleb b (nmax a w1)) eqn:Hcut.
    + destruct (maxLoopFull_grows rest (nmax E v) Hrest) as (V & -> & HV).
      apply nleb_nmax_inv in HV. destruct HV as [HEV HvV].
      exists V, (nmax e w1). split; [reflexivity|]. split; [reflexivity|].
      split; [apply (max_cut a b e v w1 V); assumption|].
      split; [apply nleb_nmax_l | assumption].
    + destruct (max_go a b e E v w1 Hab He HE Hin Hcut) as (G1 & G2 & G3).
      destruct (IH Hrest (nmax E v) (nmax e w1) (nmax a w1) b G1 G2 G3)
        as (V & w & -> & -> & Hin' & Hew & HEV).
      apply nleb_nmax_inv in Hew, HEV. destruct Hew as [Hew Hw1w], HEV as [HEV HvV].
      exists V, w. split; [reflexivity|]. split; [reflexivity|].
      split; [apply (max_back a b v w1 V w); assumption|].
      split; assumption.
Qed.

Lemma minLoop_refines moves :
  (forall m, In m moves -> agrees childF childP board m) ->
  forall E e a b,
    nltb a b = true -> nleb b e = true -> nleb b E = true ->
    exists V w,
      minLoopFull childF board moves E = Ok V /\
      minLoop childP board moves e a b = Ok w /\
      within V w a b /\ nleb w e = true /\ nleb V E = true.
Proof.
  induction moves as [|m rest IH]; intros H E e a b Hab He HE.
  - exists E, e. split; [reflexivity|]. split; [reflexivity|].
    split; [now apply within_start_min|]. split; num_solve.
  - assert (Hrest : forall m', In m' rest -> agrees childF childP board m')
      by (intros; apply H; now right).
    destruct (H m (or_introl eq_refl)) as (nb & v & Hmk & Hf & Hp).
    destruct (Hp a b Hab) as (w1 & Hw1 & Hin).
    cbn [minLoopFull minLoop]. rewrite Hmk. cbn [bind]. rewrite Hf, Hw1. cbn [bind].
    destruct (nleb (nmin b w1) a) eqn:Hcut.
    + destruct (minLoopFull_shrinks rest (nmin E v) Hrest) as (V & -> & HV).
      apply nleb_nmin_inv in HV. destruct HV as [HEV HvV].
      exists V, (nmin e w1). split; [reflexivity|]. split; [reflexivity|].
      split; [apply (min_cut a b e v w1 V); assumption|].
      split; [apply nleb_nmin_l | assumption].
    + destruct (min_go a b e E v w1 Hab He HE Hin Hcut) as (G1 & G2 & G3).
      destruct (IH Hrest (nmin E v) (nmin e w1) a (nmin b w1) G1 G2 G3)
        as (V & w & -> & -> & Hin' & Hew & HEV).
      apply nleb_nmin_inv in Hew, HEV. destruct Hew as [Hew Hw1w], HEV as [HEV HvV].
      exists V, w. split; [reflexivity|]. split; [reflexivity|].
      split; [apply (min_back a b v w1 V w); assumption|].
      split; assumption.
Qed.

End Pruning.

(** In every open window, the pruned search returns a score on the right
    side of the window relative to the full score, or the full score
    itself. *)
Lemma minimax_refines depth :
  forall board maximizing c,
    eightRows board ->
    exists v,
      minimaxFull board depth maximizing c = Ok v /\
      forall a b, nltb a b = true ->
        exists w, minimax board depth a b maximizing c = Ok w /\ within v w a b.
Proof.
  induction depth as [|depth IH]; intros board maximizing c L;
    cbn [minimax minimaxFull].
  - destruct (evaluateBoard_total board c L) as [s ->]. cbn [bind].
    exists (Fin s). split; [reflexivity|]. intros a b _.
    exists (Fin s). split; [reflexivity | apply within_refl].
  - set (cur := if maximizing then c else opposite c).
    destruct (isCheckmate_total board cur L) as [mate ->]. cbn [bind].
    destruct mate.
    { eexists. split; [reflexivity|]. intros a b _.
      eexists. split; [reflexivity | apply within_refl]. }
    destruct (getAllPossibleMoves_total board cur L) as [ms Hms]. rewrite Hms. cbn [bind].
    destruct ms as [|m ms].
    { eexists. split; [reflexivity|]. intros a b _.
      eexists. split; [reflexivity | apply within_refl]. }
    assert (Hch : forall mx m', In m' (m :: ms) ->
      exists nb v,
        makeMove board (from m') (to m') = Ok nb /\
        minimaxFull nb depth mx c = Ok v /\
        forall a b, nltb a b = true ->
          exists w, minimax nb depth a b mx c = Ok w /\ within v w a b).
    { intros mx m' Hm'.
      destruct (getAllPossibleMoves_inRange board cur _ m' Hms Hm') as [[Rf _] [Rt _]].
      destruct (makeMove_total board (from m') (to m') L Rf Rt) as (nb & Hnb & Lnb).
      destruct (IH nb mx c Lnb) as (v & Hv & Hw). exists nb, v. auto. }
    destruct maximizing.
    + destruct (maxLoopFull_grows (fun nb => minimaxFull nb depth false c)
                  (fun nb a b => minimax nb depth a b false c) board (m :: ms) NegInf
                  (Hch false)) as (V & HV & _).
      exists V. split; [assumption|]. intros a b Hab.
      destruct (maxLoop_refines _ _ board (m :: ms) (Hch false) NegInf NegInf a b Hab
                  eq_refl eq_refl) as (V' & w & HV' & Hw & Hin & _).
      rewrite HV in HV'. inversion HV'; subst V'. eauto.
    + destruct (minLoopFull_shrinks (fun nb => minimaxFull nb depth true c)
                  (fun nb a b => minimax nb depth a b true c) board (m :: ms) PosInf
                  (Hch true)) as (V & HV & _).
      exists V. split; [assumption|]. intros a b Hab.
      destruct (minLoop_refines _ _ board (m :: ms) (Hch true) PosInf PosInf a b Hab)
        as (V' & w & HV' & Hw & Hin & _); [destruct b; reflexivity ..|].
      rewrite HV in HV'. inversion HV'; subst V'. eauto.
Qed.

(** With the window [(-Infinity, Infinity)] the pruned search returns the
    full score. *)
Lemma minimax_full_window board depth maximizing c :
  eightRows board ->
  minimax board depth NegInf PosInf maximizing c = minimaxFull board depth maximizing c.
Proof.
  intros L. destruct (minimax_refines depth board maximizing c L) as (v & -> & Hw).
  destruct (Hw NegInf PosInf eq_refl) as (w & -> & Hin).
  now rewrite (within_full_window v w Hin).
Qed.

Lemma bestLoop_ext score score' board moves bestMove bestValue :
  (forall m nb, In m moves -> makeMove board (from m) (to m) = Ok nb ->
                score nb = score' nb) ->
  bestLoop score board moves bestMove bestValue
  = bestLoop score' board moves bestMove bestValue.
Proof.
  revert bestMove bestValue.
  induction moves as [|m rest IH]; intros bestMove bestValue H; cbn [bestLoop];
    [reflexivity|].
  destruct (makeMove board (from m) (to m)) as [nb|] eqn:Hnb; cbn [bind]; [|reflexivity].
  rewrite <- (H m nb (or_introl eq_refl) Hnb).
  destruct (score nb) as [value|]; cbn [bind]; [|reflexivity].
  destruct (nltb bestValue value); apply IH; intros; eapply H; eauto; now right.
Qed.

Lemma getBestMove_search_is_full board c depth first rest :
  eightRows board ->
  getAllPossibleMoves board c = Ok (first :: rest) ->
  bestLoop (fun nb => minimax nb depth NegInf PosInf false c)
    board (first :: rest) first NegInf
  = bestLoop (fun nb => minimaxFull nb depth false c)
      board (first :: rest) first NegInf.
Proof.
  intros L Hms. apply bestLoop_ext. intros m nb Hm Hnb.
  apply minimax_full_window.
  destruct (getAllPossibleMoves_inRange board c _ m Hms Hm) as [[Rf _] [Rt _]].
  destruct (makeMove_total board (from m) (to m) L Rf Rt) as (nb' & Hnb' & Lnb).
  congruence.
Qed.

(** C2. On an 8 x 8 board, the move [getBestMove] chooses at medium and at
    hard difficulty is the move that full minimax of the same depth (2 and 3)
    chooses, with the same rule of keeping the first move of strictly
    greatest score; and at every depth a search started in the window
    [(-Infinity, Infinity)], as [getBestMove] starts it, returns the score of
    full minimax. *)
Theorem alpha_beta_chooses_minimax_move :
  forall board c random,
    wf_board board ->
    getBestMove board c medium random = getBestMoveFull board c 2 /\
    getBestMove board c hard random = getBestMoveFull board c 3 /\
    (forall depth maximizing,
       minimax board depth NegInf PosInf maximizing c
       = minimaxFull board depth maximizing c).
Proof.
  intros board c random W. pose proof (wf_board_eightRows _ W) as L.
  assert (Root : forall depth,
    (moves <- getAllPossibleMoves board c ;;
     match moves with
     | [] => Ok NullMove
     | first :: _ =>
         best <- bestLoop (fun nb => minimax nb depth NegInf PosInf false c)
                   board moves first NegInf ;;
         Ok (Chosen best)
     end)
    = (moves <- getAllPossibleMoves board c ;;
       match moves with
       | [] => Ok NullMove
       | first :: _ =>
           best <- bestLoop (fun nb => minimaxFull nb depth false c)
                     board moves first NegInf ;;
           Ok (Chosen best)
       end)).
  { intros depth. destruct (getAllPossibleMoves board c) as [[|first rest]|] eqn:Hms;
      cbn [bind]; try reflexivity.
    now rewrite (getBestMove_search_is_full board c depth first rest L Hms). }
  split; [exact (Root 1%nat)|]. split; [exact (Root 2%nat)|].
  intros depth maximizing. now apply minimax_full_window.
Qed.

Lemma alpha_beta_chooses_minimax_move_witness :
  getBestMove INITIAL_BOARD white medium (fun _ => 0%Q)
  = getBestMoveFull INITIAL_BOARD white 2 /\
  getBestMove INITIAL_BOARD white hard (fun _ => 0%Q)
  = getBestMoveFull INITIAL_BOARD white 3 /\
  (forall depth maximizing,
     minimax INITIAL_BOARD depth NegInf PosInf maximizing white
     = minimaxFull INITIAL_BOARD depth maximizing white).
Proof.
  apply (alpha_beta_chooses_minimax_move INITIAL_BOARD white (fun _ => 0%Q)).
  reflexivity.
Defined.

(** * Further properties *)

(** ** Early-exit scans *)

Section Scans.
Context {A : Type}.

Lemma anyM_true (f : A -> result bool) (l : list A) :
  anyM f l = Ok true -> exists x, In x l /\ f x = Ok true.
Proof.
  induction l as [|a l IH]; cbn [anyM]; intros H; [discriminate|].
  bind_inv H. destruct a0.
  - exists a. split; [now left | assumption].
  - destruct (IH H) as (x & Hx & Hf). exists x. split; [now right | assumption].
Qed.

Lemma anyM_false (f : A -> result bool) (l : list A) :
  anyM f l = Ok false -> forall x, In x l -> f x = Ok false.
Proof.
  induction l as [|a l IH]; cbn [anyM]; intros H x Hx; [contradiction|].
  bind_inv H. destruct a0; [discriminate|].
  destruct Hx as [<- | Hx]; auto.
Qed.

Lemma anyM_true_intro (f : A -> result bool) (l : list A) (x : A) :
  (forall y, In y l -> exists k, f y = Ok k) ->
  In x l -> f x = Ok true -> anyM f l = Ok true.
Proof.
  intros Ht Hx Hf. destruct (anyM_total f l Ht) as [[|] Hr]; [assumption|].
  rewrite (anyM_false f l Hr x Hx) in Hf. discriminate.
Qed.

Lemma findM_Some (f : A -> result bool) (l : list A) (x : A) :
  findM f l = Ok (Some x) -> In x l /\ f x = Ok true.
Proof.
  induction l as [|a l IH]; cbn [findM]; intros H; [discriminate|].
  bind_inv H. destruct a0.
  - inversion H; subst. split; [now left | assumption].
  - destruct (IH H) as [Hx Hf]. split; [now right | assumption].
Qed.

Lemma findM_None (f : A -> result bool) (l : list A) :
  findM f l = Ok None -> forall x, In x l -> f x = Ok false.
Proof.
  induction l as [|a l IH]; cbn [findM]; intros H x Hx; [contradiction|].
  bind_inv H. destruct a0; [discriminate|].
  destruct Hx as [<- | Hx]; auto.
Qed.

End Scans.

Lemma range8_In r : In r range8 <-> 0 <= r < 8.
Proof.
  unfold range8. simpl. lia.
Qed.

Lemma allSquares_In sq : In sq allSquares <-> inRange sq.
Proof.
  split; [apply allSquares_inRange|]. intros [Hr Hc].
  unfold allSquares. apply in_flat_map. exists (row sq). split; [now apply range8_In|].
  apply in_map_iff. exists (col sq). split; [destruct sq; reflexivity | now apply range8_In].
Qed.

(** ** Finding the king, and check *)

Lemma findKing_Some board c p :
  findKing board c = Ok (Some p) ->
  inRange p /\ exists x, cellAt board (row p) (col p) = Ok x /\ isKingOf c x = true.
Proof.
  intros H. apply findM_Some in H. destruct H as [Hin Hf].
  split; [now apply allSquares_In|]. bind_inv Hf. inversion Hf. eauto.
Qed.

Lemma findKing_None board c :
  findKing board c = Ok None ->
  forall q, inRange q ->
    exists x, cellAt board (row q) (col q) = Ok x /\ isKingOf c x = false.
Proof.
  intros H q Hq. apply allSquares_In in Hq.
  pose proof (findM_None _ _ H q Hq) as Hf. cbn beta in Hf. bind_inv Hf.
  inversion Hf. eauto.
Qed.

Lemma findKing_absent board c :
  eightRows board ->
  (forall q x, inRange q -> cellAt board (row q) (col q) = Ok x -> isKingOf c x = false) ->
  findKing board c = Ok None.
Proof.
  intros L Hno. destruct (findKing_total board c L) as [[p|] Hp]; [|assumption].
  destruct (findKing_Some board c p Hp) as (Hr & x & Hx & Hk).
  rewrite (Hno p x Hr Hx) in Hk. discriminate.
Qed.

(** X1. [findKing] answers with a square of the 8 x 8 grid that holds the
    king of the colour, and answers [null] only when no square of the grid
    holds it; on a board of eight rows it always answers. *)
Theorem findKing_finds_the_king :
  forall board c,
    (forall p, findKing board c = Ok (Some p) ->
       inRange p /\ exists x, cellAt board (row p) (col p) = Ok x /\ isKingOf c x = true) /\
    (findKing board c = Ok None ->
       forall q, inRange q ->
         exists x, cellAt board (row q) (col q) = Ok x /\ isKingOf c x = false) /\
    (eightRows board -> exists r, findKing board c = Ok r).
Proof.
  intros board c. split; [|split].
  - apply findKing_Some.
  - apply findKing_None.
  - apply findKing_total.
Qed.

Lemma findKing_finds_the_king_witness :
  (inRange (mkPos 7 4) /\
   exists x, cellAt INITIAL_BOARD 7 4 = Ok x /\ isKingOf white x = true) /\
  (forall q, inRange q ->
     exists x, cellAt emptyBoard (row q) (col q) = Ok x /\ isKingOf black x = false) /\
  (exists r, findKing foolsMate black = Ok r).
Proof.
  split; [|split].
  - apply (proj1 (findKing_finds_the_king INITIAL_BOARD white) (mkPos 7 4)).
    vm_compute. reflexivity.
  - apply (proj1 (proj2 (findKing_finds_the_king emptyBoard black))).
    vm_compute. reflexivity.
  - apply (proj2 (proj2 (findKing_finds_the_king foolsMate black))). reflexivity.
Defined.

(** A side without a king is not in check. *)
Lemma isInCheck_kingless board c :
  findKing board c = Ok None -> isInCheck board c = Ok false.
Proof.
  intros H. unfold isInCheck. rewrite H. reflexivity.
Qed.


Lemma PieceColor_eqb_eq a b : PieceColor_eqb a b = true <-> a = b.
Proof. destruct a, b; simpl; split; congruence. Qed.

Lemma PieceColor_eqb_refl a : PieceColor_eqb a a = true.
Proof. now apply PieceColor_eqb_eq. Qed.

Lemma PieceType_eqb_eq a b : PieceType_eqb a b = true <-> a = b.
Proof. destruct a, b; simpl; split; congruence. Qed.

Lemma Position_eqb_eq p q : Position_eqb p q = true <-> p = q.
Proof.
  unfold Position_eqb. rewrite andb_true_iff, !Z.eqb_eq.
  destruct p, q; simpl. split; [intros [-> ->]; reflexivity | intros H; inversion H; auto].
Qed.

Lemma existsb_Position_eqb kingPos ms :
  existsb (fun move => Position_eqb move kingPos) ms = true <-> In kingPos ms.
Proof.
  rewrite existsb_exists. split.
  - intros (x & Hx & He). apply Position_eqb_eq in He. now subst.
  - intros H. exists kingPos. split; [assumption | now apply Position_eqb_eq].
Qed.

Lemma isInCheck_true_iff board c :
  eightRows board ->
  (isInCheck board c = Ok true <->
   exists kingPos sq pc ms,
     findKing board c = Ok (Some kingPos) /\
     inRange sq /\
     cellAt board (row sq) (col sq) = Ok (Occ pc) /\
     color pc = opposite c /\
     pieceMoves board sq pc None = Ok ms /\
     In kingPos ms).
Proof.
  intros L. unfold isInCheck. split.
  - intros H. bind_inv H. destruct a as [kingPos|]; [|discriminate].
    apply anyM_true in H. destruct H as (sq & Hsq & Hf). cbn beta in Hf.
    bind_inv Hf. destruct a as [| |pc]; try discriminate.
    destruct (PieceColor_eqb (color pc) (opposite c)) eqn:Ec; [|discriminate].
    bind_inv Hf. unfold getValidMovesWithoutCheckTest in E1. rewrite E0 in E1.
    cbn [bind] in E1. inversion Hf as [He]. apply existsb_Position_eqb in He.
    exists kingPos, sq, pc, a.
    split; [assumption|]. split; [now apply allSquares_In|]. split; [assumption|].
    split; [now apply PieceColor_eqb_eq|]. split; assumption.
  - intros (kingPos & sq & pc & ms & Hk & Hsq & Hc & Hcol & Hms & Hin).
    rewrite Hk. cbn [bind]. apply anyM_true_intro with (x := sq).
    + intros y Hy. apply allSquares_inRange in Hy.
      destruct (cellAt_inRange board y L Hy) as [x ->]. cbn [bind].
      destruct x as [| |pc']; eauto.
      destruct (PieceColor_eqb _ _); [|eauto].
      destruct (getValidMovesWithoutCheckTest_total board y L (proj1 Hy)) as [ms' ->].
      cbn [bind]. eauto.
    + now apply allSquares_In.
    + rewrite Hc. cbn [bind]. rewrite Hcol, PieceColor_eqb_refl.
      unfold getValidMovesWithoutCheckTest. rewrite Hc. cbn [bind]. rewrite Hms.
      cbn [bind]. f_equal. now apply existsb_Position_eqb.
Qed.

(** X2. On a board of eight rows, a colour is in check exactly when its king
    is found and some piece of the other colour, standing on the 8 x 8 grid,
    has the king's square among its pseudo-legal destinations. *)
Theorem isInCheck_iff_king_attacked :
  forall board c,
    eightRows board ->
    (isInCheck board c = Ok true <->
     exists kingPos sq pc ms,
       findKing board c = Ok (Some kingPos) /\
       inRange sq /\
       cellAt board (row sq) (col sq) = Ok (Occ pc) /\
       color pc = opposite c /\
       pieceMoves board sq pc None = Ok ms /\
       In kingPos ms).
Proof.
  exact isInCheck_true_iff.
Qed.

Lemma isInCheck_iff_king_attacked_witness :
  isInCheck foolsMate white = Ok true <->
  exists kingPos sq pc ms,
    findKing foolsMate white = Ok (Some kingPos) /\
    inRange sq /\
    cellAt foolsMate (row sq) (col sq) = Ok (Occ pc) /\
    color pc = opposite white /\
    pieceMoves foolsMate sq pc None = Ok ms /\
    In kingPos ms.
Proof.
  apply (isInCheck_iff_king_attacked foolsMate white). reflexivity.
Defined.

Lemma hasLegalMove_false board c :
  eightRows board ->
  findKing board c = Ok None -> isCheckmate board c = Ok false.
Proof.
  intros L H. unfold isCheckmate. rewrite (isInCheck_kingless board c H). reflexivity.
Qed.

(** X3. On a board of eight rows where no square of the grid holds the king
    of a colour, that colour is never in check and never checkmated. *)
Theorem kingless_side_never_in_check :
  forall board c,
    eightRows board ->
    (forall q x, inRange q -> cellAt board (row q) (col q) = Ok x ->
                 isKingOf c x = false) ->
    isInCheck board c = Ok false /\ isCheckmate board c = Ok false.
Proof.
  intros board c L Hno. pose proof (findKing_absent board c L Hno) as H.
  split; [now apply isInCheck_kingless | now apply hasLegalMove_false].
Qed.

Lemma kingless_side_never_in_check_witness :
  isInCheck emptyBoard white = Ok false /\ isCheckmate emptyBoard white = Ok false.
Proof.
  apply (kingless_side_never_in_check emptyBoard white); [reflexivity|].
  intros q x Hq Hx.
  destruct (findKing_None emptyBoard white eq_refl q Hq) as (y & Hy & Hk).
  congruence.
Defined.

(** ** Checkmate, stalemate and the enumeration of moves *)

Lemma anyM_flatMapM {A B} (g : A -> result bool) (h : A -> result (list B)) (l : list A) :
  (forall x, In x l -> exists ys, h x = Ok ys /\ g x = Ok (negb (isEmptyList ys))) ->
  exists r, flatMapM h l = Ok r /\ anyM g l = Ok (negb (isEmptyList r)).
Proof.
  induction l as [|a l IH]; intros H; cbn [flatMapM anyM].
  - exists []. split; reflexivity.
  - destruct (H a (or_introl eq_refl)) as (ys & -> & ->). cbn [bind].
    destruct IH as (r & -> & Hr); [intros; apply H; now right|]. cbn [bind].
    exists (ys ++ r). split; [reflexivity|].
    destruct ys as [|y ys]; cbn [isEmptyList negb app]; [assumption | reflexivity].
Qed.

(** The loop of [isCheckmate] and [isStalemate] finds a legal move exactly
    when the enumeration of the search is not empty. *)
Lemma hasLegalMove_getAllPossibleMoves board c :
  eightRows board ->
  exists ms,
    getAllPossibleMoves board c = Ok ms /\
    hasLegalMove board c = Ok (negb (isEmptyList ms)).
Proof.
  intros L. apply anyM_flatMapM. intros sq Hsq. apply allSquares_inRange in Hsq.
  destruct (cellAt_inRange board sq L Hsq) as [x ->]. cbn [bind].
  destruct x as [| |pc]; try (exists []; split; reflexivity).
  destruct (PieceColor_eqb _ _); [|exists []; split; reflexivity].
  destruct (getValidMoves_total board sq None L (proj1 Hsq)) as [ms ->]. cbn [bind].
  eexists. split; [reflexivity|]. destruct ms; reflexivity.
Qed.

Lemma game_end_predicates board c :
  eightRows board ->
  exists chk ms,
    isInCheck board c = Ok chk /\
    getAllPossibleMoves board c = Ok ms /\
    isCheckmate board c = Ok (chk && isEmptyList ms) /\
    isStalemate board c = Ok (negb chk && isEmptyList ms).
Proof.
  intros L. destruct (isInCheck_total board c L) as [chk Hchk].
  destruct (hasLegalMove_getAllPossibleMoves board c L) as (ms & Hms & Hany).
  exists chk, ms. split; [assumption|]. split; [assumption|].
  unfold isCheckmate, isStalemate. rewrite Hchk. cbn [bind].
  destruct chk; cbn [negb andb]; rewrite ?Hany; cbn [bind];
    rewrite ?negb_involutive; split; reflexivity.
Qed.

(** X4. On a board of eight rows, [isCheckmate] is true exactly when the
    colour is in check and [getAllPossibleMoves] enumerates no move, and
    [isStalemate] exactly when it is not in check and no move is enumerated;
    so the two are never true together. *)
Theorem checkmate_and_stalemate_are_no_moves :
  forall board c,
    eightRows board ->
    exists chk ms,
      isInCheck board c = Ok chk /\
      getAllPossibleMoves board c = Ok ms /\
      isCheckmate board c = Ok (chk && isEmptyList ms) /\
      isStalemate board c = Ok (negb chk && isEmptyList ms).
Proof.
  exact game_end_predicates.
Qed.

Lemma checkmate_and_stalemate_are_no_moves_witness :
  exists chk ms,
    isInCheck cornered black = Ok chk /\
    getAllPossibleMoves cornered black = Ok ms /\
    isCheckmate cornered black = Ok (chk && isEmptyList ms) /\
    isStalemate cornered black = Ok (negb chk && isEmptyList ms).
Proof.
  apply (checkmate_and_stalemate_are_no_moves cornered black). reflexivity.
Defined.

Lemma getBestMove_NullMove board c difficulty random :
  getBestMove board c difficulty random = Ok NullMove ->
  getAllPossibleMoves board c = Ok [].
Proof.
  unfold getBestMove. intros H. bind_inv H. destruct a as [|first rest]; [assumption|].
  exfalso.
  destruct (match difficulty with
            | easy => Qltb (random 0%nat) 0.5
            | _ => false
            end).
  - bind_inv H. destruct a as [|cp cps].
    + inversion H as [Hp]. now apply pick_not_null in Hp.
    + destruct (Qltb (random 1%nat) (fl64 0.7)); inversion H as [Hp];
        now apply pick_not_null in Hp.
  - bind_inv H. discriminate.
Qed.

(** X5. On a board of eight rows, for every difficulty and whatever
    [Math.random] returns, [getBestMove] returns [null] exactly when the
    colour is checkmated or stalemated. *)
Theorem getBestMove_null_iff_game_over :
  forall board c difficulty random,
    eightRows board ->
    (getBestMove board c difficulty random = Ok NullMove <->
     isCheckmate board c = Ok true \/ isStalemate board c = Ok true).
Proof.
  intros board c difficulty random L.
  destruct (game_end_predicates board c L) as (chk & ms & Hchk & Hms & Hcm & Hsm).
  rewrite Hcm, Hsm. split.
  - intros H. apply getBestMove_NullMove in H. rewrite Hms in H. inversion H; subst.
    destruct chk; [left | right]; reflexivity.
  - intros H. assert (ms = []) as ->.
    { destruct ms; [reflexivity|]. destruct chk, H as [H|H]; discriminate. }
    unfold getBestMove. rewrite Hms. reflexivity.
Qed.

Lemma getBestMove_null_iff_game_over_witness :
  getBestMove foolsMate white hard (fun _ => 0%Q) = Ok NullMove <->
  isCheckmate foolsMate white = Ok true \/ isStalemate foolsMate white = Ok true.
Proof.
  apply (getBestMove_null_iff_game_over foolsMate white hard (fun _ => 0%Q)).
  reflexivity.
Defined.

Lemma flatMapM_each {A B} (f : A -> result (list B)) (l : list A) (r : list B) (x : A) :
  flatMapM f l = Ok r -> In x l -> exists ys, f x = Ok ys.
Proof.
  revert r. induction l as [|a l IH]; intros r H Hx; [contradiction|].
  cbn [flatMapM] in H. bind_inv H. bind_inv H.
  destruct Hx as [<- | Hx]; [eauto | eapply IH; eauto].
Qed.

(** ** Sliding pieces *)

Lemma along_0 p d : along p d (Z.of_nat 0) = mkPos (row p) (col p).
Proof. unfold along. cbn [Z.of_nat]. f_equal; lia. Qed.

Lemma along_shift p d (j : nat) :
  along (mkPos (row p + fst d) (col p + snd d)) d (Z.of_nat j)
  = along p d (Z.of_nat (S j)).
Proof. unfold along. cbn [row col]. f_equal; lia. Qed.

Lemma ray_In fuel board c d :
  forall p ms to_,
    ray fuel board c (fst d) (snd d) (row p) (col p) = Ok ms -> In to_ ms ->
    exists k : nat,
      (k < fuel)%nat /\ to_ = along p d (Z.of_nat k) /\
      (forall j : nat, (j <= k)%nat -> inRange (along p d (Z.of_nat j))) /\
      (forall j : nat, (j < k)%nat -> vacant board (along p d (Z.of_nat j))) /\
      landable board c to_.
Proof.
  induction fuel as [|fuel IH]; intros p ms to_ H Hin; cbn [ray] in H.
  - inversion H; subst. contradiction.
  - destruct (isValidPosition (mkPos (row p) (col p))) eqn:V;
      [|inversion H; subst; contradiction].
    apply isValidPosition_spec in V. bind_inv H.
    destruct (isFalsy a) eqn:Fa.
    + bind_inv H. inversion H; subst ms. destruct Hin as [<- | Hin].
      * exists 0%nat. split; [lia|]. split; [now rewrite along_0|].
        split; [intros j Hj; replace j with 0%nat by lia; now rewrite along_0|].
        split; [intros j Hj; lia|]. exists a. cbn [row col]. now rewrite Fa.
      * destruct (IH (mkPos (row p + fst d) (col p + snd d)) a0 to_ E0 Hin)
          as (k & Hk & Hto & Hr & Hclear & Hland).
        exists (S k). split; [lia|]. split; [now rewrite <- along_shift|].
        split; [|split; [|assumption]].
        -- intros [|j] Hj; [now rewrite along_0|]. rewrite <- along_shift. apply Hr. lia.
        -- intros [|j] Hj; [rewrite along_0; exists a; auto|].
           rewrite <- along_shift. apply Hclear. lia.
    + inversion H; subst ms. destruct (isEnemy a c) eqn:Ea; [|contradiction].
      destruct Hin as [<- | []].
      exists 0%nat. split; [lia|]. split; [now rewrite along_0|].
      split; [intros j Hj; replace j with 0%nat by lia; now rewrite along_0|].
      split; [intros j Hj; lia|]. exists a. cbn [row col]. now rewrite Fa, Ea.
Qed.

Lemma ray_reaches fuel board c d :
  forall p ms (k : nat),
    ray fuel board c (fst d) (snd d) (row p) (col p) = Ok ms ->
    (k < fuel)%nat ->
    (forall j : nat, (j <= k)%nat -> inRange (along p d (Z.of_nat j))) ->
    (forall j : nat, (j < k)%nat -> vacant board (along p d (Z.of_nat j))) ->
    landable board c (along p d (Z.of_nat k)) ->
    In (along p d (Z.of_nat k)) ms.
Proof.
  induction fuel as [|fuel IH]; intros p ms k H Hk Hr Hclear Hland; [lia|].
  cbn [ray] in H.
  assert (V : isValidPosition (mkPos (row p) (col p)) = true).
  { apply isValidPosition_spec. rewrite <- (along_0 p d). apply Hr. lia. }
  rewrite V in H. bind_inv H.
  destruct k as [|k].
  - destruct Hland as (x & Hx & Hok). rewrite along_0 in Hx |- *. cbn [row col] in Hx.
    rewrite Hx in E. inversion E; subst a.
    destruct (isFalsy x).
    + bind_inv H. inversion H. now left.
    + cbn [orb] in Hok. rewrite Hok in H. inversion H. now left.
  - destruct (Hclear 0%nat) as (x & Hx & Hf); [lia|].
    rewrite along_0 in Hx. cbn [row col] in Hx.
    rewrite Hx in E. inversion E; subst a. rewrite Hf in H. bind_inv H.
    inversion H; subst ms. right. rewrite <- along_shift.
    apply (IH (mkPos (row p + fst d) (col p + snd d)) a k E0); [lia | | |].
    + intros j Hj. rewrite along_shift. apply Hr. lia.
    + intros j Hj. rewrite along_shift. apply Hclear. lia.
    + now rewrite along_shift.
Qed.

(** Squares [p + d, ..., p + k d] that are all on the 8 x 8 grid are at most
    eight when [d] is not [(0, 0)]. *)
Lemma along_inRange_bound p d k :
  fst d <> 0 \/ snd d <> 0 -> 1 <= k ->
  inRange (along p d 1) -> inRange (along p d k) -> k <= 8.
Proof.
  unfold inRange, along. cbn [row col]. intros Hd Hk [Hr1 Hc1] [Hrk Hck].
  destruct Hd as [Hd|Hd]; nia.
Qed.

Lemma along_along p d (j : nat) :
  along (along p d 1) d (Z.of_nat j) = along p d (Z.of_nat j + 1).
Proof. unfold along. cbn [row col]. f_equal; lia. Qed.

Lemma getDirectionalMoves_In board from_ c directions ms to_ :
  getDirectionalMoves board from_ c directions = Ok ms ->
  (forall d, In d directions -> fst d <> 0 \/ snd d <> 0) ->
  (In to_ ms <->
   exists d k,
     In d directions /\ 1 <= k /\ to_ = along from_ d k /\
     (forall j, 1 <= j <= k -> inRange (along from_ d j)) /\
     (forall j, 1 <= j < k -> vacant board (along from_ d j)) /\
     landable board c to_).
Proof.
  intros H Hd. unfold getDirectionalMoves in H. rewrite (flatMapM_In _ _ _ to_ H).
  assert (Start : forall d ys,
            ray 8 board c (fst d) (snd d) (row from_ + fst d) (col from_ + snd d) = Ok ys
            <-> ray 8 board c (fst d) (snd d) (row (along from_ d 1)) (col (along from_ d 1))
                = Ok ys).
  { intros d ys. unfold along. cbn [row col]. rewrite !Z.mul_1_l. reflexivity. }
  split.
  - intros (d & ys & Hin & Hray & Hto). apply Start in Hray.
    destruct (ray_In 8 board c d _ ys to_ Hray Hto) as (k & Hk & -> & Hr & Hclear & Hland).
    exists d, (Z.of_nat k + 1). split; [assumption|]. split; [lia|].
    split; [apply along_along|]. split; [|split; [|assumption]].
    + intros j Hj. replace j with (Z.of_nat (Z.to_nat (j - 1)) + 1) by lia.
      rewrite <- along_along. apply Hr. lia.
    + intros j Hj. replace j with (Z.of_nat (Z.to_nat (j - 1)) + 1) by lia.
      rewrite <- along_along. apply Hclear. lia.
  - intros (d & k & Hin & Hk & -> & Hr & Hclear & Hland).
    pose proof (along_inRange_bound from_ d k (Hd d Hin) Hk
                  (Hr 1 ltac:(lia)) (Hr k ltac:(lia))) as Hk8.
    destruct (flatMapM_each _ _ _ d H Hin) as [ys Hys]. exists d, ys.
    split; [assumption|]. split; [assumption|].
    apply Start in Hys. replace k with (Z.of_nat (Z.to_nat (k - 1)) + 1) by lia.
    rewrite <- along_along.
    apply (ray_reaches 8 board c d (along from_ d 1) ys (Z.to_nat (k - 1)) Hys).
    + lia.
    + intros j Hj. rewrite along_along. apply Hr. lia.
    + intros j Hj. rewrite along_along. apply Hclear. lia.
    + rewrite along_along. now replace (Z.of_nat (Z.to_nat (k - 1)) + 1) with k by lia.
Qed.

(** X6. The destinations of a sliding piece are exactly the squares reached
    from its square by [k >= 1] steps in one of its directions, all of them
    on the 8 x 8 grid, with every square passed over empty and the square
    reached empty or held by the other colour: a sliding piece never jumps
    and never lands on its own colour.  This holds for the direction lists
    of the bishop, the rook and the queen. *)
Theorem sliding_moves_are_the_clear_rays :
  forall board from_ c directions ms to_,
    getDirectionalMoves board from_ c directions = Ok ms ->
    (forall d, In d directions -> fst d <> 0 \/ snd d <> 0) ->
    (In to_ ms <->
     exists d k,
       In d directions /\ 1 <= k /\ to_ = along from_ d k /\
       (forall j, 1 <= j <= k -> inRange (along from_ d j)) /\
       (forall j, 1 <= j < k -> vacant board (along from_ d j)) /\
       landable board c to_).
Proof.
  exact getDirectionalMoves_In.
Qed.

Lemma sliding_moves_are_the_clear_rays_witness :
  In (mkPos 6 5) [mkPos 3 6; mkPos 2 5; mkPos 1 4; mkPos 0 3; mkPos 3 7; mkPos 2 7;
                  mkPos 4 6; mkPos 5 6; mkPos 6 5; mkPos 7 4; mkPos 5 7; mkPos 6 7] <->
  exists d k,
    In d [(-1, -1); (-1, 0); (-1, 1); (0, -1); (0, 1); (1, -1); (1, 0); (1, 1)] /\
    1 <= k /\ mkPos 6 5 = along (mkPos 4 7) d k /\
    (forall j, 1 <= j <= k -> inRange (along (mkPos 4 7) d j)) /\
    (forall j, 1 <= j < k -> vacant foolsMate (along (mkPos 4 7) d j)) /\
    landable foolsMate black (mkPos 6 5).
Proof.
  apply (sliding_moves_are_the_clear_rays foolsMate (mkPos 4 7) black).
  - vm_compute. reflexivity.
  - intros d Hd. simpl in Hd.
    repeat (destruct Hd as [<- | Hd]; [cbn [fst snd]; lia|]). contradiction.
Defined.

(** ** Knight and king *)

Lemma stepTo_In board from_ c offset ms to_ :
  stepTo board from_ c offset = Ok ms ->
  (In to_ ms <->
   to_ = along from_ offset 1 /\ inRange to_ /\ landable board c to_).
Proof.
  unfold stepTo. intros H.
  assert (P : mkPos (row from_ + fst offset) (col from_ + snd offset)
              = along from_ offset 1).
  { unfold along. f_equal; lia. }
  rewrite P in H. destruct (isValidPosition (along from_ offset 1)) eqn:V.
  - apply isValidPosition_spec in V. bind_inv H. inversion H; subst ms.
    destruct (isFalsy a || isEnemy a c) eqn:Ok1; split.
    + intros [<- | []]. split; [reflexivity|]. split; [assumption|]. exists a. auto.
    + intros (-> & _). now left.
    + intros [].
    + intros (-> & _ & x & Hx & Hok). rewrite Hx in E. inversion E; subst. congruence.
  - inversion H; subst ms. split; [intros [] | intros (-> & Hr & _)].
    apply isValidPosition_spec in Hr. congruence.
Qed.

Lemma stepMoves_In board from_ c offsets ms to_ :
  flatMapM (stepTo board from_ c) offsets = Ok ms ->
  (In to_ ms <->
   exists offset, In offset offsets /\ to_ = along from_ offset 1 /\
                  inRange to_ /\ landable board c to_).
Proof.
  intros H. rewrite (flatMapM_In _ _ _ to_ H). split.
  - intros (off & ys & Hin & Hs & Hto). apply (stepTo_In _ _ _ _ _ to_ Hs) in Hto.
    exists off. tauto.
  - intros (off & Hin & Hto). destruct (flatMapM_each _ _ _ off H Hin) as [ys Hys].
    exists off, ys. split; [assumption|]. split; [assumption|].
    now apply (stepTo_In _ _ _ _ _ to_ Hys).
Qed.

Lemma along_1_iff from_ to_ dr dc :
  to_ = along from_ (dr, dc) 1 <-> row to_ - row from_ = dr /\ col to_ - col from_ = dc.
Proof.
  unfold along. cbn [fst snd]. rewrite !Z.mul_1_l.
  destruct to_ as [r c]. cbn [row col]. split.
  - intros H. injection H as H1 H2. split; lia.
  - intros [H1 H2]. f_equal; lia.
Qed.

Lemma getKnightMoves_In board from_ c ms to_ :
  getKnightMoves board from_ c = Ok ms ->
  (In to_ ms <->
   inRange to_ /\
   Z.abs (row to_ - row from_) * Z.abs (col to_ - col from_) = 2 /\
   landable board c to_).
Proof.
  intros H. unfold getKnightMoves in H. rewrite (stepMoves_In _ _ _ _ _ to_ H). split.
  - intros (off & Hin & Hto & Hr & Hl). split; [assumption|]. split; [|assumption].
    cbn [In] in Hin.
    repeat (destruct Hin as [<- | Hin];
            [apply along_1_iff in Hto; destruct Hto as [-> ->]; reflexivity|]).
    contradiction.
  - intros (Hr & Hg & Hl).
    set (dr := row to_ - row from_) in *. set (dc := col to_ - col from_) in *.
    assert (Hcases : (Z.abs dr = 1 /\ Z.abs dc = 2) \/ (Z.abs dr = 2 /\ Z.abs dc = 1)).
    { pose proof (Z.abs_nonneg dr). pose proof (Z.abs_nonneg dc).
      assert (1 <= Z.abs dr) by nia. assert (1 <= Z.abs dc) by nia.
      assert (Z.abs dr <= 2) by nia.
      assert (Ha : Z.abs dr = 1 \/ Z.abs dr = 2) by lia.
      destruct Ha as [Ha|Ha]; rewrite Ha in Hg; lia. }
    exists (dr, dc). split; [|split; [now apply along_1_iff | auto]].
    cbn [In].
    assert (Hd : (dr = -2 /\ dc = -1) \/ (dr = -2 /\ dc = 1) \/ (dr = -1 /\ dc = -2) \/
                 (dr = -1 /\ dc = 2) \/ (dr = 1 /\ dc = -2) \/ (dr = 1 /\ dc = 2) \/
                 (dr = 2 /\ dc = -1) \/ (dr = 2 /\ dc = 1)) by lia.
    clear - Hd.
    repeat (destruct Hd as [[-> ->] | Hd]; [tauto|]). destruct Hd as [-> ->]. tauto.
Qed.

Lemma getKingMoves_In board from_ c ms to_ :
  getKingMoves board from_ c = Ok ms ->
  (In to_ ms <->
   inRange to_ /\
   Z.max (Z.abs (row to_ - row from_)) (Z.abs (col to_ - col from_)) = 1 /\
   landable board c to_).
Proof.
  intros H. unfold getKingMoves in H. rewrite (stepMoves_In _ _ _ _ _ to_ H). split.
  - intros (off & Hin & Hto & Hr & Hl). split; [assumption|]. split; [|assumption].
    cbn [In] in Hin.
    repeat (destruct Hin as [<- | Hin];
            [apply along_1_iff in Hto; destruct Hto as [-> ->]; reflexivity|]).
    contradiction.
  - intros (Hr & Hg & Hl).
    set (dr := row to_ - row from_) in *. set (dc := col to_ - col from_) in *.
    exists (dr, dc). split; [|split; [now apply along_1_iff | auto]].
    cbn [In].
    assert (Hd : (dr = -1 /\ dc = -1) \/ (dr = -1 /\ dc = 0) \/ (dr = -1 /\ dc = 1) \/
                 (dr = 0 /\ dc = -1) \/ (dr = 0 /\ dc = 1) \/ (dr = 1 /\ dc = -1) \/
                 (dr = 1 /\ dc = 0) \/ (dr = 1 /\ dc = 1)) by lia.
    clear - Hd.
    repeat (destruct Hd as [[-> ->] | Hd]; [tauto|]). destruct Hd as [-> ->]. tauto.
Qed.

(** X7. The destinations of a knight are exactly the squares of the 8 x 8
    grid an L-shaped jump away (row and column distances 1 and 2) that are
    empty or held by the other colour; those of a king are exactly the
    adjacent squares of the grid that are empty or held by the other colour
    (castling is never generated). *)
Theorem knight_and_king_moves :
  forall board from_ c ms to_,
    (getKnightMoves board from_ c = Ok ms ->
     (In to_ ms <->
      inRange to_ /\
      Z.abs (row to_ - row from_) * Z.abs (col to_ - col from_) = 2 /\
      landable board c to_)) /\
    (getKingMoves board from_ c = Ok ms ->
     (In to_ ms <->
      inRange to_ /\
      Z.max (Z.abs (row to_ - row from_)) (Z.abs (col to_ - col from_)) = 1 /\
      landable board c to_)).
Proof.
  intros. split; [apply getKnightMoves_In | apply getKingMoves_In].
Qed.

Lemma knight_and_king_moves_witness :
  (In (mkPos 5 2) [mkPos 5 0; mkPos 5 2] <->
   inRange (mkPos 5 2) /\ Z.abs (5 - 7) * Z.abs (2 - 1) = 2 /\
   landable INITIAL_BOARD white (mkPos 5 2)) /\
  (In (mkPos 6 5) [mkPos 6 5] <->
   inRange (mkPos 6 5) /\ Z.max (Z.abs (6 - 7)) (Z.abs (5 - 4)) = 1 /\
   landable foolsMate white (mkPos 6 5)).
Proof.
  split.
  - apply (proj1 (knight_and_king_moves INITIAL_BOARD (mkPos 7 1) white
                    [mkPos 5 0; mkPos 5 2] (mkPos 5 2))).
    vm_compute. reflexivity.
  - apply (proj2 (knight_and_king_moves foolsMate (mkPos 7 4) white
                    [mkPos 6 5] (mkPos 6 5))).
    vm_compute. reflexivity.
Defined.

(** ** Pawn *)

Lemma getPawnMoves_In board from_ c lastMove ms to_ :
  getPawnMoves board from_ c lastMove = Ok ms ->
  (In to_ ms <->
   (to_ = mkPos (row from_ + direction c) (col from_) /\ inRange to_ /\ vacant board to_)
   \/
   (to_ = mkPos (row from_ + 2 * direction c) (col from_) /\
    row from_ = startRow c /\
    inRange (mkPos (row from_ + direction c) (col from_)) /\
    vacant board (mkPos (row from_ + direction c) (col from_)) /\
    vacant board to_)
   \/
   (row to_ = row from_ + direction c /\ Z.abs (col to_ - col from_) = 1 /\
    inRange to_ /\
    (enemyAt board c to_ \/ enPassantOk from_ to_ lastMove = true))).
Proof.
  unfold getPawnMoves. fold (direction c). fold (startRow c).
  set (forward := mkPos (row from_ + direction c) (col from_)).
  set (double := mkPos (row from_ + 2 * direction c) (col from_)).
  intros H. bind_inv H. bind_inv H. inversion H; subst ms. clear H.
  rewrite in_app_iff.
  assert (Fwd : In to_ a <->
                (to_ = forward /\ inRange to_ /\ vacant board to_) \/
                (to_ = double /\ row from_ = startRow c /\ inRange forward /\
                 vacant board forward /\ vacant board to_)).
  { clear E0. destruct (isValidPosition forward) eqn:V.
    - apply isValidPosition_spec in V. bind_inv E.
      destruct (isFalsy a1) eqn:F1.
      + assert (Vf : vacant board forward) by (exists a1; auto).
        destruct (Z.eqb_spec (row from_) (startRow c)) as [Hs|Hs].
        * bind_inv E. destruct (isFalsy a2) eqn:F2; inversion E; subst a; cbn [In].
          -- split.
             ++ intros [<- | [<- | []]]; [left; auto | right].
                repeat (split; [auto|]). exists a2. auto.
             ++ intros [(-> & _) | (-> & _)]; auto.
          -- split.
             ++ intros [<- | []]. left. auto.
             ++ intros [(-> & _) | (-> & _ & _ & _ & x & Hx & Hf)]; [auto|].
                change (cellAt board (row double) (col double) = Ok x) in Hx.
                rewrite Hx in E1. inversion E1; subst. congruence.
        * inversion E; subst a. cbn [In]. split.
          -- intros [<- | []]. left. auto.
          -- intros [(-> & _) | (_ & Hs' & _)]; [auto | contradiction].
      + inversion E; subst a. cbn [In]. split; [intros []|].
        intros [(-> & _ & x & Hx & Hf) | (_ & _ & _ & (x & Hx & Hf) & _)];
          rewrite Hx in E0; inversion E0; subst; congruence.
    - inversion E; subst a. cbn [In]. split; [intros []|].
      intros [(-> & Hr & _) | (_ & _ & Hr & _)];
        apply isValidPosition_spec in Hr; congruence. }
  assert (Cap : In to_ a0 <->
                (row to_ = row from_ + direction c /\ Z.abs (col to_ - col from_) = 1 /\
                 inRange to_ /\
                 (enemyAt board c to_ \/ enPassantOk from_ to_ lastMove = true))).
  { clear E Fwd. rewrite (flatMapM_In _ _ _ to_ E0). split.
    - intros (off & ys & Hoff & Hys & Hto).
      set (capture := mkPos (row from_ + direction c) (col from_ + off)) in *.
      destruct (isValidPosition capture) eqn:V; [|inversion Hys; subst; contradiction].
      apply isValidPosition_spec in V. bind_inv Hys. inversion Hys; subst ys.
      assert (Hgeo : Z.abs (col capture - col from_) = 1).
      { unfold capture. cbn [col]. cbn [In] in Hoff. lia. }
      apply in_app_iff in Hto. destruct Hto as [Hto|Hto].
      + destruct (isEnemy a1 c) eqn:En; [|contradiction]. destruct Hto as [<- | []].
        split; [reflexivity|]. split; [assumption|]. split; [assumption|].
        left. exists a1. auto.
      + destruct (enPassantOk from_ capture lastMove) eqn:Ep; [|contradiction].
        destruct Hto as [<- | []]. auto.
    - intros (Hrow & Hcol & Hr & Hok).
      assert (Hoff : In (col to_ - col from_) [-1; 1]) by (cbn [In]; lia).
      destruct (flatMapM_each _ _ _ _ E0 Hoff) as [ys Hys].
      exists (col to_ - col from_), ys. split; [assumption|]. split; [assumption|].
      assert (Hcap : mkPos (row from_ + direction c) (col from_ + (col to_ - col from_))
                     = to_).
      { destruct to_ as [r cl]. cbn [row col] in *. f_equal; lia. }
      rewrite Hcap in Hys.
      rewrite (proj2 (isValidPosition_spec to_) Hr) in Hys. bind_inv Hys.
      inversion Hys; subst ys. apply in_app_iff.
      destruct Hok as [(x & Hx & En) | Ep].
      + left. rewrite Hx in E. inversion E; subst. rewrite En. now left.
      + right. rewrite Ep. now left. }
  rewrite Fwd, Cap. tauto.
Qed.

(** X8. The destinations of a pawn are exactly: the square one row ahead in
    its column, if on the 8 x 8 grid and empty; the square two rows ahead,
    if the pawn stands on its start row and both squares ahead are empty;
    and each square one row ahead in an adjacent column, if on the grid and
    held by the other colour, or if the en passant test on [lastMove]
    succeeds for it.  A pawn never moves backwards or sideways, and never
    captures straight ahead. *)
Theorem pawn_moves :
  forall board from_ c lastMove ms to_,
    getPawnMoves board from_ c lastMove = Ok ms ->
    (In to_ ms <->
     (to_ = mkPos (row from_ + direction c) (col from_) /\ inRange to_ /\
      vacant board to_)
     \/
     (to_ = mkPos (row from_ + 2 * direction c) (col from_) /\
      row from_ = startRow c /\
      inRange (mkPos (row from_ + direction c) (col from_)) /\
      vacant board (mkPos (row from_ + direction c) (col from_)) /\
      vacant board to_)
     \/
     (row to_ = row from_ + direction c /\ Z.abs (col to_ - col from_) = 1 /\
      inRange to_ /\
      (enemyAt board c to_ \/ enPassantOk from_ to_ lastMove = true))).
Proof.
  exact getPawnMoves_In.
Qed.

Lemma pawn_moves_witness :
  In (mkPos 4 0) [mkPos 5 0; mkPos 4 0] <->
  (mkPos 4 0 = mkPos (6 + direction white) 0 /\ inRange (mkPos 4 0) /\
   vacant INITIAL_BOARD (mkPos 4 0))
  \/
  (mkPos 4 0 = mkPos (6 + 2 * direction white) 0 /\
   6 = startRow white /\
   inRange (mkPos (6 + direction white) 0) /\
   vacant INITIAL_BOARD (mkPos (6 + direction white) 0) /\
   vacant INITIAL_BOARD (mkPos 4 0))
  \/
  (4 = 6 + direction white /\ Z.abs (0 - 0) = 1 /\
   inRange (mkPos 4 0) /\
   (enemyAt INITIAL_BOARD white (mkPos 4 0) \/
    enPassantOk (mkPos 6 0) (mkPos 4 0) None = true)).
Proof.
  apply (pawn_moves INITIAL_BOARD (mkPos 6 0) white None [mkPos 5 0; mkPos 4 0]
           (mkPos 4 0)).
  vm_compute. reflexivity.
Defined.

(** ** Legal moves *)

Lemma directions_nonzero (directions : list (Z * Z)) :
  forallb (fun d => negb ((fst d =? 0) && (snd d =? 0))) directions = true ->
  forall d, In d directions -> fst d <> 0 \/ snd d <> 0.
Proof.
  intros H d Hd. rewrite forallb_forall in H. specialize (H d Hd).
  apply negb_true_iff, andb_false_iff in H. rewrite !Z.eqb_neq in H. assumption.
Qed.

Lemma along_not_source from_ d k :
  fst d <> 0 \/ snd d <> 0 -> 1 <= k -> along from_ d k <> from_.
Proof.
  intros Hd Hk H. destruct from_ as [r c]. unfold along in H. cbn [row col] in H.
  injection H as H1 H2. destruct Hd as [Hd|Hd]; nia.
Qed.

Lemma sliding_not_source board from_ c directions ms to_ :
  forallb (fun d => negb ((fst d =? 0) && (snd d =? 0))) directions = true ->
  getDirectionalMoves board from_ c directions = Ok ms ->
  In to_ ms -> to_ <> from_ /\ landable board c to_.
Proof.
  intros Hnz H Hin. pose proof (directions_nonzero _ Hnz) as Hd.
  apply (getDirectionalMoves_In _ _ _ _ _ to_ H Hd) in Hin.
  destruct Hin as (d & k & Hdin & Hk & -> & _ & _ & Hl).
  split; [apply along_not_source; auto | assumption].
Qed.

Lemma vacant_landable board c p : vacant board p -> landable board c p.
Proof.
  intros (x & Hx & Hf). exists x. split; [assumption|]. now rewrite Hf.
Qed.

Lemma enemyAt_landable board c p : enemyAt board c p -> landable board c p.
Proof.
  intros (x & Hx & He). exists x. split; [assumption|]. rewrite He. apply orb_true_r.
Qed.

Ltac by_sliding H Hin :=
  let S := fresh "S" in
  pose proof (fun Hnz => sliding_not_source _ _ _ _ _ _ Hnz H Hin) as S;
  specialize (S eq_refl); destruct S; assumption.

Lemma pieceMoves_not_source board from_ pc lastMove ms to_ :
  pieceMoves board from_ pc lastMove = Ok ms -> In to_ ms -> to_ <> from_.
Proof.
  unfold pieceMoves, getBishopMoves, getRookMoves, getQueenMoves.
  destruct (type pc); intros H Hin.
  - apply (getPawnMoves_In _ _ _ _ _ to_ H) in Hin. intros ->.
    destruct Hin as [(Hto & _) | [(Hto & _) | (Hrow & _)]].
    + destruct from_ as [r c]. injection Hto as H1. cbn [row] in H1.
      unfold direction in H1. destruct (color pc); lia.
    + destruct from_ as [r c]. injection Hto as H1. cbn [row] in H1.
      unfold direction in H1. destruct (color pc); lia.
    + unfold direction in Hrow. destruct (color pc); lia.
  - apply (getKnightMoves_In _ _ _ _ to_ H) in Hin. destruct Hin as (_ & Hg & _).
    intros ->. rewrite !Z.sub_diag in Hg. discriminate.
  - by_sliding H Hin.
  - by_sliding H Hin.
  - by_sliding H Hin.
  - apply (getKingMoves_In _ _ _ _ to_ H) in Hin. destruct Hin as (_ & Hg & _).
    intros ->. rewrite !Z.sub_diag in Hg. discriminate.
Qed.

Lemma pieceMoves_landable board from_ pc lastMove ms to_ :
  lastMove = None \/ type pc <> pawn ->
  pieceMoves board from_ pc lastMove = Ok ms -> In to_ ms ->
  landable board (color pc) to_.
Proof.
  unfold pieceMoves, getBishopMoves, getRookMoves, getQueenMoves.
  intros Hlm. destruct (type pc); intros H Hin.
  - destruct Hlm as [-> | Hne]; [|congruence].
    apply (getPawnMoves_In _ _ _ _ _ to_ H) in Hin.
    destruct Hin as [(_ & _ & Hv) | [(_ & _ & _ & _ & Hv) | (_ & _ & _ & [He | Hep])]].
    + now apply vacant_landable.
    + now apply vacant_landable.
    + now apply enemyAt_landable.
    + discriminate.
  - apply (getKnightMoves_In _ _ _ _ to_ H) in Hin. tauto.
  - by_sliding H Hin.
  - by_sliding H Hin.
  - by_sliding H Hin.
  - apply (getKingMoves_In _ _ _ _ to_ H) in Hin. tauto.
Qed.

Lemma getValidMoves_In board from_ lastMove pc ms to_ :
  cellAt board (row from_) (col from_) = Ok (Occ pc) ->
  getValidMoves board from_ lastMove = Ok ms ->
  (In to_ ms <->
   exists ps,
     pieceMoves board from_ pc lastMove = Ok ps /\ In to_ ps /\
     exists nb, makeMove board from_ to_ = Ok nb /\ isInCheck nb (color pc) = Ok false).
Proof.
  intros Hc H. unfold getValidMoves in H. rewrite Hc in H. cbn [bind] in H.
  bind_inv H. rewrite (filterM_In _ _ _ to_ H). split.
  - intros [Hin Hk]. exists a. split; [assumption|]. split; [assumption|].
    bind_inv Hk. rewrite wouldBeInCheck_makeMove in E0. bind_inv E0.
    exists a1. split; [assumption|]. inversion Hk as [Hn].
    destruct a0; [discriminate | assumption].
  - intros (ps & Hps & Hin & nb & Hnb & Hchk). rewrite E in Hps.
    inversion Hps; subst ps. split; [assumption|]. rewrite wouldBeInCheck_makeMove, Hnb. cbn [bind].
    rewrite Hchk. reflexivity.
Qed.

(** X9. The legal destinations of a piece are exactly its pseudo-legal
    destinations after which, the piece relocated by [makeMove], its own
    colour is not in check: the legality filter drops nothing else. *)
Theorem legal_moves_are_the_safe_pseudo_legal_moves :
  forall board from_ lastMove pc ms to_,
    cellAt board (row from_) (col from_) = Ok (Occ pc) ->
    getValidMoves board from_ lastMove = Ok ms ->
    (In to_ ms <->
     exists ps,
       pieceMoves board from_ pc lastMove = Ok ps /\ In to_ ps /\
       exists nb, makeMove board from_ to_ = Ok nb /\ isInCheck nb (color pc) = Ok false).
Proof.
  exact getValidMoves_In.
Qed.

Lemma legal_moves_are_the_safe_pseudo_legal_moves_witness :
  In (mkPos 5 2) [mkPos 5 0; mkPos 5 2] <->
  exists ps,
    pieceMoves INITIAL_BOARD (mkPos 7 1) (mkPiece knight white) None = Ok ps /\
    In (mkPos 5 2) ps /\
    exists nb, makeMove INITIAL_BOARD (mkPos 7 1) (mkPos 5 2) = Ok nb /\
               isInCheck nb (color (mkPiece knight white)) = Ok false.
Proof.
  apply (legal_moves_are_the_safe_pseudo_legal_moves INITIAL_BOARD (mkPos 7 1) None
           (mkPiece knight white) [mkPos 5 0; mkPos 5 2] (mkPos 5 2)).
  - reflexivity.
  - vm_compute. reflexivity.
Defined.

Lemma getValidMoves_target board from_ lastMove pc ms to_ :
  cellAt board (row from_) (col from_) = Ok (Occ pc) ->
  getValidMoves board from_ lastMove = Ok ms -> In to_ ms ->
  to_ <> from_ /\
  (lastMove = None \/ type pc <> pawn -> landable board (color pc) to_).
Proof.
  intros Hc H Hin. apply (getValidMoves_In _ _ _ _ _ to_ Hc H) in Hin.
  destruct Hin as (ps & Hps & Hin & _). split.
  - eapply pieceMoves_not_source; eauto.
  - intros Hlm. eapply pieceMoves_landable; eauto.
Qed.

(** X10. A legal destination is never the square the piece stands on; and
    when no last move is passed (as every caller in the repository does), or
    the piece is not a pawn, the destination is empty or holds a piece of the
    other colour: a piece never captures its own colour. *)
Theorem legal_move_never_onto_own_piece :
  forall board from_ lastMove pc ms to_,
    cellAt board (row from_) (col from_) = Ok (Occ pc) ->
    getValidMoves board from_ lastMove = Ok ms -> In to_ ms ->
    to_ <> from_ /\
    (lastMove = None \/ type pc <> pawn -> landable board (color pc) to_).
Proof.
  exact getValidMoves_target.
Qed.

Lemma legal_move_never_onto_own_piece_witness :
  mkPos 5 2 <> mkPos 7 1 /\
  (@None Move = None \/ type (mkPiece knight white) <> pawn ->
   landable INITIAL_BOARD (color (mkPiece knight white)) (mkPos 5 2)).
Proof.
  apply (legal_move_never_onto_own_piece INITIAL_BOARD (mkPos 7 1) None
           (mkPiece knight white) [mkPos 5 0; mkPos 5 2] (mkPos 5 2)).
  - reflexivity.
  - vm_compute. reflexivity.
  - simpl. auto.
Defined.

(** ** Applying a move keeps the board an 8 x 8 grid *)

Lemma wf_rows_dims (board : Board) :
  forallb wf_row board = true ->
  map (@length Cell) board = repeat 8%nat (length board).
Proof.
  induction board as [|rw board IH]; cbn [forallb map length repeat]; [reflexivity|].
  intros H. apply andb_true_iff in H. destruct H as [Hrw H].
  unfold wf_row in Hrw. apply andb_true_iff in Hrw. destruct Hrw as [Hl _].
  apply Nat.eqb_eq in Hl. rewrite Hl, IH by assumption. reflexivity.
Qed.

Lemma wf_board_dims board :
  wf_board board -> map (@length Cell) board = repeat 8%nat 8.
Proof.
  unfold wf_board. intros H. apply andb_true_iff in H. destruct H as [Hl H].
  apply Nat.eqb_eq in Hl. rewrite (wf_rows_dims board H), Hl. reflexivity.
Qed.

Lemma wf_board_intro board :
  map (@length Cell) board = repeat 8%nat 8 ->
  (forall r c x, inRange (mkPos r c) -> cellAt board r c = Ok x -> isDefined x = true) ->
  wf_board board.
Proof.
  intros D Hdef. unfold wf_board.
  assert (L : length board = 8%nat).
  { rewrite <- (length_map (@length Cell)), D. reflexivity. }
  rewrite L. cbn [Nat.eqb andb]. apply forallb_forall. intros rw Hrw.
  destruct (In_nth_error _ _ Hrw) as [n Hn].
  assert (Hn8 : (n < 8)%nat).
  { rewrite <- L. apply nth_error_Some. congruence. }
  assert (Lrw : length rw = 8%nat).
  { pose proof (map_nth_error (@length Cell) _ _ Hn) as Hm. rewrite D in Hm.
    rewrite nth_error_repeat in Hm by assumption. congruence. }
  unfold wf_row. rewrite Lrw. cbn [Nat.eqb andb]. apply forallb_forall. intros x Hx.
  destruct (In_nth_error _ _ Hx) as [m Hm].
  assert (Hm8 : (m < 8)%nat).
  { rewrite <- Lrw. apply nth_error_Some. congruence. }
  apply (Hdef (Z.of_nat n) (Z.of_nat m)).
  - unfold inRange. cbn [row col]. lia.
  - unfold cellAt, index.
    destruct (Z.ltb_spec (Z.of_nat n) 0) as [Hlt|_]; [lia|].
    destruct (Z.ltb_spec (Z.of_nat m) 0) as [Hlt|_]; [lia|].
    rewrite !Nat2Z.id, Hn, Hm. reflexivity.
Qed.

Lemma makeMove_wf board from_ to_ :
  wf_board board -> inRange from_ -> inRange to_ ->
  exists nb,
    makeMove board from_ to_ = Ok nb /\
    wf_board nb /\
    forall r c,
      cellAt nb r c =
      if isAt r c from_ then Ok Null
      else if isAt r c to_ then cellAt board (row from_) (col from_)
      else cellAt board r c.
Proof.
  intros W Rf Rt.
  destruct (makeMove_spec board from_ to_ (wf_board_onBoard _ _ W Rf)
              (wf_board_onBoard _ _ W Rt)) as (nb & Hnb & D & S).
  exists nb. split; [assumption|]. split; [|assumption].
  apply wf_board_intro.
  - rewrite D. now apply wf_board_dims.
  - intros r c x Hr Hx. rewrite S in Hx.
    destruct (isAt r c from_); [inversion Hx; reflexivity|].
    destruct (isAt r c to_).
    + apply (wf_board_defined board (row from_) (col from_) x W);
        [destruct from_; exact Rf | exact Hx].
    + apply (wf_board_defined board r c x W); assumption.
Qed.

Lemma isAt_refl p : isAt (row p) (col p) p = true.
Proof. unfold isAt. now rewrite !Z.eqb_refl. Qed.

Lemma isAt_other p q : p <> q -> isAt (row p) (col p) q = false.
Proof.
  intros Hne. unfold isAt.
  destruct (Z.eqb_spec (row p) (row q)) as [Hr|Hr]; [|reflexivity].
  destruct (Z.eqb_spec (col p) (col q)) as [Hc|Hc]; [|reflexivity].
  exfalso. apply Hne. destruct p, q; cbn [row col] in *; congruence.
Qed.

(** X11. On an 8 x 8 board, relocating a piece to one of its legal
    destinations succeeds and gives an 8 x 8 board on which the piece stands
    on the destination, its former square is empty, and every other square
    is as before. *)
Theorem legal_move_relocates_the_piece :
  forall board from_ lastMove pc ms to_,
    wf_board board ->
    cellAt board (row from_) (col from_) = Ok (Occ pc) ->
    getValidMoves board from_ lastMove = Ok ms -> In to_ ms ->
    exists nb,
      makeMove board from_ to_ = Ok nb /\
      wf_board nb /\
      cellAt nb (row to_) (col to_) = Ok (Occ pc) /\
      cellAt nb (row from_) (col from_) = Ok Null /\
      (forall r c, isAt r c from_ = false -> isAt r c to_ = false ->
                   cellAt nb r c = cellAt board r c).
Proof.
  intros board from_ lastMove pc ms to_ W Hc H Hin.
  assert (Rf : inRange from_).
  { destruct (cellAt_onBoard _ _ _ Hc) as (rw & Hrw & Hcol).
    destruct (wf_board_row _ _ _ W Hrw) as [Hl _].
    apply index_Some in Hrw. pose proof (wf_board_eightRows _ W) as L.
    unfold eightRows in L. unfold inRange. lia. }
  assert (Rt : inRange to_).
  { pose proof (getValidMoves_inRange _ _ _ _ H) as Hall.
    rewrite Forall_forall in Hall. auto. }
  destruct (getValidMoves_target _ _ _ _ _ _ Hc H Hin) as [Hne _].
  destruct (makeMove_wf board from_ to_ W Rf Rt) as (nb & Hnb & Wnb & S).
  exists nb. split; [assumption|]. split; [assumption|]. split; [|split].
  - now rewrite S, (isAt_other to_ from_ Hne), isAt_refl.
  - now rewrite S, isAt_refl.
  - intros r c Hf Ht. now rewrite S, Hf, Ht.
Qed.

Lemma legal_move_relocates_the_piece_witness :
  exists nb,
    makeMove INITIAL_BOARD (mkPos 7 1) (mkPos 5 2) = Ok nb /\
    wf_board nb /\
    cellAt nb 5 2 = Ok (Occ (mkPiece knight white)) /\
    cellAt nb 7 1 = Ok Null /\
    (forall r c, isAt r c (mkPos 7 1) = false -> isAt r c (mkPos 5 2) = false ->
                 cellAt nb r c = cellAt INITIAL_BOARD r c).
Proof.
  apply (legal_move_relocates_the_piece INITIAL_BOARD (mkPos 7 1) None
           (mkPiece knight white) [mkPos 5 0; mkPos 5 2] (mkPos 5 2)).
  - reflexivity.
  - reflexivity.
  - vm_compute. reflexivity.
  - simpl. auto.
Defined.

(** ** Static evaluation is zero-sum *)

Lemma foldM_negate {A} (f g : Z -> A -> result Z) (l : list A) :
  (forall s x s', f s x = Ok s' -> g (- s) x = Ok (- s')) ->
  forall s r, foldM f l s = Ok r -> foldM g l (- s) = Ok (- r).
Proof.
  intros Hfg. induction l as [|a l IH]; cbn [foldM]; intros s r H.
  - inversion H. reflexivity.
  - bind_inv H. rewrite (Hfg _ _ _ E). cbn [bind]. auto.
Qed.

Lemma evaluateBoard_opposite board c s :
  evaluateBoard board c = Ok s -> evaluateBoard board (opposite c) = Ok (- s).
Proof.
  unfold evaluateBoard. intros H. change 0 with (- 0).
  revert H. apply foldM_negate. clear s. intros s sq s' H.
  bind_inv H. rewrite E. cbn [bind]. destruct a as [| |pc]; try (now inversion H).
  inversion H; subst s'. f_equal.
  destruct (color pc), c; cbn [PieceColor_eqb opposite]; lia.
Qed.

(** X12. The static evaluation is zero-sum: whenever [evaluateBoard] scores
    a board for one colour, it scores it with the opposite number for the
    other colour. *)
Theorem evaluateBoard_zero_sum :
  forall board c s,
    evaluateBoard board c = Ok s -> evaluateBoard board (opposite c) = Ok (- s).
Proof.
  exact evaluateBoard_opposite.
Qed.

Lemma evaluateBoard_zero_sum_witness :
  evaluateBoard foolsMate (opposite black) = Ok (- 70).
Proof.
  apply (evaluateBoard_zero_sum foolsMate black 70).
  vm_compute. reflexivity.
Defined.

(** ** The search returns finite scores and the best root move *)

Lemma nmax_finite v z : v = NegInf \/ isFinite v -> isFinite (nmax v (Fin z)).
Proof.
  intros [-> | [y ->]]; unfold nmax; cbn [nleb]; [now exists z|].
  destruct (y <=? z); eexists; reflexivity.
Qed.

Lemma nmin_finite v z : v = PosInf \/ isFinite v -> isFinite (nmin v (Fin z)).
Proof.
  intros [-> | [y ->]]; unfold nmin; cbn [nleb]; [now exists z|].
  destruct (y <=? z); eexists; reflexivity.
Qed.

Lemma maxLoop_finite board child moves maxEval alpha beta :
  eightRows board ->
  (forall m, In m moves -> inRange (from m) /\ inRange (to m)) ->
  (forall nb a b, eightRows nb -> exists z, child nb a b = Ok (Fin z)) ->
  (moves <> [] /\ maxEval = NegInf) \/ isFinite maxEval ->
  exists z, maxLoop child board moves maxEval alpha beta = Ok (Fin z).
Proof.
  intros L Hm Hc. revert maxEval alpha.
  induction moves as [|m rest IH]; intros maxEval alpha Hstart; cbn [maxLoop].
  - destruct Hstart as [[Hne _] | [z ->]]; [congruence | eauto].
  - destruct (Hm m (or_introl eq_refl)) as [[Rf _] [Rt _]].
    destruct (makeMove_total board (from m) (to m) L Rf Rt) as (nb & -> & Lnb).
    cbn [bind]. destruct (Hc nb alpha beta Lnb) as [z ->]. cbn [bind].
    assert (F : isFinite (nmax maxEval (Fin z))).
    { apply nmax_finite. destruct Hstart as [[_ ->] | F]; auto. }
    destruct (nleb beta (nmax alpha (Fin z))).
    + destruct F as [y ->]. eauto.
    + apply IH; [intros; apply Hm; now right | now right].
Qed.

Lemma minLoop_finite board child moves minEval alpha beta :
  eightRows board ->
  (forall m, In m moves -> inRange (from m) /\ inRange (to m)) ->
  (forall nb a b, eightRows nb -> exists z, child nb a b = Ok (Fin z)) ->
  (moves <> [] /\ minEval = PosInf) \/ isFinite minEval ->
  exists z, minLoop child board moves minEval alpha beta = Ok (Fin z).
Proof.
  intros L Hm Hc. revert minEval beta.
  induction moves as [|m rest IH]; intros minEval beta Hstart; cbn [minLoop].
  - destruct Hstart as [[Hne _] | [z ->]]; [congruence | eauto].
  - destruct (Hm m (or_introl eq_refl)) as [[Rf _] [Rt _]].
    destruct (makeMove_total board (from m) (to m) L Rf Rt) as (nb & -> & Lnb).
    cbn [bind]. destruct (Hc nb alpha beta Lnb) as [z ->]. cbn [bind].
    assert (F : isFinite (nmin minEval (Fin z))).
    { apply nmin_finite. destruct Hstart as [[_ ->] | F]; auto. }
    destruct (nleb (nmin beta (Fin z)) alpha).
    + destruct F as [y ->]. eauto.
    + apply IH; [intros; apply Hm; now right | now right].
Qed.

Lemma minimax_finite depth :
  forall board alpha beta maximizing c,
    eightRows board ->
    exists z, minimax board depth alpha beta maximizing c = Ok (Fin z).
Proof.
  induction depth as [|depth IH]; intros board alpha beta maximizing c L; cbn [minimax].
  - destruct (evaluateBoard_total board c L) as [s ->]. cbn [bind]. eauto.
  - set (cur := if maximizing then c else opposite c).
    destruct (isCheckmate_total board cur L) as [mate ->]. cbn [bind].
    destruct mate; [destruct maximizing; eauto|].
    destruct (getAllPossibleMoves_total board cur L) as [ms Hms]. rewrite Hms. cbn [bind].
    destruct ms as [|m ms]; [eauto|].
    pose proof (fun m' => getAllPossibleMoves_inRange board cur _ m' Hms) as Hr.
    destruct maximizing.
    + apply maxLoop_finite; auto. left. split; [discriminate | reflexivity].
    + apply minLoop_finite; auto. left. split; [discriminate | reflexivity].
Qed.

(** X13. On a board of eight rows, [minimax] returns, and what it returns is
    a finite number, for every depth and window: the initial [-Infinity] and
    [Infinity] of its loops never come out. *)
Theorem minimax_returns_a_finite_score :
  forall board depth alpha beta maximizing c,
    eightRows board ->
    exists z, minimax board depth alpha beta maximizing c = Ok (Fin z).
Proof.
  intros. now apply minimax_finite.
Qed.

Lemma minimax_returns_a_finite_score_witness :
  exists z, minimax INITIAL_BOARD 2 NegInf PosInf false black = Ok (Fin z).
Proof.
  apply (minimax_returns_a_finite_score INITIAL_BOARD 2 NegInf PosInf false black).
  reflexivity.
Defined.

Lemma nltb_nleb_trans x y z : nltb x y = true -> nleb y z = true -> nltb x z = true.
Proof. num_solve. Qed.

Lemma nleb_nltb_trans x y z : nleb x y = true -> nltb y z = true -> nltb x z = true.
Proof. num_solve. Qed.

Lemma nltb_false_nleb x y : nltb x y = false -> nleb y x = true.
Proof. unfold nltb. intros H. now apply negb_false_iff in H. Qed.

Lemma nltb_nleb x y : nltb x y = true -> nleb x y = true.
Proof. num_solve. Qed.

Lemma nleb_NegInf x y : nleb x NegInf = true -> nleb x y = true.
Proof. num_solve. Qed.

Section BestLoop.

Variable score : Board -> result Num.
Variable board : Board.

Lemma bestLoop_argmax moves :
  forall bestMove bestValue best,
    bestLoop score board moves bestMove bestValue = Ok best ->
    (best = bestMove /\
     forall m, In m moves -> exists v', loopScore score board m = Ok v' /\ nleb v' bestValue = true)
    \/
    (exists l1 l2 v,
       moves = l1 ++ best :: l2 /\ loopScore score board best = Ok v /\ nltb bestValue v = true /\
       (forall m, In m l1 -> exists v', loopScore score board m = Ok v' /\ nltb v' v = true) /\
       (forall m, In m l2 -> exists v', loopScore score board m = Ok v' /\ nleb v' v = true)).
Proof.
  induction moves as [|m rest IH]; intros bestMove bestValue best H; cbn [bestLoop] in H.
  - inversion H. left. split; [reflexivity | intros m []].
  - bind_inv H. bind_inv H.
    assert (Hsc : loopScore score board m = Ok a0) by (unfold loopScore; rewrite E; exact E0).
    destruct (nltb bestValue a0) eqn:Hlt.
    + destruct (IH _ _ _ H) as [[-> Hall] | (l1 & l2 & v & -> & Hv & Hgt & H1 & H2)].
      * right. exists [], rest, a0. split; [reflexivity|]. split; [assumption|].
        split; [assumption|]. split; [intros m' []|assumption].
      * right. exists (m :: l1), l2, v. split; [reflexivity|]. split; [assumption|].
        split; [eapply nltb_nleb_trans; [exact Hlt | now apply nltb_nleb]|].
        split; [|assumption].
        intros m' [<- | Hm']; [eauto | auto].
    + apply nltb_false_nleb in Hlt.
      destruct (IH _ _ _ H) as [[-> Hall] | (l1 & l2 & v & -> & Hv & Hgt & H1 & H2)].
      * left. split; [reflexivity|]. intros m' [<- | Hm']; [eauto | auto].
      * right. exists (m :: l1), l2, v. split; [reflexivity|]. split; [assumption|].
        split; [assumption|]. split; [|assumption].
        intros m' [<- | Hm']; [|auto].
        exists a0. split; [assumption|]. eapply nleb_nltb_trans; eauto.
Qed.

Lemma bestLoop_first_best first rest best :
  bestLoop score board (first :: rest) first NegInf = Ok best ->
  exists l1 l2 v,
    first :: rest = l1 ++ best :: l2 /\ loopScore score board best = Ok v /\
    (forall m, In m l1 -> exists v', loopScore score board m = Ok v' /\ nltb v' v = true) /\
    (forall m, In m l2 -> exists v', loopScore score board m = Ok v' /\ nleb v' v = true).
Proof.
  intros H. destruct (bestLoop_argmax _ _ _ _ H)
    as [[-> Hall] | (l1 & l2 & v & Hl & Hv & _ & H1 & H2)].
  - destruct (Hall first (or_introl eq_refl)) as (v & Hv & _).
    exists [], rest, v. split; [reflexivity|]. split; [assumption|].
    split; [intros m []|]. intros m Hm.
    destruct (Hall m (or_intror Hm)) as (v' & Hv' & Hle).
    exists v'. split; [assumption | now apply nleb_NegInf].
  - exists l1, l2, v. auto.
Qed.

End BestLoop.

Lemma getBestMove_search_result board c difficulty random best :
  difficulty <> easy \/ Qltb (random 0%nat) 0.5 = false ->
  getBestMove board c difficulty random = Ok (Chosen best) ->
  let depth := match difficulty with easy => 0 | medium => 1 | hard => 2 end%nat in
  exists l1 l2 v,
    getAllPossibleMoves board c = Ok (l1 ++ best :: l2) /\
    rootScore board c depth best = Ok v /\
    (forall m, In m l1 ->
       exists v', rootScore board c depth m = Ok v' /\ nltb v' v = true) /\
    (forall m, In m l2 ->
       exists v', rootScore board c depth m = Ok v' /\ nleb v' v = true).
Proof.
  intros Hd H depth. unfold getBestMove in H. bind_inv H.
  destruct a as [|first rest]; [discriminate|].
  assert (Hb : bestLoop (fun nb => minimax nb depth NegInf PosInf false c)
                 board (first :: rest) first NegInf = Ok best).
  { destruct difficulty.
    - destruct Hd as [Hd | Hd]; [congruence|]. rewrite Hd in H.
      bind_inv H. inversion H; subst. exact E0.
    - bind_inv H. inversion H; subst. exact E0.
    - bind_inv H. inversion H; subst. exact E0. }
  destruct (bestLoop_first_best _ _ _ _ _ Hb) as (l1 & l2 & v & Hl & Hv & H1 & H2).
  exists l1, l2, v. rewrite <- Hl. auto.
Qed.

(** X14. When [getBestMove] searches (at medium and hard, and at easy when
    the first random value is not below 0.5) and returns a move, that move
    has the greatest score among the enumerated moves and is the first with
    that score: every move enumerated before it has a strictly smaller
    score, every move after it a score not greater.  The score of a move is
    the alpha-beta search, 0, 1 or 2 plies deep, of the board it leads to. *)
Theorem getBestMove_returns_first_best_move :
  forall board c difficulty random best,
    difficulty <> easy \/ Qltb (random 0%nat) 0.5 = false ->
    getBestMove board c difficulty random = Ok (Chosen best) ->
    let depth := match difficulty with easy => 0 | medium => 1 | hard => 2 end%nat in
    exists l1 l2 v,
      getAllPossibleMoves board c = Ok (l1 ++ best :: l2) /\
      rootScore board c depth best = Ok v /\
      (forall m, In m l1 ->
         exists v', rootScore board c depth m = Ok v' /\ nltb v' v = true) /\
      (forall m, In m l2 ->
         exists v', rootScore board c depth m = Ok v' /\ nleb v' v = true).
Proof.
  exact getBestMove_search_result.
Qed.

Lemma getBestMove_returns_first_best_move_witness :
  exists l1 l2 v,
    getAllPossibleMoves INITIAL_BOARD white = Ok (l1 ++ mkFromTo (mkPos 6 0) (mkPos 4 0) :: l2) /\
    rootScore INITIAL_BOARD white 1 (mkFromTo (mkPos 6 0) (mkPos 4 0)) = Ok v /\
    (forall m, In m l1 ->
       exists v', rootScore INITIAL_BOARD white 1 m = Ok v' /\ nltb v' v = true) /\
    (forall m, In m l2 ->
       exists v', rootScore INITIAL_BOARD white 1 m = Ok v' /\ nleb v' v = true).
Proof.
  apply (getBestMove_returns_first_best_move INITIAL_BOARD white medium (fun _ => 0%Q)).
  - left. discriminate.
  - vm_compute. reflexivity.
Defined.

(** ** The random branch of the easy bot *)

Lemma captureTest_true board m :
  (target <- cellAt board (row (to m)) (col (to m)) ;;
   Ok (match target with Null => false | _ => true end)) = Ok true
  <-> isCapture board m.
Proof.
  unfold isCapture. split.
  - intros H. bind_inv H. exists a. split; [assumption|]. intros ->. discriminate.
  - intros (x & -> & Hx). cbn [bind]. destruct x; [reflexivity | congruence | reflexivity].
Qed.

Lemma getBestMove_easy_capture board c random ms :
  eightRows board ->
  Qltb (random 0%nat) 0.5 = true ->
  Qltb (random 1%nat) (fl64 0.7) = true ->
  isRandomValue (random 2%nat) = true ->
  getAllPossibleMoves board c = Ok ms ->
  (exists m', In m' ms /\ isCapture board m') ->
  exists m,
    getBestMove board c easy random = Ok (Chosen m) /\
    In m ms /\ isCapture board m.
Proof.
  intros L H0 H1 H2 Hms (m' & Hm' & Hcap).
  pose proof (fun m => getAllPossibleMoves_inRange board c _ m Hms) as Hr.
  unfold getBestMove. rewrite Hms. cbn [bind].
  destruct ms as [|first rest]; [contradiction|].
  rewrite H0.
  match goal with
  | |- context [filterM ?f (first :: rest)] =>
      destruct (filterM_total f (first :: rest)) as [captures E]
  end.
  { intros m Hm. destruct (Hr m Hm) as [_ Rt].
    destruct (cellAt_inRange board (to m) L Rt) as [x ->]. cbn [bind]. eauto. }
  rewrite E. cbn [bind].
  assert (Hin' : In m' captures).
  { apply (filterM_In _ _ _ m' E). split; [assumption | now apply captureTest_true]. }
  destruct captures as [|cp cps]; [contradiction|]. rewrite H1.
  destruct (pick_in_unit_interval (cp :: cps) (random 2%nat)) as (m & Hp & Hm);
    [discriminate | assumption |].
  exists m. rewrite Hp. split; [reflexivity|].
  apply (filterM_In _ _ _ m E) in Hm. destruct Hm as [Hin Hf].
  split; [assumption | now apply captureTest_true].
Qed.

(** X15. At easy difficulty, on a board of eight rows, when the first value
    of [Math.random] is below 0.5, the second is below the Number that the
    literal [0.7] denotes, the third is a value that [Math.random] may
    return, and some enumerated move lands on a square that is not [null],
    [getBestMove] returns an enumerated move that lands on such a square:
    the random branch then only picks captures. *)
Theorem easy_random_branch_picks_a_capture :
  forall board c random ms,
    eightRows board ->
    Qltb (random 0%nat) 0.5 = true ->
    Qltb (random 1%nat) (fl64 0.7) = true ->
    isRandomValue (random 2%nat) = true ->
    getAllPossibleMoves board c = Ok ms ->
    (exists m', In m' ms /\ isCapture board m') ->
    exists m,
      getBestMove board c easy random = Ok (Chosen m) /\
      In m ms /\ isCapture board m.
Proof.
  exact getBestMove_easy_capture.
Qed.

Lemma easy_random_branch_picks_a_capture_witness :
  exists m,
    getBestMove afterE4D5 white easy (fun _ => 0.25%Q) = Ok (Chosen m) /\
    isCapture afterE4D5 m.
Proof.
  edestruct (easy_random_branch_picks_a_capture afterE4D5 white (fun _ => 0.25%Q))
    as (m & H1 & _ & H3).
  - reflexivity.
  - reflexivity.
  - reflexivity.
  - reflexivity.
  - vm_compute. reflexivity.
  - exists (mkFromTo (mkPos 4 4) (mkPos 3 3)). split.
    + cbn [In]. tauto.
    + exists bP. split; [reflexivity | discriminate].
  - exists m. split; assumption.
Defined.

(** ** The board component *)

Import ChessBoard.

Lemma isHighlighted_In st r c :
  isHighlighted st r c = true <-> In (mkPos r c) (validMoves st).
Proof.
  unfold isHighlighted. rewrite existsb_exists. split.
  - intros (move & Hin & He). apply andb_true_iff in He. rewrite !Z.eqb_eq in He.
    destruct He as [<- <-]. now destruct move.
  - intros Hin. exists (mkPos r c). split; [assumption|]. cbn [row col].
    now rewrite !Z.eqb_refl.
Qed.

Lemma isOwn_true piece_ c :
  isOwn piece_ c = true <-> exists pc, piece_ = Occ pc /\ color pc = c.
Proof.
  unfold isOwn. destruct piece_ as [| |pc].
  - split; [discriminate | intros (pc & H & _); discriminate].
  - split; [discriminate | intros (pc & H & _); discriminate].
  - rewrite PieceColor_eqb_eq. split; [eauto | intros (pc' & H & Hc); congruence].
Qed.

(** The three statements that relocate a piece in the component are those
    of [makeMove]. *)
Lemma relocate_makeMove board0 from_ r c (k : Cell -> Board -> result GameState) :
  (movingPiece <- cellAt (copyBoard board0) (row from_) (col from_) ;;
   newBoard1 <- setCell (copyBoard board0) r c movingPiece ;;
   newBoard2 <- setCell newBoard1 (row from_) (col from_) Null ;;
   k movingPiece newBoard2)
  = (movingPiece <- cellAt board0 (row from_) (col from_) ;;
     newBoard2 <- makeMove board0 from_ (mkPos r c) ;;
     k movingPiece newBoard2).
Proof.
  unfold makeMove. rewrite copyBoard_id. cbn [row col].
  destruct (cellAt board0 (row from_) (col from_)) as [x|]; cbn [bind]; [|reflexivity].
  destruct (setCell board0 r c x) as [b1|]; cbn [bind]; reflexivity.
Qed.

Lemma select_spec st r c st' pc :
  cellAt (board st) r c = Ok (Occ pc) -> color pc = currentPlayer st ->
  select st r c = Ok st' ->
  coherent st' /\ board st' = board st /\ currentPlayer st' = currentPlayer st /\
  moveHistory st' = moveHistory st /\ isThinking st' = isThinking st.
Proof.
  intros Hc Hcol H. unfold select in H. bind_inv H. inversion H; subst st'.
  cbn. split; [|auto]. exists pc. auto.
Qed.

Lemma handleSquareClick_spec mode st r c st' :
  coherent st ->
  handleSquareClick mode st r c = Ok st' ->
  coherent st' /\
  ((board st' = board st /\ currentPlayer st' = currentPlayer st /\
    moveHistory st' = moveHistory st /\ isThinking st' = isThinking st)
   \/
   (exists sel pc,
      selectedSquare st = Some sel /\
      cellAt (board st) (row sel) (col sel) = Ok (Occ pc) /\
      color pc = currentPlayer st /\
      getValidMoves (board st) sel None = Ok (validMoves st) /\
      In (mkPos r c) (validMoves st) /\
      makeMove (board st) sel (mkPos r c) = Ok (board st') /\
      isInCheck (board st') (currentPlayer st) = Ok false /\
      currentPlayer st' = opposite (currentPlayer st) /\
      selectedSquare st' = None /\
      moveHistory st'
      = moveHistory st ++ [historyEntry sel (mkPos r c) (JSString.ofPieceType (type pc))])).
Proof.
  intros Hco H. unfold handleSquareClick in H.
  destruct (isThinking st) eqn:Th.
  { inversion H; subst. split; [assumption|]. left. repeat split; congruence. }
  match type of H with
  | (if ?g then _ else _) = _ => destruct g
  end.
  { inversion H; subst. split; [assumption|]. left. repeat split; congruence. }
  bind_inv H. unfold coherent in Hco.
  destruct (selectedSquare st) as [sel|] eqn:Hsel.
  - destruct Hco as (pc & Hpc & Hcol & Hvm).
    destruct (isHighlighted st r c) eqn:Hh.
    + apply isHighlighted_In in Hh.
      cbv zeta in H.
      rewrite (relocate_makeMove (board st) sel r c
                 (fun movingPiece newBoard2 =>
                    Ok (mkState newBoard2 None [] (opposite (currentPlayer st))
                          (moveHistory st
                           ++ [historyEntry sel (mkPos r c) (typeOrEmpty movingPiece)])
                          false))) in H.
      rewrite Hpc in H. cbn [bind] in H. bind_inv H. inversion H; subst st'. cbn.
      split; [reflexivity|]. right. exists sel, pc.
      apply (getValidMoves_In _ _ _ _ _ (mkPos r c) Hpc Hvm) in Hh as Hlegal.
      destruct Hlegal as (ps & _ & _ & nb & Hnb & Hchk).
      rewrite E0 in Hnb. inversion Hnb; subst nb. rewrite Hcol in Hchk.
      repeat (split; [first [reflexivity | assumption]|]). reflexivity.
    + destruct (isOwn a (currentPlayer st)) eqn:Own.
      * apply isOwn_true in Own. destruct Own as (pc' & -> & Hcol').
        destruct (select_spec st r c st' pc' E Hcol' H) as (Hco' & ? & ? & ? & ?).
        split; [assumption|]. left. repeat split; congruence.
      * inversion H; subst st'. cbn. split; [reflexivity|]. left.
        repeat split; congruence.
  - destruct (isOwn a (currentPlayer st)) eqn:Own.
    + apply isOwn_true in Own. destruct Own as (pc' & -> & Hcol').
      destruct (select_spec st r c st' pc' E Hcol' H) as (Hco' & ? & ? & ? & ?).
        split; [assumption|]. left. repeat split; congruence.
    + inversion H; subst st'. split; [unfold coherent; now rewrite Hsel|]. left.
      repeat split; congruence.
Qed.

(** X16. Starting from a state whose selection agrees with its board (as the
    initial state does), a click leaves the selection in agreement with the
    board, and either leaves board, turn and history as they were, or plays
    a move of the selected piece of the player to move to one of its legal
    destinations: the new board is [makeMove] of the old one, the mover is
    not in check on it, the turn passes to the other colour, the selection
    is cleared and one entry is appended to the history. *)
Theorem click_plays_only_legal_moves :
  forall mode st r c st',
    coherent st ->
    handleSquareClick mode st r c = Ok st' ->
    coherent st' /\
    ((board st' = board st /\ currentPlayer st' = currentPlayer st /\
      moveHistory st' = moveHistory st /\ isThinking st' = isThinking st)
     \/
     (exists sel pc,
        selectedSquare st = Some sel /\
        cellAt (board st) (row sel) (col sel) = Ok (Occ pc) /\
        color pc = currentPlayer st /\
        getValidMoves (board st) sel None = Ok (validMoves st) /\
        In (mkPos r c) (validMoves st) /\
        makeMove (board st) sel (mkPos r c) = Ok (board st') /\
        isInCheck (board st') (currentPlayer st) = Ok false /\
        currentPlayer st' = opposite (currentPlayer st) /\
        selectedSquare st' = None /\
        moveHistory st'
        = moveHistory st
          ++ [historyEntry sel (mkPos r c) (JSString.ofPieceType (type pc))])).
Proof.
  exact handleSquareClick_spec.
Qed.

Lemma click_plays_only_legal_moves_witness :
  exists st',
    handleSquareClick player e2Selected 4 4 = Ok st' /\
    coherent st' /\
    ((board st' = board e2Selected /\ currentPlayer st' = currentPlayer e2Selected /\
      moveHistory st' = moveHistory e2Selected /\
      isThinking st' = isThinking e2Selected)
     \/
     (exists sel pc,
        selectedSquare e2Selected = Some sel /\
        cellAt (board e2Selected) (row sel) (col sel) = Ok (Occ pc) /\
        color pc = currentPlayer e2Selected /\
        getValidMoves (board e2Selected) sel None = Ok (validMoves e2Selected) /\
        In (mkPos 4 4) (validMoves e2Selected) /\
        makeMove (board e2Selected) sel (mkPos 4 4) = Ok (board st') /\
        isInCheck (board st') (currentPlayer e2Selected) = Ok false /\
        currentPlayer st' = opposite (currentPlayer e2Selected) /\
        selectedSquare st' = None /\
        moveHistory st'
        = moveHistory e2Selected
          ++ [historyEntry sel (mkPos 4 4) (JSString.ofPieceType (type pc))])).
Proof.
  eexists. split; [vm_compute; reflexivity|].
  apply (click_plays_only_legal_moves player e2Selected 4 4).
  - exists (mkPiece pawn white). split; [reflexivity|]. split; [reflexivity|].
    vm_compute. reflexivity.
  - vm_compute. reflexivity.
Defined.

Lemma getBestMove_total_In board0 c difficulty random :
  eightRows board0 ->
  exists res,
    getBestMove board0 c difficulty random = Ok res /\
    forall m, res = Chosen m ->
      exists ms, getAllPossibleMoves board0 c = Ok ms /\ In m ms.
Proof.
  intros L. destruct (getAllPossibleMoves_total board0 c L) as [ms Hms].
  pose proof (fun m' => getAllPossibleMoves_inRange board0 c _ m' Hms) as Hr.
  unfold getBestMove. rewrite Hms. cbn [bind].
  destruct ms as [|first rest].
  { exists NullMove. split; [reflexivity|]. intros m Hm. discriminate. }
  set (ms := first :: rest) in *.
  assert (Search : forall depth,
    exists res,
      (best <- bestLoop (fun nb => minimax nb depth NegInf PosInf false c)
                 board0 ms first NegInf ;;
       Ok (Chosen best)) = Ok res /\
      forall m, res = Chosen m -> exists ms', Ok ms = Ok ms' /\ In m ms').
  { intros depth.
    destruct (bestLoop_total board0 L (fun nb => minimax nb depth NegInf PosInf false c)
                ms first NegInf Hr) as [best Hb].
    { intros nb Lnb. now apply minimax_total. }
    rewrite Hb. cbn [bind]. exists (Chosen best). split; [reflexivity|].
    intros m Hm. inversion Hm; subst. exists ms. split; [reflexivity|].
    apply bestLoop_In in Hb. destruct Hb as [-> | Hb]; [now left | assumption]. }
  assert (Pick : forall l r, (forall m, In m l -> In m ms) ->
    exists res, Ok (pick l r) = Ok res /\
      forall m, res = Chosen m -> exists ms', Ok ms = Ok ms' /\ In m ms').
  { intros l r Hl. exists (pick l r). split; [reflexivity|].
    intros m Hm. exists ms. split; [reflexivity|]. apply Hl. eapply pick_In; eauto. }
  destruct difficulty; try apply Search.
  destruct (Qltb (random 0%nat) 0.5); [|apply Search].
  match goal with
  | |- context [filterM ?f ms] =>
      destruct (filterM_total f ms) as [captures Hcap]
  end.
  { intros m Hm. destruct (Hr m Hm) as [_ Rt].
    destruct (cellAt_inRange board0 (to m) L Rt) as [x ->]. cbn [bind]. eauto. }
  rewrite Hcap. cbn [bind].
  assert (Hsub : forall m, In m captures -> In m ms).
  { intros m Hm. now apply (filterM_In _ _ _ m Hcap) in Hm. }
  destruct captures as [|cp captures]; [now apply Pick|].
  destruct (Qltb (random 1%nat) (fl64 0.7)); now apply Pick.
Qed.

Lemma botMove_spec difficulty random st :
  eightRows (board st) ->
  selectedSquare st = None -> validMoves st = [] ->
  exists st',
    botMove difficulty random st = Ok st' /\
    coherent st' /\ isThinking st' = false /\
    ((board st' = board st /\ currentPlayer st' = currentPlayer st /\
      moveHistory st' = moveHistory st)
     \/
     (exists m ms pc tos,
        getAllPossibleMoves (board st) black = Ok ms /\ In m ms /\
        cellAt (board st) (row (from m)) (col (from m)) = Ok (Occ pc) /\
        color pc = black /\
        getValidMoves (board st) (from m) None = Ok tos /\ In (to m) tos /\
        makeMove (board st) (from m) (to m) = Ok (board st') /\
        isInCheck (board st') black = Ok false /\
        currentPlayer st' = white /\
        moveHistory st'
        = moveHistory st
          ++ [historyEntry (from m) (to m) (JSString.ofPieceType (type pc))])).
Proof.
  intros L Hsel Hvm. unfold botMove.
  destruct (getBestMove_total_In (board st) black difficulty random L)
    as (res & -> & Hres).
  cbn [bind].
  assert (Idle : exists st',
            Ok (mkState (board st) (selectedSquare st) (validMoves st) (currentPlayer st)
                  (moveHistory st) false) = Ok st' /\
            coherent st' /\ isThinking st' = false /\
            ((board st' = board st /\ currentPlayer st' = currentPlayer st /\
              moveHistory st' = moveHistory st) \/ False)).
  { eexists. split; [reflexivity|]. split; [|split; [reflexivity | left; auto]].
    unfold coherent. cbn. now rewrite Hsel. }
  destruct res as [| |m].
  - destruct Idle as (st' & H1 & H2 & H3 & [H4 | []]). exists st'. auto.
  - destruct Idle as (st' & H1 & H2 & H3 & [H4 | []]). exists st'. auto.
  - clear Idle. destruct (Hres m eq_refl) as (ms & Hms & Hin).
    apply (getAllPossibleMoves_In _ _ _ m Hms) in Hin as Hm.
    destruct Hm as (pc & tos & Hsq & Hpc & Hcol & Htos & Hto).
    apply (getValidMoves_In _ _ _ _ _ (to m) Hpc Htos) in Hto as Hlegal.
    destruct Hlegal as (ps & _ & _ & nb & Hnb & Hchk). rewrite Hcol in Hchk.
    cbv zeta.
    rewrite (relocate_makeMove (board st) (from m) (row (to m)) (col (to m))
               (fun piece_ newBoard2 =>
                  Ok (mkState newBoard2 (selectedSquare st) (validMoves st) white
                        (moveHistory st
                         ++ [historyEntry (from m) (to m) (typeOrEmpty piece_)])
                        false))).
    rewrite Hpc. cbn [bind].
    replace (mkPos (row (to m)) (col (to m))) with (to m) by (destruct (to m); reflexivity).
    rewrite Hnb. cbn [bind]. eexists. split; [reflexivity|]. cbn.
    split; [unfold coherent; cbn; now rewrite Hsel|]. split; [reflexivity|].
    right. exists m, ms, pc, tos.
    repeat (split; [first [assumption | reflexivity]|]). reflexivity.
Qed.

(** The callback of the bot when [Math.random] returns what it may: it
    plays exactly when black has a move. *)
Lemma botMove_plays difficulty random st :
  eightRows (board st) ->
  selectedSquare st = None -> validMoves st = [] ->
  (forall n, isRandomValue (random n) = true) ->
  exists ms st',
    getAllPossibleMoves (board st) black = Ok ms /\
    botMove difficulty random st = Ok st' /\
    coherent st' /\ isThinking st' = false /\
    ((ms = [] /\
      getBestMove (board st) black difficulty random = Ok NullMove /\
      board st' = board st /\ currentPlayer st' = currentPlayer st /\
      moveHistory st' = moveHistory st)
     \/
     (exists m pc tos,
        getBestMove (board st) black difficulty random = Ok (Chosen m) /\
        In m ms /\
        cellAt (board st) (row (from m)) (col (from m)) = Ok (Occ pc) /\
        color pc = black /\
        getValidMoves (board st) (from m) None = Ok tos /\ In (to m) tos /\
        makeMove (board st) (from m) (to m) = Ok (board st') /\
        isInCheck (board st') black = Ok false /\
        currentPlayer st' = white /\
        moveHistory st'
        = moveHistory st
          ++ [historyEntry (from m) (to m) (JSString.ofPieceType (type pc))])).
Proof.
  intros L Hsel Hvm Hrand.
  destruct (getBestMove_null_or_move (board st) black difficulty random L Hrand)
    as (ms & res & Hms & Hres & Hnull & Hor).
  exists ms. unfold botMove. rewrite Hres. cbn [bind].
  destruct Hor as [-> | (m & -> & Hin)].
  - eexists. split; [assumption|]. split; [reflexivity|]. cbn.
    split; [unfold coherent; cbn; now rewrite Hsel|]. split; [reflexivity|].
    left. split; [now apply Hnull|]. auto.
  - apply (getAllPossibleMoves_In _ _ _ m Hms) in Hin as Hm.
    destruct Hm as (pc & tos & Hsq & Hpc & Hcol & Htos & Hto).
    apply (getValidMoves_In _ _ _ _ _ (to m) Hpc Htos) in Hto as Hlegal.
    destruct Hlegal as (ps & _ & _ & nb & Hnb & Hchk). rewrite Hcol in Hchk.
    cbv zeta.
    rewrite (relocate_makeMove (board st) (from m) (row (to m)) (col (to m))
               (fun piece_ newBoard2 =>
                  Ok (mkState newBoard2 (selectedSquare st) (validMoves st) white
                        (moveHistory st
                         ++ [historyEntry (from m) (to m) (typeOrEmpty piece_)])
                        false))).
    rewrite Hpc. cbn [bind].
    replace (mkPos (row (to m)) (col (to m))) with (to m) by (destruct (to m); reflexivity).
    rewrite Hnb. cbn [bind]. eexists. split; [assumption|]. split; [reflexivity|]. cbn.
    split; [unfold coherent; cbn; now rewrite Hsel|]. split; [reflexivity|].
    right. exists m, pc, tos.
    repeat (split; [first [assumption | reflexivity]|]). reflexivity.
Qed.

(** X17. On a board of eight rows, with no square selected and with values
    that [Math.random] may return, the bot's callback returns with
    [isThinking] false and the selection in agreement with the board.  When
    black has no legal move, [getBestMove] is [null] and board, turn and
    history are as they were.  Otherwise black plays the move that
    [getBestMove] returns, one of the moves enumerated for it and a legal
    destination of a black piece: the new board is [makeMove] of the old
    one, black is not in check on it, the turn is white's and one entry is
    appended to the history. *)
Theorem bot_plays_only_legal_moves :
  forall difficulty random st,
    eightRows (board st) ->
    selectedSquare st = None -> validMoves st = [] ->
    (forall n, isRandomValue (random n) = true) ->
    exists ms st',
      getAllPossibleMoves (board st) black = Ok ms /\
      botMove difficulty random st = Ok st' /\
      coherent st' /\ isThinking st' = false /\
      ((ms = [] /\
        getBestMove (board st) black difficulty random = Ok NullMove /\
        board st' = board st /\ currentPlayer st' = currentPlayer st /\
        moveHistory st' = moveHistory st)
       \/
       (exists m pc tos,
          getBestMove (board st) black difficulty random = Ok (Chosen m) /\
          In m ms /\
          cellAt (board st) (row (from m)) (col (from m)) = Ok (Occ pc) /\
          color pc = black /\
          getValidMoves (board st) (from m) None = Ok tos /\ In (to m) tos /\
          makeMove (board st) (from m) (to m) = Ok (board st') /\
          isInCheck (board st') black = Ok false /\
          currentPlayer st' = white /\
          moveHistory st'
          = moveHistory st
            ++ [historyEntry (from m) (to m) (JSString.ofPieceType (type pc))])).
Proof.
  exact botMove_plays.
Qed.

Lemma bot_plays_only_legal_moves_witness :
  exists ms st',
    getAllPossibleMoves (board botToMove) black = Ok ms /\
    botMove easy (fun _ => 0.25%Q) botToMove = Ok st' /\
    coherent st' /\ isThinking st' = false /\
    ((ms = [] /\
      getBestMove (board botToMove) black easy (fun _ => 0.25%Q) = Ok NullMove /\
      board st' = board botToMove /\ currentPlayer st' = currentPlayer botToMove /\
      moveHistory st' = moveHistory botToMove)
     \/
     (exists m pc tos,
        getBestMove (board botToMove) black easy (fun _ => 0.25%Q) = Ok (Chosen m) /\
        In m ms /\
        cellAt (board botToMove) (row (from m)) (col (from m)) = Ok (Occ pc) /\
        color pc = black /\
        getValidMoves (board botToMove) (from m) None = Ok tos /\ In (to m) tos /\
        makeMove (board botToMove) (from m) (to m) = Ok (board st') /\
        isInCheck (board st') black = Ok false /\
        currentPlayer st' = white /\
        moveHistory st'
        = moveHistory botToMove
          ++ [historyEntry (from m) (to m) (JSString.ofPieceType (type pc))])).
Proof.
  apply (bot_plays_only_legal_moves easy (fun _ => 0.25%Q) botToMove);
    [reflexivity | reflexivity | reflexivity | intros n; reflexivity].
Defined.

Lemma checkGameEnd_spec st :
  eightRows (board st) ->
  exists chk ms,
    isInCheck (board st) (currentPlayer st) = Ok chk /\
    getAllPossibleMoves (board st) (currentPlayer st) = Ok ms /\
    checkGameEnd st
    = Ok (if isEmptyList ms then
            Some (if chk then
                    JSString.checkmatePrefix ++ winnerName (currentPlayer st)
                    ++ JSString.winsSuffix
                  else JSString.stalemateMessage)
          else None).
Proof.
  intros L.
  destruct (game_end_predicates (board st) (currentPlayer st) L)
    as (chk & ms & Hchk & Hms & Hcm & Hsm).
  exists chk, ms. split; [assumption|]. split; [assumption|].
  unfold checkGameEnd. rewrite Hcm. cbn [bind].
  destruct chk, (isEmptyList ms); cbn [andb negb]; rewrite ?Hsm; cbn [bind andb negb];
    reflexivity.
Qed.

(** X18. On a board of eight rows, [checkGameEnd] reports the end of the
    game exactly when the player to move has no enumerated move: the
    checkmate message, naming the other colour as winner, if that player is
    in check, and the stalemate message if not. *)
Theorem checkGameEnd_reports_no_moves :
  forall st,
    eightRows (board st) ->
    exists chk ms,
      isInCheck (board st) (currentPlayer st) = Ok chk /\
      getAllPossibleMoves (board st) (currentPlayer st) = Ok ms /\
      checkGameEnd st
      = Ok (if isEmptyList ms then
              Some (if chk then
                      JSString.checkmatePrefix ++ winnerName (currentPlayer st)
                      ++ JSString.winsSuffix
                    else JSString.stalemateMessage)
            else None).
Proof.
  exact checkGameEnd_spec.
Qed.

Lemma checkGameEnd_reports_no_moves_witness :
  exists chk ms,
    isInCheck foolsMate white = Ok chk /\
    getAllPossibleMoves foolsMate white = Ok ms /\
    checkGameEnd (mkState foolsMate None [] white [] false)
    = Ok (if isEmptyList ms then
            Some (if chk then
                    JSString.checkmatePrefix ++ winnerName white ++ JSString.winsSuffix
                  else JSString.stalemateMessage)
          else None).
Proof.
  apply (checkGameEnd_reports_no_moves (mkState foolsMate None [] white [] false)).
  reflexivity.
Defined.

Lemma squareName_inRange p :
  inRange p -> squareName p = [97 + col p; 56 - row p].
Proof.
  destruct p as [r c]. unfold inRange, squareName, JSString.fromCharCode.
  cbn [row col]. intros [Hr Hc]. rewrite Z.mod_small by lia.
  assert (Hcases : r = 0 \/ r = 1 \/ r = 2 \/ r = 3 \/ r = 4 \/ r = 5 \/ r = 6 \/ r = 7)
    by lia.
  repeat (destruct Hcases as [-> | Hcases]; [reflexivity|]). subst r. reflexivity.
Qed.

(** X19. For a square of the 8 x 8 grid, the name written in the move
    history is two characters: the file letter, ['a'] for column 0 up to
    ['h'] for column 7, and the rank digit, ['8'] for row 0 down to ['1']
    for row 7; so different squares have different names. *)
Theorem squareName_is_algebraic :
  forall p q,
    inRange p -> inRange q ->
    squareName p = [97 + col p; 56 - row p] /\
    (squareName p = squareName q -> p = q).
Proof.
  intros p q Hp Hq. split; [now apply squareName_inRange|].
  rewrite (squareName_inRange p Hp), (squareName_inRange q Hq).
  destruct p as [r c], q as [r' c']. cbn [row col]. intros H.
  assert (Hc : 97 + c = 97 + c') by congruence.
  assert (Hr : 56 - r = 56 - r') by congruence.
  f_equal; lia.
Qed.

Lemma squareName_is_algebraic_witness :
  squareName (mkPos 6 4) = [97 + 4; 56 - 6] /\
  (squareName (mkPos 6 4) = squareName (mkPos 4 4) -> mkPos 6 4 = mkPos 4 4).
Proof.
  apply (squareName_is_algebraic (mkPos 6 4) (mkPos 4 4)); unfold inRange; simpl; lia.
Defined.

(** ** En passant, as generated and as applied *)

Lemma enPassantOk_square from_ to_ lm :
  enPassantOk from_ to_ (Some lm) = true ->
  row (Chess.to lm) = row from_ /\ col (Chess.to lm) = col to_.
Proof.
  unfold enPassantOk. rewrite !andb_true_iff, !Z.eqb_eq. tauto.
Qed.

Lemma en_passant_spec board from_ c lm ms to_ :
  wf_board board -> inRange from_ -> inRange to_ ->
  getPawnMoves board from_ c (Some lm) = Ok ms ->
  row to_ = row from_ + direction c ->
  Z.abs (col to_ - col from_) = 1 ->
  enPassantOk from_ to_ (Some lm) = true ->
  In to_ ms /\
  exists nb,
    makeMove board from_ to_ = Ok nb /\
    cellAt nb (row (Chess.to lm)) (col (Chess.to lm))
    = cellAt board (row (Chess.to lm)) (col (Chess.to lm)).
Proof.
  intros W Rf Rt H Hrow Hcol Hep. split.
  - apply (getPawnMoves_In _ _ _ _ _ to_ H). right. right. auto.
  - destruct (makeMove_wf board from_ to_ W Rf Rt) as (nb & Hnb & _ & S).
    exists nb. split; [assumption|]. rewrite S.
    destruct (enPassantOk_square _ _ _ Hep) as [Hr Hc]. unfold isAt.
    rewrite Hr, Hc.
    replace (col to_ =? col from_) with false by (symmetry; apply Z.eqb_neq; lia).
    replace (row from_ =? row to_) with false
      by (symmetry; apply Z.eqb_neq; unfold direction in Hrow; destruct c; lia).
    rewrite andb_false_r. reflexivity.
Qed.

(** X20. When the en passant test succeeds for a diagonal square, that
    square is among the pawn's destinations; and relocating the pawn there
    with [makeMove] leaves the square where the last move ended -- the pawn
    that would be captured -- as it was: the capture is generated but the
    captured pawn is not removed. *)
Theorem en_passant_keeps_the_passed_pawn :
  forall board from_ c lm ms to_,
    wf_board board -> inRange from_ -> inRange to_ ->
    getPawnMoves board from_ c (Some lm) = Ok ms ->
    row to_ = row from_ + direction c ->
    Z.abs (col to_ - col from_) = 1 ->
    enPassantOk from_ to_ (Some lm) = true ->
    In to_ ms /\
    exists nb,
      makeMove board from_ to_ = Ok nb /\
      cellAt nb (row (Chess.to lm)) (col (Chess.to lm))
      = cellAt board (row (Chess.to lm)) (col (Chess.to lm)).
Proof.
  exact en_passant_spec.
Qed.

Lemma en_passant_keeps_the_passed_pawn_witness :
  In (mkPos 2 3) [mkPos 2 4; mkPos 2 3] /\
  exists nb,
    makeMove afterE5D5 (mkPos 3 4) (mkPos 2 3) = Ok nb /\
    cellAt nb (row (Chess.to d7d5)) (col (Chess.to d7d5))
    = cellAt afterE5D5 (row (Chess.to d7d5)) (col (Chess.to d7d5)).
Proof.
  apply (en_passant_keeps_the_passed_pawn afterE5D5 (mkPos 3 4) white d7d5
           [mkPos 2 4; mkPos 2 3] (mkPos 2 3)).
  - reflexivity.
  - unfold inRange. simpl. lia.
  - unfold inRange. simpl. lia.
  - vm_compute. reflexivity.
  - reflexivity.
  - reflexivity.
  - reflexivity.
Defined.

(** ** The scores of the pruned search, in any window *)

(** X21. On a board of eight rows, for every depth and every window
    [(a, b)] with [a < b], the score of [minimax] and the score [v] of the
    search without cut-offs are on the same side of the window: the pruned
    score is at most [a] if [v] is, at least [b] if [v] is, and equal to
    [v] if [v] lies strictly between [a] and [b]. *)
Theorem alpha_beta_respects_the_window :
  forall board depth maximizing c a b,
    eightRows board -> nltb a b = true ->
    exists v w,
      minimaxFull board depth maximizing c = Ok v /\
      minimax board depth a b maximizing c = Ok w /\
      (nleb v a = true -> nleb w a = true) /\
      (nleb b v = true -> nleb b w = true) /\
      (nltb a v = true -> nltb v b = true -> w = v).
Proof.
  intros board0 depth maximizing c a b L Hab.
  destruct (minimax_refines depth board0 maximizing c L) as (v & Hv & Hw).
  destruct (Hw a b Hab) as (w & Hw' & Hin). exists v, w. auto.
Qed.

Lemma alpha_beta_respects_the_window_witness :
  exists v w,
    minimaxFull afterE4D5 2 true white = Ok v /\
    minimax afterE4D5 2 (Fin 0) (Fin 50) true white = Ok w /\
    (nleb v (Fin 0) = true -> nleb w (Fin 0) = true) /\
    (nleb (Fin 50) v = true -> nleb (Fin 50) w = true) /\
    (nltb (Fin 0) v = true -> nltb v (Fin 50) = true -> w = v).
Proof.
  apply (alpha_beta_respects_the_window afterE4D5 2 true white (Fin 0) (Fin 50));
    reflexivity.
Defined.

(** ** The enumeration of the search *)

(** X22. [getAllPossibleMoves] enumerates exactly the moves whose source is a
    square of the 8 x 8 grid holding a piece of the colour and whose
    destination is one of the legal destinations [getValidMoves] gives for
    that square (with no last move). *)
Theorem getAllPossibleMoves_enumerates_legal_moves :
  forall board c ms m,
    getAllPossibleMoves board c = Ok ms ->
    (In m ms <->
     exists pc tos,
       inRange (from m) /\
       cellAt board (row (from m)) (col (from m)) = Ok (Occ pc) /\ color pc = c /\
       getValidMoves board (from m) None = Ok tos /\ In (to m) tos).
Proof.
  intros board0 c ms m H. rewrite (getAllPossibleMoves_In _ _ _ m H).
  split; intros (pc & tos & Hsq & Hrest); exists pc, tos;
    (split; [now apply allSquares_In | assumption]).
Qed.

Lemma getAllPossibleMoves_enumerates_legal_moves_witness :
  In (mkFromTo (mkPos 6 0) (mkPos 4 0))
     [mkFromTo (mkPos 6 0) (mkPos 5 0); mkFromTo (mkPos 6 0) (mkPos 4 0)] <->
  exists pc tos,
    inRange (mkPos 6 0) /\
    cellAt lonePawn 6 0 = Ok (Occ pc) /\ color pc = white /\
    getValidMoves lonePawn (mkPos 6 0) None = Ok tos /\ In (mkPos 4 0) tos.
Proof.
  apply (getAllPossibleMoves_enumerates_legal_moves lonePawn white
           [mkFromTo (mkPos 6 0) (mkPos 5 0); mkFromTo (mkPos 6 0) (mkPos 4 0)]
           (mkFromTo (mkPos 6 0) (mkPos 4 0))).
  vm_compute. reflexivity.
Defined.

(** ** General description of [makeMove] *)

(** X23. Between any two squares of the grid of an 8 x 8 board, [makeMove]
    succeeds without any validation and gives an 8 x 8 board: the source is
    empty, the destination holds what the source held (a piece or nothing),
    and every other square is as before. *)
Theorem makeMove_on_the_grid :
  forall board0 from_ to_,
    wf_board board0 -> inRange from_ -> inRange to_ ->
    exists nb,
      makeMove board0 from_ to_ = Ok nb /\
      wf_board nb /\
      forall r c,
        cellAt nb r c =
        if isAt r c from_ then Ok Null
        else if isAt r c to_ then cellAt board0 (row from_) (col from_)
        else cellAt board0 r c.
Proof.
  exact makeMove_wf.
Qed.

Lemma makeMove_on_the_grid_witness :
  exists nb,
    makeMove INITIAL_BOARD (mkPos 4 4) (mkPos 0 4) = Ok nb /\
    wf_board nb /\
    forall r c,
      cellAt nb r c =
      if isAt r c (mkPos 4 4) then Ok Null
      else if isAt r c (mkPos 0 4) then cellAt INITIAL_BOARD 4 4
      else cellAt INITIAL_BOARD r c.
Proof.
  apply (makeMove_on_the_grid INITIAL_BOARD (mkPos 4 4) (mkPos 0 4)).
  - reflexivity.
  - unfold inRange. simpl. lia.
  - unfold inRange. simpl. lia.
Defined.

(** ** Every state the component reaches *)

Lemma handleSquareClick_blocked mode st r c :
  isThinking st = true \/ (mode = bot /\ currentPlayer st = black) ->
  handleSquareClick mode st r c = Ok st.
Proof.
  unfold handleSquareClick. intros [-> | [-> ->]]; [reflexivity|].
  destruct (isThinking st); reflexivity.
Qed.

Lemma handleSquareClick_keeps_isThinking mode st r c st' :
  handleSquareClick mode st r c = Ok st' -> isThinking st' = isThinking st.
Proof.
  unfold handleSquareClick. intros H.
  destruct (isThinking st) eqn:Th; [inversion H; subst; congruence|].
  match type of H with
  | (if ?g then _ else _) = _ => destruct g
  end; [inversion H; subst; congruence|].
  bind_inv H.
  assert (Sel : forall st'', select st r c = Ok st'' -> isThinking st'' = false).
  { unfold select. intros st'' Hs. bind_inv Hs. inversion Hs; subst. cbn. exact Th. }
  destruct (selectedSquare st) as [sel|].
  - destruct (isHighlighted st r c).
    + cbv zeta in H. bind_inv H. bind_inv H. bind_inv H. inversion H; subst. reflexivity.
    + destruct (isOwn a (currentPlayer st)); [now apply Sel|].
      inversion H; subst. reflexivity.
  - destruct (isOwn a (currentPlayer st)); [now apply Sel|].
    inversion H; subst. exact Th.
Qed.

Lemma coherent_inRange st sel :
  wf_board (board st) -> coherent st -> selectedSquare st = Some sel -> inRange sel.
Proof.
  intros W Hco Hsel. unfold coherent in Hco. rewrite Hsel in Hco.
  destruct Hco as (pc & Hpc & _).
  destruct (cellAt_onBoard _ _ _ Hpc) as (rw & Hrw & Hcol).
  destruct (wf_board_row _ _ _ W Hrw) as [Hl _].
  apply index_Some in Hrw. pose proof (wf_board_eightRows _ W) as L.
  unfold eightRows in L. unfold inRange. lia.
Qed.

Lemma handleSquareClick_total mode st r c :
  wf_board (board st) -> coherent st -> 0 <= r < 8 -> 0 <= c < 8 ->
  exists st', handleSquareClick mode st r c = Ok st'.
Proof.
  intros W Hco Hr Hc. pose proof (wf_board_eightRows _ W) as L.
  unfold handleSquareClick.
  destruct (isThinking st); [eauto|].
  match goal with
  | |- exists st', (if ?g then _ else _) = _ => destruct g
  end; [eauto|].
  destruct (cellAt_total (board st) r c L Hr) as [x ->]. cbn [bind].
  assert (Sel : exists st', select st r c = Ok st').
  { unfold select.
    destruct (getValidMoves_total (board st) (mkPos r c) None L Hr) as [ms ->].
    cbn [bind]. eauto. }
  destruct (selectedSquare st) as [sel|] eqn:Hsel.
  - destruct (isHighlighted st r c).
    + pose proof (coherent_inRange st sel W Hco Hsel) as Rs.
      cbv zeta.
      rewrite (relocate_makeMove (board st) sel r c
                 (fun movingPiece newBoard2 =>
                    Ok (mkState newBoard2 None [] (opposite (currentPlayer st))
                          (moveHistory st
                           ++ [historyEntry sel (mkPos r c) (typeOrEmpty movingPiece)])
                          false))).
      destruct (cellAt_inRange (board st) sel L Rs) as [y ->]. cbn [bind].
      destruct (makeMove_total (board st) sel (mkPos r c) L (proj1 Rs) Hr)
        as (nb & -> & _).
      cbn [bind]. eauto.
    + destruct (isOwn x (currentPlayer st)); [assumption | eauto].
  - destruct (isOwn x (currentPlayer st)); [assumption | eauto].
Qed.

Lemma turnOf_snoc history entry :
  turnOf (history ++ [entry]) = opposite (turnOf history).
Proof.
  unfold turnOf. rewrite length_app. cbn [length].
  rewrite Nat.add_1_r, Nat.even_succ, <- Nat.negb_even.
  destruct (Nat.even (length history)); reflexivity.
Qed.

Lemma invariant_click mode st r c st' :
  invariant mode st -> 0 <= r < 8 -> 0 <= c < 8 ->
  handleSquareClick mode st r c = Ok st' ->
  invariant mode st'.
Proof.
  intros (W & Hco & Hth & Hbot & Hturn) Hr Hc H.
  destruct (isThinking st) eqn:Th.
  { rewrite handleSquareClick_blocked in H by (left; exact Th).
    inversion H; subst st'. unfold invariant. rewrite Th. auto. }
  assert (Hblock : mode = bot /\ currentPlayer st = black \/
                   ~ (mode = bot /\ currentPlayer st = black)).
  { destruct mode, (currentPlayer st); auto; right; intros [? ?]; discriminate. }
  destruct Hblock as [Hb | Hnb].
  { rewrite handleSquareClick_blocked in H by (right; exact Hb).
    inversion H; subst st'. unfold invariant. rewrite Th. auto. }
  pose proof (handleSquareClick_keeps_isThinking _ _ _ _ _ H) as Hth'.
  rewrite Th in Hth'.
  destruct (handleSquareClick_spec mode st r c st' Hco H)
    as [Hco' [(Hb & Hp & Hh & _) | (sel & pc & Hsel & Hpc & Hcol & Hvm & Hin & Hmk
                                    & Hchk & Hp & Hsel' & Hh)]].
  - unfold invariant. rewrite Hb, Hp, Hh, Hth'.
    split; [assumption|]. split; [assumption|]. split; [discriminate|].
    split; [|assumption]. intros Hm Hblack. exfalso. apply Hnb. auto.
  - pose proof (coherent_inRange st sel W Hco Hsel) as Rs.
    destruct (makeMove_wf (board st) sel (mkPos r c) W Rs (conj Hr Hc))
      as (nb & Hmove & Wnb & _).
    rewrite Hmk in Hmove. inversion Hmove; subst nb.
    unfold invariant. rewrite Hth', Hp, Hh, turnOf_snoc, <- Hturn.
    split; [assumption|]. split; [assumption|]. split; [discriminate|].
    split; [auto | reflexivity].
Qed.

Lemma botMove_keeps_selection difficulty random st st' :
  botMove difficulty random st = Ok st' ->
  selectedSquare st' = selectedSquare st.
Proof.
  unfold botMove. intros H. bind_inv H. destruct a as [| |m].
  - inversion H; subst. reflexivity.
  - inversion H; subst. reflexivity.
  - cbv zeta in H. bind_inv H. bind_inv H. bind_inv H. inversion H; subst. reflexivity.
Qed.

Lemma invariant_botMove mode difficulty random st st' :
  invariant mode st -> isThinking st = true ->
  botMove difficulty random st = Ok st' ->
  invariant mode st'.
Proof.
  intros (W & Hco & Hth & Hbot & Hturn) Th H.
  destruct (Hth Th) as (Hm & Hblack & Hsel).
  assert (Hvm : validMoves st = []) by (unfold coherent in Hco; now rewrite Hsel in Hco).
  pose proof (botMove_keeps_selection _ _ _ _ H) as Hsel'. rewrite Hsel in Hsel'.
  destruct (botMove_spec difficulty random st (wf_board_eightRows _ W) Hsel Hvm)
    as (st'' & Hst'' & Hco' & Hth' & Hcases).
  rewrite H in Hst''. inversion Hst''; subst st''.
  destruct Hcases as [(Hb & Hp & Hh) | (m & ms & pc & tos & Hms & Hin & _ & _ & _ & _
                                        & Hmk & _ & Hp & Hh)].
  - unfold invariant. rewrite Hb, Hp, Hh, Hth'.
    split; [assumption|]. split; [assumption|]. split; [discriminate|]. auto.
  - destruct (getAllPossibleMoves_inRange _ _ _ m Hms Hin) as [Rf Rt].
    destruct (makeMove_wf (board st) (from m) (to m) W Rf Rt) as (nb & Hnb & Wnb & _).
    rewrite Hmk in Hnb. inversion Hnb; subst nb.
    unfold invariant. rewrite Hth', Hp, Hh, turnOf_snoc, <- Hturn, Hblack.
    split; [assumption|]. split; [assumption|]. split; [discriminate|].
    split; [auto | reflexivity].
Qed.

Lemma invariant_initial mode : invariant mode initialState.
Proof.
  unfold invariant, initialState. cbn.
  split; [reflexivity|]. split; [reflexivity|]. split; [discriminate|].
  split; reflexivity.
Qed.

Lemma invariant_step mode difficulty st st' :
  invariant mode st -> step mode difficulty st st' -> invariant mode st'.
Proof.
  intros Inv Hs. destruct Hs as [s s' r c Hr Hc H | s Hm Hblack Th | s s' random Th H].
  - exact (invariant_click mode s r c s' Inv Hr Hc H).
  - destruct Inv as (W & Hco & Hth & Hbot & Hturn). unfold invariant, botStart. cbn.
    split; [assumption|]. split; [exact Hco|]. split; [auto|]. auto.
  - exact (invariant_botMove mode difficulty random s s' Inv Th H).
Qed.

Lemma reachable_invariant mode difficulty st :
  reachable mode difficulty st -> invariant mode st.
Proof.
  induction 1 as [|st st' _ IH Hs]; [apply invariant_initial|].
  eapply invariant_step; eauto.
Qed.

(** X24. In every state the component reaches from its first render by
    clicks on squares of the grid and by the bot's transitions: the board is
    an 8 x 8 grid; the selection agrees with the board; while the bot is
    thinking, and whenever it is black's turn against the bot, no square is
    selected; the player to move is white exactly when the history has an
    even number of entries.  In such a state a click on a square of the grid
    never throws, and neither does the bot's callback. *)
Theorem reachable_states_are_sound :
  forall mode difficulty st,
    reachable mode difficulty st ->
    invariant mode st /\
    (forall r c, 0 <= r < 8 -> 0 <= c < 8 ->
       exists st', handleSquareClick mode st r c = Ok st') /\
    (forall random, isThinking st = true ->
       exists st', botMove difficulty random st = Ok st').
Proof.
  intros mode difficulty st Hreach.
  pose proof (reachable_invariant mode difficulty st Hreach) as Inv.
  split; [assumption|]. destruct Inv as (W & Hco & Hth & Hbot & Hturn). split.
  - intros r c Hr Hc. now apply handleSquareClick_total.
  - intros random Th. destruct (Hth Th) as (_ & _ & Hsel).
    assert (Hvm : validMoves st = []) by (unfold coherent in Hco; now rewrite Hsel in Hco).
    destruct (botMove_spec difficulty random st (wf_board_eightRows _ W) Hsel Hvm)
      as (st' & Hst' & _).
    eauto.
Qed.

Lemma reachable_states_are_sound_witness :
  invariant player e2Selected /\
  (forall r c, 0 <= r < 8 -> 0 <= c < 8 ->
     exists st', handleSquareClick player e2Selected r c = Ok st') /\
  (forall random, isThinking e2Selected = true ->
     exists st', botMove medium random e2Selected = Ok st').
Proof.
  apply (reachable_states_are_sound player medium e2Selected).
  apply (reachable_step player medium initialState e2Selected);
    [apply reachable_initial|].
  apply (step_click player medium initialState e2Selected 6 4);
    [lia | lia | vm_compute; reflexivity].
Defined.
